(** * Klaytn: weighted council (consensus/istanbul/validator/weighted.go)
      and state object (blockchain/state/state_object.go)

    A shallow embedding of the validator-set selector and of the account
    staging object, with the properties of their specification. *)

From Stdlib Require Import ZArith List Strings.String Strings.Ascii Strings.Byte Lia.
From Stdlib Require Import Floats.PrimFloat Floats.SpecFloat Floats.FloatOps Floats.FloatAxioms.
From Stdlib Require Import Uint63.
From stdpp Require Import base option list gmap strings sorting.

Local Open Scope Z_scope.

(* ===================================================================== *)
(** * Part I: definitions *)
(* ===================================================================== *)

(** ** Go runtime conventions *)

(** What a Go call does: it returns, it panics (nil dereference, index out
    of range), or its loop is still running when the fuel of the model is
    used up. *)
Inductive result (A : Type) : Type :=
| Returns (a : A)
| Panics (why : string)
| OutOfFuel.
Arguments Returns {A} a.
Arguments Panics {A} why.
Arguments OutOfFuel {A}.

#[global] Instance result_ret : MRet result := fun A a => Returns a.
#[global] Instance result_bind : MBind result := fun A B k r =>
  match r with
  | Returns a => k a
  | Panics why => Panics why
  | OutOfFuel => OutOfFuel
  end.

Definition nilDeref : string := "invalid memory address or nil pointer dereference".
Definition indexOutOfRange : string := "index out of range".

(** uint64 arithmetic wraps around. *)
Definition wrap64 (x : Z) : Z := x mod 2 ^ 64.

(** Slice indexing [s[i]] with its bounds check. *)
Definition index {A} (s : list A) (i : Z) : result A :=
  if (i <? 0) then Panics indexOutOfRange
  else match s !! Z.to_nat i with
       | Some x => Returns x
       | None => Panics indexOutOfRange
       end.

(** Slice assignment [s[i] = x] with its bounds check. *)
Definition assign {A} (s : list A) (i : Z) (x : A) : result (list A) :=
  if (i <? 0) || (Z.of_nat (length s) <=? i) then Panics indexOutOfRange
  else Returns (<[Z.to_nat i := x]> s).

(** ** common.Address and common.Hash *)

(** A 20-byte address, read as a big-endian number; [common.Address{}] is 0. *)
Definition Address := Z.

(** The helper [emptyAddress] of the validator package: is the address
    [common.Address{}]? *)
Definition emptyAddress (a : Address) : bool := a =? 0.

(** A hash is [HashLength = 32] bytes. *)
Definition Hash := list byte.
Definition HashLength : nat := 32.

(** [h.Big()]: the bytes as a big-endian number. *)
Definition bigOfBytes (bs : list byte) : Z :=
  fold_left (fun acc b => acc * 256 + Z.of_N (Byte.to_N b)) bs 0.

Definition hexDigit (d : Z) : ascii :=
  match d with
  | 0 => "0" | 1 => "1" | 2 => "2" | 3 => "3" | 4 => "4" | 5 => "5"
  | 6 => "6" | 7 => "7" | 8 => "8" | 9 => "9" | 10 => "a" | 11 => "b"
  | 12 => "c" | 13 => "d" | 14 => "e" | _ => "f"
  end%char.

(** [hex.EncodeToString]: two lower-case digits per byte, high nibble first. *)
Fixpoint hexEncode (bs : list byte) : string :=
  match bs with
  | [] => EmptyString
  | b :: rest =>
      let n := Z.of_N (Byte.to_N b) in
      String (hexDigit (Z.shiftr n 4)) (String (hexDigit (Z.land n 15)) (hexEncode rest))
  end.

(** [Hash.Hex()]: ["0x"] followed by the hex encoding. *)
Definition Hex (h : Hash) : string := String "0" (String "x" (hexEncode h)).

(** ** strings and strconv *)

Fixpoint stripPrefix (prefix s : string) : option string :=
  match prefix, s with
  | EmptyString, _ => Some s
  | String c p', String d s' => if Ascii.eqb c d then stripPrefix p' s' else None
  | String _ _, EmptyString => None
  end.

(** [strings.TrimPrefix]: [s] without the leading [prefix], or [s] itself. *)
Definition TrimPrefix (s prefix : string) : string :=
  match stripPrefix prefix s with
  | Some rest => rest
  | None => s
  end.

(** The slice expression [s[:n]] for [n <= len(s)]. *)
Fixpoint sliceTo (n : nat) (s : string) : string :=
  match n, s with
  | O, _ => EmptyString
  | S n', String c s' => String c (sliceTo n' s')
  | S _, EmptyString => EmptyString
  end.

Inductive NumError : Type := ErrSyntax | ErrRange.

(** The value of a digit character, as in [strconv.ParseUint]. *)
Definition digitVal (c : ascii) : option Z :=
  let n := Z.of_nat (nat_of_ascii c) in
  if (48 <=? n) && (n <=? 57) then Some (n - 48)
  else if (97 <=? n) && (n <=? 122) then Some (n - 97 + 10)
  else if (65 <=? n) && (n <=? 90) then Some (n - 65 + 10)
  else None.

(** The digit loop of [strconv.ParseUint] for an explicit base. *)
Fixpoint parseDigits (base bitSize : Z) (s : string) (acc : Z) : Z + NumError :=
  match s with
  | EmptyString => inl acc
  | String c s' =>
      match digitVal c with
      | None => inr ErrSyntax
      | Some d =>
          if base <=? d then inr ErrSyntax
          else
            let n := acc * base + d in
            if 2 ^ bitSize <=? n then inr ErrRange
            else parseDigits base bitSize s' n
      end
  end.

Definition ParseUint (s : string) (base bitSize : Z) : Z + NumError :=
  match s with
  | EmptyString => inr ErrSyntax
  | _ => parseDigits base bitSize s 0
  end.

(** [strconv.ParseInt(s, base, bitSize)] for an explicit base: an optional
    sign, then the digits; the value must fit in a signed [bitSize]-bit
    integer. *)
Definition ParseInt (s : string) (base bitSize : Z) : Z + NumError :=
  match s with
  | EmptyString => inr ErrSyntax
  | String c s' =>
      let '(neg, body) :=
        if Ascii.eqb c "+" then (false, s')
        else if Ascii.eqb c "-" then (true, s')
        else (false, s) in
      match ParseUint body base bitSize with
      | inr e => inr e
      | inl un =>
          let cutoff := 2 ^ (bitSize - 1) in
          if negb neg && (cutoff <=? un) then inr ErrRange
          else if neg && (cutoff <? un) then inr ErrRange
          else inl (if neg then - un else un)
      end
  end.

(** The seed of both shuffles (weighted.go, lines 305-310 and 581-585):
<<
    hashstring := strings.TrimPrefix(hash.Hex(), "0x")
    if len(hashstring) > 15 { hashstring = hashstring[:15] }
    seed, err := strconv.ParseInt(hashstring, 16, 64)
>> *)
Definition parseSeed (hash : Hash) : Z + NumError :=
  let hashstring := TrimPrefix (Hex hash) "0x" in
  let hashstring :=
    if (15 <? Z.of_nat (String.length hashstring))
    then sliceTo 15 hashstring else hashstring in
  ParseInt hashstring 16 64.

(** ** Loops *)

(** [for i := lo; i < lo + count; i++ { s = body(i, s) }] *)
Fixpoint forLoop {St : Type} (count : nat) (i : Z) (body : Z -> St -> result St) (s : St)
  : result St :=
  match count with
  | O => Returns s
  | S count' => s' ← body i s; forLoop count' (i + 1) body s'
  end.

(** [for _, x := range xs { s = body(x, s) }] *)
Fixpoint forRange {A St : Type} (xs : list A) (body : A -> St -> result St) (s : St)
  : result St :=
  match xs with
  | [] => Returns s
  | x :: rest => s' ← body x s; forRange rest body s'
  end.

(** [xs[i], xs[j] = xs[j], xs[i]]: both operands are read, then both
    elements are written. *)
Definition swap {A} (xs : list A) (i j : Z) : result (list A) :=
  xj ← index xs j;
  xi ← index xs i;
  xs' ← assign xs i xj;
  assign xs' j xi.

(** ** weightedValidator *)

Record weightedValidator : Type := mkValidator {
  address : Address;
  rewardAddress : Address;
  votingPower : Z;
  weight : Z
}.

#[global] Instance weightedValidator_eq_dec : EqDecision weightedValidator.
Proof. solve_decision. Defined.

(** An [istanbul.Validator] interface value: [None] is the nil interface.
    A handle is modelled by the record it points at; the address, by which
    the council compares validators, never changes. *)
Definition Validator := option weightedValidator.

(** A method call on a nil interface value panics. *)
Definition Address_of (val : Validator) : result Address :=
  match val with
  | Some v => Returns (address v)
  | None => Panics nilDeref
  end.

Definition Weight_of (val : Validator) : result Z :=
  match val with
  | Some v => Returns (weight v)
  | None => Panics nilDeref
  end.

Definition newWeightedValidator (addr reward : Address) (votingpower w : Z) : Validator :=
  Some (mkValidator addr reward votingpower w).

Definition SetRewardAddress (v : weightedValidator) (reward : Address) : weightedValidator :=
  mkValidator (address v) reward (votingPower v) (weight v).

Definition StoreWeight (v : weightedValidator) (w : Z) : weightedValidator :=
  mkValidator (address v) (rewardAddress v) (votingPower v) w.

(** ** reward.StakingInfo *)

Record StakingInfo : Type := mkStakingInfo {
  BlockNum : Z;
  CouncilNodeAddrs : list Address;
  CouncilRewardAddrs : list Address;
  CouncilStakingAmounts : list Z;
  UseGini : bool;
  Gini : float
}.

Definition SetGini (si : StakingInfo) (g : float) : StakingInfo :=
  mkStakingInfo (BlockNum si) (CouncilNodeAddrs si) (CouncilRewardAddrs si)
                (CouncilStakingAmounts si) (UseGini si) g.

Fixpoint indexOfAddress (addrs : list Address) (i : Z) (a : Address) : option Z :=
  match addrs with
  | [] => None
  | x :: rest => if x =? a then Some i else indexOfAddress rest (i + 1) a
  end.

(** Modelled from the spec: [StakingInfo.GetIndexByNodeAddress] of the reward
    package, the staking index of a node address ([None] is its error). *)
Definition GetIndexByNodeAddress (si : StakingInfo) (a : Address) : option Z :=
  indexOfAddress (CouncilNodeAddrs si) 0 a.

(** ** float64 *)

(** [float64(x)] for an unsigned integer: rounding to nearest, ties to even. *)
Definition float64OfUint64 (x : Z) : float :=
  SF2Prim (binary_normalize prec emax x 0 false).

(** [math.Round]: the nearest integer, halves away from zero; zeros,
    infinities and NaN are returned as they are. *)
Definition Round (x : float) : float :=
  match Prim2SF x with
  | S754_finite s m e =>
      if 0 <=? e then x
      else
        let d := 2 ^ (- e) in
        let q := Z.pos m / d in
        let r := Z.pos m mod d in
        let n := if d <=? 2 * r then q + 1 else q in
        let a := SF2Prim (binary_normalize prec emax n 0 false) in
        if s then PrimFloat.opp a else a
  | _ => x
  end.

Section Float64ToUint64.

(** The conversion [uint64(f)] of a value that uint64 cannot represent
    succeeds with an implementation-dependent result. *)
Variable uint64Unrepresentable : float -> Z.

(** [uint64(f)]: the fraction is discarded. *)
Definition uint64OfFloat64 (f : float) : Z :=
  match Prim2SF f with
  | S754_zero _ => 0
  | S754_finite s m e =>
      let t := if 0 <=? e then Z.pos m * 2 ^ e else Z.pos m / 2 ^ (- e) in
      if t =? 0 then 0
      else if s then wrap64 (uint64Unrepresentable f)
      else if t <? 2 ^ 64 then t
      else wrap64 (uint64Unrepresentable f)
  | _ => wrap64 (uint64Unrepresentable f)
  end.

(** ** calcWeight *)

Definition calcWeight (weightedValidators : list weightedValidator)
    (stakingAmounts : list float) (totalStaking : float)
  : result (list weightedValidator) :=
  if PrimFloat.ltb 0 totalStaking then
    '(_, out) ← forRange weightedValidators (fun weightedVal '(i, out) =>
      amount ← index stakingAmounts i;
      let w := uint64OfFloat64 (Round (amount * 100 / totalStaking)%float) in
      let w := if w <=? 0 then 1 else w in
      Returns (i + 1, out ++ [StoreWeight weightedVal w])) (0, []);
    Returns out
  else
    Returns (map (fun weightedVal => StoreWeight weightedVal 0) weightedValidators).

End Float64ToUint64.

(** ** weightedCouncil *)

(** The council. Its [policy] is always [istanbul.WeightedRandom] and its
    [selector] always [weightedRandomProposer] ([NewWeightedCouncil] builds
    no other), so neither is a field here; [proposer] is the atomic cell,
    [None] while nothing is stored. *)
Record weightedCouncil : Type := mkCouncil {
  subSize : Z;
  validators : list Validator;
  proposer : Validator;
  proposers : list Validator;
  proposersBlockNum : Z;
  stakingInfo : option StakingInfo;
  blockNum : Z
}.

Definition setValidators (valSet : weightedCouncil) (vals : list Validator) : weightedCouncil :=
  mkCouncil (subSize valSet) vals (proposer valSet) (proposers valSet)
            (proposersBlockNum valSet) (stakingInfo valSet) (blockNum valSet).

Definition setProposer (valSet : weightedCouncil) (p : Validator) : weightedCouncil :=
  mkCouncil (subSize valSet) (validators valSet) p (proposers valSet)
            (proposersBlockNum valSet) (stakingInfo valSet) (blockNum valSet).

Definition setProposers (valSet : weightedCouncil) (ps : list Validator) : weightedCouncil :=
  mkCouncil (subSize valSet) (validators valSet) (proposer valSet) ps
            (proposersBlockNum valSet) (stakingInfo valSet) (blockNum valSet).

Definition setProposersBlockNum (valSet : weightedCouncil) (n : Z) : weightedCouncil :=
  mkCouncil (subSize valSet) (validators valSet) (proposer valSet) (proposers valSet)
            n (stakingInfo valSet) (blockNum valSet).

Definition setStakingInfo (valSet : weightedCouncil) (si : option StakingInfo)
  : weightedCouncil :=
  mkCouncil (subSize valSet) (validators valSet) (proposer valSet) (proposers valSet)
            (proposersBlockNum valSet) si (blockNum valSet).

Definition len {A} (s : list A) : Z := Z.of_nat (length s).

Definition Size (valSet : weightedCouncil) : Z := len (validators valSet).

Fixpoint getByAddressFrom (vals : list Validator) (i : Z) (addr : Address)
  : result (Z * Validator) :=
  match vals with
  | [] => Returns (-1, None)
  | val :: rest =>
      a ← Address_of val;
      if addr =? a then Returns (i, val) else getByAddressFrom rest (i + 1) addr
  end.

Definition getByAddress (valSet : weightedCouncil) (addr : Address) : result (Z * Validator) :=
  getByAddressFrom (validators valSet) 0 addr.

Definition GetByAddress := getByAddress.

Definition GetByIndex (valSet : weightedCouncil) (i : Z) : Validator :=
  if i <? len (validators valSet) then default None (validators valSet !! Z.to_nat i)
  else None.

(** [valSet.proposer.Load().(istanbul.Validator)]: the assertion panics on an
    empty cell. *)
Definition GetProposer (valSet : weightedCouncil) : result Validator :=
  match proposer valSet with
  | Some v => Returns (Some v)
  | None => Panics "interface conversion: interface is nil, not istanbul.Validator"
  end.

Section Council.

(** [params.CalcProposerBlockNumber], supplied by the chain parameters. *)
Variable CalcProposerBlockNumber : Z -> Z.

(** [rand.New(rand.NewSource(seed))]: [randIntn seed k n] is what the
    [(k+1)]-th call [picker.Intn(n)] returns when every call before it had the
    same argument [n], as in both shuffles. *)
Variable randIntn : Z -> Z -> Z -> Z.

Definition Intn (seed draws n : Z) : result Z :=
  if n <=? 0 then Panics "invalid argument to Intn" else Returns (randIntn seed draws n).

Definition weightedRandomProposer (valSet : weightedCouncil) (lastProposer : Address)
    (round : Z) : result Validator :=
  let numProposers := len (proposers valSet) in
  if numProposers =? 0 then Returns None
  else
    let blockNum := blockNum valSet in
    let picker :=
      wrap64 (wrap64 (blockNum + round) - CalcProposerBlockNumber (wrap64 (blockNum + 1)))
        mod numProposers in
    index (proposers valSet) picker.

(** The loop of [SubListWithProposer] that fills slot 1:
<<
    for committee[1] == nil {
      nextProposer := valSet.selector(valSet, proposer, view.Round.Uint64()+nextProposerIdx)
      if committee[0].Address() != nextProposer.Address() {
        committee[1] = nextProposer
        break
      }
      nextProposerIdx += 1
    }
>> *)
Fixpoint nextProposerLoop (fuel : nat) (valSet : weightedCouncil) (proposer : Address)
    (round : Z) (committee : list Validator) (nextProposerIdx : Z)
  : result (list Validator) :=
  match fuel with
  | O => OutOfFuel
  | S fuel' =>
      c1 ← index committee 1;
      match c1 with
      | Some _ => Returns committee
      | None =>
          nextProposer ← weightedRandomProposer valSet proposer (wrap64 (round + nextProposerIdx));
          c0 ← index committee 0;
          a0 ← Address_of c0;
          a1 ← Address_of nextProposer;
          if negb (a0 =? a1) then assign committee 1 nextProposer
          else nextProposerLoop fuel' valSet proposer round committee
                                (wrap64 (nextProposerIdx + 1))
      end
  end.

(** The shuffle of both [SubListWithProposer] and [refreshProposers]:
<<
    for i := 0; i < limit; i++ {
      randIndex := picker.Intn(limit)
      xs[i], xs[randIndex] = xs[randIndex], xs[i]
    }
>> *)
Definition shuffle (seed : Z) (limit : Z) (xs : list Z) : result (list Z) :=
  forLoop (Z.to_nat limit) 0 (fun i xs =>
    randIndex ← Intn seed i limit;
    swap xs i randIndex) xs.

(** [make([]T, n)] panics on a negative length. *)
Definition make {A} (zero : A) (n : Z) : result (list A) :=
  if n <? 0 then Panics "makeslice: len out of range"
  else Returns (replicate (Z.to_nat n) zero).

(** [round] is [view.Round.Uint64()]; [fuel] bounds the iterations of the
    loop for slot 1, which has no bound of its own. *)
Definition SubListWithProposer (fuel : nat) (valSet : weightedCouncil) (prevHash : Hash)
    (proposer : Address) (round : Z) : result (list Validator) :=
  if len (validators valSet) <=? subSize valSet then Returns (validators valSet)
  else
    match parseSeed prevHash with
    | inr _ => Returns (validators valSet)
    | inl seed =>
        committee ← make (None : Validator) (subSize valSet);
        '(_, proposerValidator) ← getByAddress valSet proposer;
        match proposerValidator with
        | None => Returns (validators valSet)
        | Some _ =>
            committee ← assign committee 0 proposerValidator;
            if subSize valSet =? 1 then Returns committee
            else
              committee ← nextProposerLoop fuel valSet proposer round committee 1;
              c0 ← index committee 0;
              a0 ← Address_of c0;
              '(proposerIdx, _) ← getByAddress valSet a0;
              c1 ← index committee 1;
              a1 ← Address_of c1;
              '(nextproposerIdx, _) ← getByAddress valSet a1;
              let limit := len (validators valSet) in
              let pickSize := limit - 2 in
              indexs ← make 0 pickSize;
              '(indexs, _) ← forLoop (Z.to_nat limit) 0 (fun i '(indexs, idx) =>
                if negb (i =? proposerIdx) && negb (i =? nextproposerIdx) then
                  indexs ← assign indexs idx i;
                  Returns (indexs, idx + 1)
                else Returns (indexs, idx)) (indexs, 0);
              indexs ← shuffle seed pickSize indexs;
              forLoop (Z.to_nat (wrap64 (subSize valSet - 2))) 0 (fun i committee =>
                ix ← index indexs i;
                v ← index (validators valSet) ix;
                assign committee (wrap64 (i + 2)) v) committee
        end
    end.

Definition SubList (fuel : nat) (valSet : weightedCouncil) (prevHash : Hash) (round : Z)
  : result (list Validator) :=
  p ← GetProposer valSet;
  a ← Address_of p;
  SubListWithProposer fuel valSet prevHash a round.

Definition chooseProposerByRoundRobin (valSet : weightedCouncil) (lastProposer : Address)
    (round : Z) : result Validator :=
  seed ← (if emptyAddress lastProposer then Returns round
          else
            '(idx, val) ← getByAddress valSet lastProposer;
            let offset := match val with Some _ => idx | None => 0 end in
            Returns (wrap64 (offset + round)));
  if len (validators valSet) =? 0 then Panics "integer divide by zero"
  else
    let pick := seed mod len (validators valSet) in
    index (validators valSet) pick.

(** [atomic.Value.Store] panics on a nil value. *)
Definition storeProposer (valSet : weightedCouncil) (p : Validator) : result weightedCouncil :=
  match p with
  | Some _ => Returns (setProposer valSet p)
  | None => Panics "sync/atomic: store of nil value into Value"
  end.

Definition CalcProposer (valSet : weightedCouncil) (lastProposer : Address) (round : Z)
  : result weightedCouncil :=
  newProposer ← weightedRandomProposer valSet lastProposer round;
  newProposer ←
    match newProposer with
    | Some _ => Returns newProposer
    | None =>
        if len (validators valSet) =? 0
        then Returns (newWeightedValidator lastProposer 0 0 0)
        else chooseProposerByRoundRobin valSet lastProposer round
    end;
  storeProposer valSet newProposer.

(** *** Membership mutation *)

Definition validatorKey (v : Validator) : Z :=
  match v with Some w => address w | None => 0 end.

Definition validatorLe (a b : Validator) : Prop := validatorKey a <= validatorKey b.

#[global] Instance validatorLe_dec : RelDecision validatorLe.
Proof. intros a b. unfold validatorLe. apply Z_le_dec. Defined.

(** Modelled from the spec: [sort.Sort(valSet.validators)]. The order
    ([Less] of [istanbul.Validators]) is not in the files at hand; the
    specification orders validators by address. The only call comes after
    the loop of [AddValidator] has read the address of every element, so no
    element is nil there. *)
Definition sortValidators (vals : list Validator) : list Validator :=
  merge_sort validatorLe vals.

Fixpoint hasAddress (vals : list Validator) (a : Address) : result bool :=
  match vals with
  | [] => Returns false
  | v :: rest =>
      x ← Address_of v;
      if x =? a then Returns true else hasAddress rest a
  end.

Definition AddValidator (valSet : weightedCouncil) (a : Address)
  : result (weightedCouncil * bool) :=
  present ← hasAddress (validators valSet) a;
  if (present : bool) then Returns (valSet, false)
  else
    let vals := validators valSet ++ [newWeightedValidator a 0 1000 0] in
    Returns (setValidators valSet (sortValidators vals), true).

Definition removeValidatorFromProposers (valSet : weightedCouncil) (a : Address)
  : result weightedCouncil :=
  newProposers ← forRange (proposers valSet) (fun v newProposers =>
    x ← Address_of v;
    if negb (x =? a) then Returns (newProposers ++ [v]) else Returns newProposers) [];
  Returns (setProposers valSet newProposers).

(** The loop of [RemoveValidator]; [i] counts the elements already passed. *)
Fixpoint removeValidatorLoop (valSet : weightedCouncil) (rest : list Validator) (i : nat)
    (a : Address) : result (weightedCouncil * bool) :=
  match rest with
  | [] => Returns (valSet, false)
  | v :: rest' =>
      x ← Address_of v;
      if x =? a then
        let vals := take i (validators valSet) ++ drop (S i) (validators valSet) in
        valSet' ← removeValidatorFromProposers (setValidators valSet vals) a;
        Returns (valSet', true)
      else removeValidatorLoop valSet rest' (S i) a
  end.

Definition RemoveValidator (valSet : weightedCouncil) (a : Address)
  : result (weightedCouncil * bool) :=
  removeValidatorLoop valSet (validators valSet) 0 a.

Definition ReplaceValidators (valSet : weightedCouncil) (vals : list Validator)
  : weightedCouncil * bool :=
  (setValidators valSet vals, true).

(** [logger.Trace] gets [val.Address().String()] as an argument, which is
    evaluated whether or not the trace level is on. *)
Definition RecoverWeightedCouncilProposer (valSet : weightedCouncil)
    (proposerAddrs : list Address) : result weightedCouncil :=
  proposers ← forRange proposerAddrs (fun proposerAddr (proposers : list Validator) =>
    '(_, val) ← GetByAddress valSet proposerAddr;
    let proposers := proposers ++ [val] in
    _ ← Address_of val;
    Returns proposers) [];
  Returns (setProposers valSet proposers).

(** *** Refresh *)

(** [reward.GetStakingInfo], the staking-information provider. *)
Variable GetStakingInfo : Z -> option StakingInfo.

(** [math.Pow] and [reward.CalcGiniCoefficient]. *)
Variable Pow : float -> float -> float.
Variable CalcGiniCoefficient : list float -> float.

Variable uint64Unrepresentable : float -> Z.

Inductive RefreshError : Type :=
| errNoValidator
| errParseSeed (e : NumError)
| errSkipRefresh.

(** The inner loop of [getStakingAmountsOfValidators]: the first validator
    with the reward address of staking entry [sIdx] gets its amount. *)
Fixpoint addToFirstRewarded (si : StakingInfo) (sIdx : Z) (vals : list weightedValidator)
    (vIdx : Z) (stakingAmounts : list float) : result (list float) :=
  match vals with
  | [] => Returns stakingAmounts
  | val :: rest =>
      r ← index (CouncilRewardAddrs si) sIdx;
      if rewardAddress val =? r then
        amount ← index (CouncilStakingAmounts si) sIdx;
        old ← index stakingAmounts vIdx;
        assign stakingAmounts vIdx (old + float64OfUint64 amount)%float
      else addToFirstRewarded si sIdx rest (vIdx + 1) stakingAmounts
  end.

(** The validators come back with their reward addresses stored. *)
Definition getStakingAmountsOfValidators (valSet : weightedCouncil) (si : StakingInfo)
  : result (list weightedValidator * list float) :=
  let numValidators := len (validators valSet) in
  stakingAmounts ← make 0%float numValidators;
  addedStaking ← make false (len (CouncilNodeAddrs si));
  '(weightedValidators, stakingAmounts, addedStaking, _) ←
    forRange (validators valSet) (fun val '(wvs, stakingAmounts, addedStaking, vIdx) =>
      match val with
      | None => Panics nilDeref
      | Some weightedVal =>
          match GetIndexByNodeAddress si (address weightedVal) with
          | Some sIdx =>
              rewardAddr ← index (CouncilRewardAddrs si) sIdx;
              amount ← index (CouncilStakingAmounts si) sIdx;
              stakingAmounts ← assign stakingAmounts vIdx (float64OfUint64 amount);
              addedStaking ← assign addedStaking sIdx true;
              Returns (wvs ++ [SetRewardAddress weightedVal rewardAddr],
                       stakingAmounts, addedStaking, vIdx + 1)
          | None =>
              Returns (wvs ++ [SetRewardAddress weightedVal 0],
                       stakingAmounts, addedStaking, vIdx + 1)
          end
      end) ([], stakingAmounts, addedStaking, 0);
  stakingAmounts ← forLoop (length addedStaking) 0 (fun sIdx stakingAmounts =>
    isAdded ← index addedStaking sIdx;
    if (isAdded : bool) then Returns stakingAmounts
    else addToFirstRewarded si sIdx weightedValidators 0 stakingAmounts) stakingAmounts;
  Returns (weightedValidators, stakingAmounts).

(** The total comes back with the staking info (its [Gini] is stored) and the
    staking amounts (compressed in place when [UseGini]). *)
Definition calcTotalAmount (weightedValidators : list weightedValidator) (si : StakingInfo)
    (stakingAmounts : list float) : result (float * StakingInfo * list float) :=
  if len (CouncilNodeAddrs si) =? 0 then Returns (0%float, si, stakingAmounts)
  else if UseGini si then
    '(tempStakingAmounts, _) ← forRange weightedValidators (fun val '(temp, vIdx) =>
      match GetIndexByNodeAddress si (address val) with
      | Some _ => amount ← index stakingAmounts vIdx; Returns (temp ++ [amount], vIdx + 1)
      | None => Returns (temp, vIdx + 1)
      end) ([], 0);
    let si := SetGini si (CalcGiniCoefficient tempStakingAmounts) in
    let stakingAmounts :=
      map (fun a => Round (Pow a (1 / (1 + Gini si)))%float) stakingAmounts in
    Returns (fold_left PrimFloat.add stakingAmounts 0%float, si, stakingAmounts)
  else
    Returns (fold_left PrimFloat.add stakingAmounts 0%float, si, stakingAmounts).

Definition refreshProposers (valSet : weightedCouncil) (seed : Z) (blockNum : Z)
  : result weightedCouncil :=
  '(candidateValsIdx, _) ← forRange (validators valSet) (fun val '(cands, index) =>
    w ← Weight_of val;
    Returns (cands ++ replicate (Z.to_nat w) index, index + 1)) ([], 0);
  let candidateValsIdx :=
    if len candidateValsIdx =? 0
    then map Z.of_nat (seq 0 (length (validators valSet)))
    else candidateValsIdx in
  let limit := len candidateValsIdx in
  proposers ← make (None : Validator) limit;
  candidateValsIdx ← shuffle seed limit candidateValsIdx;
  proposers ← forLoop (Z.to_nat limit) 0 (fun i proposers =>
    ix ← index candidateValsIdx i;
    v ← index (validators valSet) ix;
    assign proposers i v) proposers;
  Returns (setProposersBlockNum (setProposers valSet proposers) blockNum).

(** [Refresh] stores reward addresses and weights through the validator
    handles; here the updated records are written back to [validators]. *)
Definition Refresh (valSet : weightedCouncil) (hash : Hash) (blockNum : Z)
  : result (weightedCouncil * option RefreshError) :=
  if proposersBlockNum valSet =? blockNum then Returns (valSet, None)
  else
    let numValidators := len (validators valSet) in
    if numValidators =? 0 then Returns (valSet, Some errNoValidator)
    else
      match parseSeed hash with
      | inr e => Returns (valSet, Some (errParseSeed e))
      | inl seed =>
          let newStakingInfo := GetStakingInfo (wrap64 (blockNum + 1)) in
          let valSet := setStakingInfo valSet newStakingInfo in
          match newStakingInfo with
          | None => Returns (valSet, Some errSkipRefresh)
          | Some si =>
              '(weightedValidators, stakingAmounts) ← getStakingAmountsOfValidators valSet si;
              '(totalStaking, si, stakingAmounts) ←
                calcTotalAmount weightedValidators si stakingAmounts;
              weightedValidators ←
                calcWeight uint64Unrepresentable weightedValidators stakingAmounts totalStaking;
              let valSet :=
                setStakingInfo (setValidators valSet (map Some weightedValidators)) (Some si) in
              valSet ← refreshProposers valSet seed blockNum;
              Returns (valSet, None)
          end
      end.

End Council.

(** ** weightedCouncil: construction, snapshot data and the small accessors *)

(** [istanbul.ProposerPolicy] *)
Inductive ProposerPolicy : Type := RoundRobin | Sticky | WeightedRandom.

Definition SubGroupSize (valSet : weightedCouncil) : Z := subSize valSet.

Definition SetSubGroupSize (valSet : weightedCouncil) (size : Z) : weightedCouncil :=
  mkCouncil size (validators valSet) (proposer valSet) (proposers valSet)
            (proposersBlockNum valSet) (stakingInfo valSet) (blockNum valSet).

Definition SetBlockNum (valSet : weightedCouncil) (n : Z) : weightedCouncil :=
  mkCouncil (subSize valSet) (validators valSet) (proposer valSet) (proposers valSet)
            (proposersBlockNum valSet) (stakingInfo valSet) n.

Definition List (valSet : weightedCouncil) : list Validator := validators valSet.
Definition GetValidators (valSet : weightedCouncil) : list Validator := validators valSet.
Definition Proposers (valSet : weightedCouncil) : list Validator := proposers valSet.

Definition IsSubSet (valSet : weightedCouncil) : bool := subSize valSet <? Size valSet.

(** [Copy]: the fields are copied, the two slices into new arrays. *)
Definition Copy (valSet : weightedCouncil) : weightedCouncil :=
  mkCouncil (subSize valSet) (validators valSet) (proposer valSet) (proposers valSet)
            (proposersBlockNum valSet) (stakingInfo valSet) (blockNum valSet).

(** [reflect.DeepEqual] of two validator handles compares what they point at. *)
Definition IsProposer (valSet : weightedCouncil) (a : Address) : result bool :=
  '(_, val) ← GetByAddress valSet a;
  p ← GetProposer valSet;
  Returns (bool_decide (p = val)).

Definition VotingPower_of (val : Validator) : result Z :=
  match val with
  | Some v => Returns (votingPower v)
  | None => Panics nilDeref
  end.

Definition TotalVotingPower (valSet : weightedCouncil) : result Z :=
  forRange (List valSet) (fun v sum =>
    vp ← VotingPower_of v;
    Returns (wrap64 (sum + vp))) 0.

(** The loop of [NewWeightedCouncil] that builds the validators. *)
Fixpoint initValidators (addrs : list Address) (i : Z) (rewards : list Address)
    (votingPowers weights : list Z) : result (list Validator) :=
  match addrs with
  | [] => Returns []
  | addr :: rest =>
      r ← index rewards i;
      vp ← index votingPowers i;
      w ← index weights i;
      vals ← initValidators rest (i + 1) rewards votingPowers weights;
      Returns (newWeightedValidator addr r vp w :: vals)
  end.

(** [NewWeightedCouncil]. A nil slice argument is [None]; [chainIsNil] says
    whether [chain] is nil; the result [None] is the nil council.
    [logger.Crit] ends the process, which is a panic here. The new council
    has no staking info. *)
Definition NewWeightedCouncil (addrs : list Address) (rewards : option (list Address))
    (votingPowers weights : option (list Z)) (policy : ProposerPolicy)
    (committeeSize blockNum proposersBlockNum : Z) (chainIsNil : bool)
  : result (option weightedCouncil) :=
  match policy with
  | WeightedRandom =>
      let rewards :=
        match rewards with
        | Some rs => rs
        | None => replicate (length addrs) 0
        end in
      let weights :=
        match weights with
        | Some ws => ws
        | None => replicate (length addrs) 0
        end in
      votingPowers ←
        match votingPowers with
        | Some vps => Returns vps
        | None =>
            if chainIsNil then Panics "Requires chain to initialize voting powers."
            else Returns (replicate (length addrs) 1000)
        end;
      if negb (len addrs =? len rewards) || negb (len addrs =? len votingPowers)
         || negb (len addrs =? len weights)
      then Returns None
      else
        vals ← initValidators addrs 0 rewards votingPowers weights;
        let vals := sortValidators vals in
        let valSet := mkCouncil committeeSize vals None [] 0 None 0 in
        let valSet :=
          if 0 <? Size valSet then setProposer valSet (GetByIndex valSet 0) else valSet in
        Returns (Some (mkCouncil committeeSize vals (proposer valSet) vals
                                 proposersBlockNum None blockNum))
  | _ => Returns None
  end.

(** The data of a council that a snapshot stores. The type assertion of a
    validator to the weighted validator and [proposer.Address()] panic on a
    nil handle. *)
Definition GetWeightedCouncilData (valSet : weightedCouncil)
  : result (list Address * list Address * list Z * list Z * list Address * Z) :=
  '(vals, rewardAddrs, votingPowers, weights) ←
    forRange (List valSet) (fun val '(vals, rewardAddrs, votingPowers, weights) =>
      match val with
      | None =>
          Panics "interface conversion: istanbul.Validator is nil, not *validator.weightedValidator"
      | Some weightedVal =>
          Returns (vals ++ [address weightedVal], rewardAddrs ++ [rewardAddress weightedVal],
                   votingPowers ++ [votingPower weightedVal], weights ++ [weight weightedVal])
      end) ([], [], [], []);
  proposers ← forRange (proposers valSet) (fun proposer (ps : list Address) =>
    a ← Address_of proposer;
    Returns (ps ++ [a])) [];
  Returns (vals, rewardAddrs, votingPowers, weights, proposers, proposersBlockNum valSet).

Section CouncilCallers.

Variable CalcProposerBlockNumber : Z -> Z.
Variable randIntn : Z -> Z -> Z -> Z.

(** [CheckInSubList]: is the address in the committee of the current
    proposer? *)
Definition CheckInSubList (fuel : nat) (valSet : weightedCouncil) (prevHash : Hash)
    (round : Z) (addr : Address) : result bool :=
  committee ← SubList CalcProposerBlockNumber randIntn fuel valSet prevHash round;
  forRange committee (fun val found =>
    if (found : bool) then Returns true
    else a ← Address_of val; Returns (a =? addr)) false.

End CouncilCallers.

(** ** stateObject (blockchain/state/state_object.go) *)

#[global] Instance byte_eq_dec : EqDecision byte := Byte.byte_eq_dec.
#[global] Instance byte_countable : Countable byte :=
  inj_countable Byte.to_N Byte.of_N Byte.of_to_N.

(** [common.Hash{}] *)
Definition zeroHash : Hash := replicate HashLength Byte.x00.

(** [Hash.SetBytes]: the bytes go to the right end; only the last
    [HashLength] of a longer string are kept. *)
Definition SetBytes (b : list byte) : Hash :=
  let b := drop (length b - HashLength)%nat b in
  replicate (HashLength - length b)%nat Byte.x00 ++ b.

(** [type Storage map[common.Hash]common.Hash] *)
Abbreviation Storage := (gmap Hash Hash).

(** [Storage.Copy]: a new map with the same entries. *)
Definition Storage_Copy (self : Storage) : Storage :=
  map_fold (fun key value cpy => <[key := value]> cpy) ∅ self.

Definition Error := string.

(** Modelled from the spec: [account.Account] of the account package, with a
    balance, a nonce and, for a program account, a code hash and a storage
    root. *)
Record ProgramAccount : Type := mkProgramAccount {
  codeHash : list byte;
  storageRoot : Hash
}.

Record Account : Type := mkAccount {
  balance : Z;
  nonce : Z;
  program : option ProgramAccount
}.

Definition GetProgramAccount (a : Account) : option ProgramAccount := program a.
Definition GetBalance (a : Account) : Z := balance a.
Definition Account_SetBalance (a : Account) (amount : Z) : Account :=
  mkAccount amount (nonce a) (program a).
Definition Account_DeepCopy (a : Account) : Account := a.

(** The journal of the enclosing [StateDB]. *)
Inductive journalEntry : Type :=
| touchChange (account : Address)
| balanceChange (account : Address) (prev : Z)
| nonceChange (account : Address) (prev : Z)
| storageChange (account : Address) (key prevalue : Hash)
| codeChange (account : Address) (prevhash prevcode : list byte).

Record journal : Type := mkJournal {
  entries : list journalEntry;
  dirties : gset Address
}.

(** Modelled from the spec: [journal.append] and [journal.dirty] of the state
    package; an entry is appended, an address is added to the dirty set. *)
Definition journal_append (j : journal) (e : journalEntry) : journal :=
  mkJournal (entries j ++ [e]) (dirties j).

Definition journal_dirty (j : journal) (a : Address) : journal :=
  mkJournal (entries j) ({[a]} ∪ dirties j).

(** The address of the RIPEMD precompile. *)
Definition ripemd : Address := 3.

Section StateObject.

(** The storage trie and its database, by contract. *)
Context {Trie : Type}.
Variable TryGet : Trie -> Hash -> list byte * option Error.
Variable OpenStorageTrie : Hash -> Trie * option Error.
Variable CopyTrie : Trie -> Trie.

(** [rlp.Split]: the content of the first value of an encoding. *)
Variable rlpSplit : list byte -> list byte * option Error.

(** [account.Account.Empty]. *)
Variable accountEmpty : Account -> bool.

Record stateObject : Type := mkStateObject {
  so_address : Address;
  account : Account;
  dbErr : option Error;
  storageTrie : option Trie;
  code : option (list byte);
  cachedStorage : Storage;
  dirtyStorage : Storage;
  dirtyCode : bool;
  suicided : bool;
  deleted : bool
}.

Definition empty (s : stateObject) : bool := accountEmpty (account s).

Definition newObject (a : Address) (data : Account) : stateObject :=
  mkStateObject a data None None None ∅ ∅ false false false.

Definition withAccount (s : stateObject) (a : Account) : stateObject :=
  mkStateObject (so_address s) a (dbErr s) (storageTrie s) (code s)
                (cachedStorage s) (dirtyStorage s) (dirtyCode s) (suicided s) (deleted s).

Definition withDbErr (s : stateObject) (e : option Error) : stateObject :=
  mkStateObject (so_address s) (account s) e (storageTrie s) (code s)
                (cachedStorage s) (dirtyStorage s) (dirtyCode s) (suicided s) (deleted s).

Definition withStorageTrie (s : stateObject) (t : option Trie) : stateObject :=
  mkStateObject (so_address s) (account s) (dbErr s) t (code s)
                (cachedStorage s) (dirtyStorage s) (dirtyCode s) (suicided s) (deleted s).

Definition withCachedStorage (s : stateObject) (m : Storage) : stateObject :=
  mkStateObject (so_address s) (account s) (dbErr s) (storageTrie s) (code s)
                m (dirtyStorage s) (dirtyCode s) (suicided s) (deleted s).

Definition withDirtyStorage (s : stateObject) (m : Storage) : stateObject :=
  mkStateObject (so_address s) (account s) (dbErr s) (storageTrie s) (code s)
                (cachedStorage s) m (dirtyCode s) (suicided s) (deleted s).

(** [setError] remembers the first non-nil error it is called with. *)
Definition setError (self : stateObject) (err : option Error) : stateObject :=
  match dbErr self with
  | None => withDbErr self err
  | Some _ => self
  end.

Definition touch (c : stateObject) (j : journal) : journal :=
  let j := journal_append j (touchChange (so_address c)) in
  if so_address c =? ripemd then journal_dirty j (so_address c) else j.

Definition getStorageTrie (c : stateObject) : Trie * stateObject :=
  match storageTrie c with
  | Some t => (t, c)
  | None =>
      match GetProgramAccount (account c) with
      | Some acc =>
          let '(t, err) := OpenStorageTrie (storageRoot acc) in
          match err with
          | Some e =>
              let '(t, _) := OpenStorageTrie zeroHash in
              let c := withStorageTrie c (Some t) in
              (t, setError c (Some ("can't create storage trie: " ++ e)%string))
          | None => (t, withStorageTrie c (Some t))
          end
      | None =>
          let '(t, _) := OpenStorageTrie zeroHash in
          (t, withStorageTrie c (Some t))
      end
  end.

Definition GetState (self : stateObject) (key : Hash) : Hash * stateObject :=
  match cachedStorage self !! key with
  | Some value => (value, self)
  | None =>
      let '(tr, self) := getStorageTrie self in
      let '(enc, err) := TryGet tr key in
      match err with
      | Some e => (zeroHash, setError self (Some e))
      | None =>
          let '(value, self) :=
            if 0 <? len enc then
              let '(content, err) := rlpSplit enc in
              (SetBytes content,
               match err with Some e => setError self (Some e) | None => self end)
            else (zeroHash, self) in
          (value, withCachedStorage self (<[key := value]> (cachedStorage self)))
      end
  end.

Definition setState (self : stateObject) (key value : Hash) : stateObject :=
  let self := withCachedStorage self (<[key := value]> (cachedStorage self)) in
  withDirtyStorage self (<[key := value]> (dirtyStorage self)).

Definition SetState (self : stateObject) (j : journal) (key value : Hash)
  : stateObject * journal :=
  let '(prevalue, self) := GetState self key in
  let j := journal_append j (storageChange (so_address self) key prevalue) in
  (setState self key value, j).

Definition Balance (self : stateObject) : Z := GetBalance (account self).

Definition setBalance (self : stateObject) (amount : Z) : stateObject :=
  withAccount self (Account_SetBalance (account self) amount).

Definition SetBalance (self : stateObject) (j : journal) (amount : Z)
  : stateObject * journal :=
  let j := journal_append j (balanceChange (so_address self) (GetBalance (account self))) in
  (setBalance self amount, j).

(** [amount.Sign() == 0] is [amount =? 0]. *)
Definition AddBalance (c : stateObject) (j : journal) (amount : Z) : stateObject * journal :=
  if amount =? 0 then
    if empty c then (c, touch c j) else (c, j)
  else SetBalance c j (Balance c + amount).

Definition SubBalance (c : stateObject) (j : journal) (amount : Z) : stateObject * journal :=
  if amount =? 0 then (c, j)
  else SetBalance c j (Balance c - amount).

Definition deepCopy (self : stateObject) : stateObject :=
  let stateObject := newObject (so_address self) (Account_DeepCopy (account self)) in
  let stateObject :=
    match storageTrie self with
    | Some t => withStorageTrie stateObject (Some (CopyTrie t))
    | None => stateObject
    end in
  mkStateObject (so_address stateObject) (account stateObject) (dbErr stateObject)
                (storageTrie stateObject) (code self)
                (Storage_Copy (dirtyStorage self)) (Storage_Copy (dirtyStorage self))
                (dirtyCode self) (suicided self) (deleted self).

End StateObject.

Arguments stateObject Trie : clear implicits.

(** *** Nonce, code and the flush of the storage *)

(** Modelled from the spec: the nonce, code hash and storage root accessors
    of [account.Account] and [account.ProgramAccount]. *)
Definition GetNonce (a : Account) : Z := nonce a.
Definition Account_SetNonce (a : Account) (n : Z) : Account :=
  mkAccount (balance a) n (program a).
Definition Account_SetCodeHash (a : Account) (acc : ProgramAccount) (h : list byte)
  : Account :=
  mkAccount (balance a) (nonce a) (Some (mkProgramAccount h (storageRoot acc))).
Definition Account_SetStorageRoot (a : Account) (acc : ProgramAccount) (root : Hash)
  : Account :=
  mkAccount (balance a) (nonce a) (Some (mkProgramAccount (codeHash acc) root)).

(** [kerrors.ErrNotProgramAccount] *)
Definition ErrNotProgramAccount : Error := "not a program account".

(** [bytes.TrimLeft(b, "\x00")] *)
Fixpoint TrimLeftZeros (b : list byte) : list byte :=
  match b with
  | x :: rest => if bool_decide (x = Byte.x00) then TrimLeftZeros rest else b
  | [] => []
  end.

Section StateObjectStore.

Context {Trie : Type}.
Variable TryGet : Trie -> Hash -> list byte * option Error.
Variable OpenStorageTrie : Hash -> Trie * option Error.
Variable rlpSplit : list byte -> list byte * option Error.

(** [Trie.TryUpdate] and [Trie.TryDelete] change the trie in place; here
    they give the changed trie. [Trie.Commit] gives the root. *)
Variable TryUpdate : Trie -> Hash -> list byte -> Trie * option Error.
Variable TryDelete : Trie -> Hash -> Trie * option Error.
Variable TrieCommit : Trie -> Hash * option Error.

(** [rlp.EncodeToBytes] of a byte string, which cannot fail. *)
Variable rlpEncode : list byte -> list byte.

(** [Database.ContractCode]; the code [None] is the nil slice. *)
Variable ContractCode : Hash -> option (list byte) * option Error.

(** [emptyCodeHash], the hash of the empty code. *)
Variable emptyCodeHash : list byte.

Definition markSuicided (self : stateObject Trie) : stateObject Trie :=
  mkStateObject (so_address self) (account self) (dbErr self) (storageTrie self) (code self)
                (cachedStorage self) (dirtyStorage self) (dirtyCode self) true (deleted self).

Definition IsProgramAccount (self : stateObject Trie) : bool :=
  bool_decide (is_Some (GetProgramAccount (account self))).

Definition CodeHash (self : stateObject Trie) : list byte :=
  match GetProgramAccount (account self) with
  | Some acc => codeHash acc
  | None => emptyCodeHash
  end.

Definition IsContractAccount (self : stateObject Trie) : bool :=
  match GetProgramAccount (account self) with
  | Some acc => negb (bool_decide (codeHash acc = emptyCodeHash))
  | None => false
  end.

Definition withCode (self : stateObject Trie) (c : option (list byte)) : stateObject Trie :=
  mkStateObject (so_address self) (account self) (dbErr self) (storageTrie self) c
                (cachedStorage self) (dirtyStorage self) (dirtyCode self) (suicided self)
                (deleted self).

(** [Code]: the code of the object, loaded from the database on the first
    call. *)
Definition Code (self : stateObject Trie) : option (list byte) * stateObject Trie :=
  match code self with
  | Some c => (Some c, self)
  | None =>
      if bool_decide (CodeHash self = emptyCodeHash) then (None, self)
      else
        let '(c, err) := ContractCode (SetBytes (CodeHash self)) in
        let self :=
          match err with
          | Some e =>
              setError self (Some ("can't load code hash " ++ hexEncode (CodeHash self)
                                   ++ ": " ++ e)%string)
          | None => self
          end in
        (c, withCode self c)
  end.

Definition setCode (self : stateObject Trie) (h : Hash) (c : option (list byte))
  : stateObject Trie * option Error :=
  match GetProgramAccount (account self) with
  | None => (self, Some ErrNotProgramAccount)
  | Some acc =>
      (mkStateObject (so_address self) (Account_SetCodeHash (account self) acc h)
                     (dbErr self) (storageTrie self) c
                     (cachedStorage self) (dirtyStorage self) true (suicided self)
                     (deleted self), None)
  end.

(** The journal entry holds the bytes of the previous code, none for the
    nil slice. *)
Definition SetCode (self : stateObject Trie) (j : journal) (h : Hash)
    (c : option (list byte)) : stateObject Trie * journal * option Error :=
  let '(prevcode, self) := Code self in
  let j := journal_append j (codeChange (so_address self) (CodeHash self)
                                        (default [] prevcode)) in
  let '(self, err) := setCode self h c in
  (self, j, err).

Definition Nonce (self : stateObject Trie) : Z := GetNonce (account self).

Definition setNonce (self : stateObject Trie) (n : Z) : stateObject Trie :=
  withAccount self (Account_SetNonce (account self) n).

Definition SetNonce (self : stateObject Trie) (j : journal) (n : Z)
  : stateObject Trie * journal :=
  let j := journal_append j (nonceChange (so_address self) (GetNonce (account self))) in
  (setNonce self n, j).

(** The nonce is a uint64. *)
Definition IncNonce (self : stateObject Trie) (j : journal) : stateObject Trie * journal :=
  let nonce := GetNonce (account self) in
  let j := journal_append j (nonceChange (so_address self) nonce) in
  (setNonce self (wrap64 (nonce + 1)), j).

(** [updateStorageTrie]. The range statement visits the entries of
    [dirtyStorage] in an order that the language leaves open: [order] is the
    order of one run. The trie that is updated is the one the object holds. *)
Definition updateStorageTrie (order : list (Hash * Hash)) (self : stateObject Trie)
  : Trie * stateObject Trie :=
  foldl (fun '(tr, self) '(key, value) =>
    let self := withDirtyStorage self (delete key (dirtyStorage self)) in
    if bool_decide (value = zeroHash) then
      let '(tr, err) := TryDelete tr key in
      (tr, setError (withStorageTrie self (Some tr)) err)
    else
      let v := rlpEncode (TrimLeftZeros value) in
      let '(tr, err) := TryUpdate tr key v in
      (tr, setError (withStorageTrie self (Some tr)) err))
    (getStorageTrie OpenStorageTrie self) order.

(** [CommitStorageTrie] returns the error, [None] for nil. *)
Definition CommitStorageTrie (order : list (Hash * Hash)) (self : stateObject Trie)
  : stateObject Trie * option Error :=
  let '(tr, self) := updateStorageTrie order self in
  match dbErr self with
  | Some e => (self, Some e)
  | None =>
      match GetProgramAccount (account self) with
      | Some acc =>
          let '(root, err) := TrieCommit tr in
          match err with
          | Some e => (self, Some e)
          | None => (withAccount self (Account_SetStorageRoot (account self) acc root), None)
          end
      | None => (self, None)
      end
  end.

End StateObjectStore.

(** ** Vocabulary of the properties *)

(** The hex digits of a byte string, high nibble first. *)
Definition nibbles (bs : list byte) : list Z :=
  flat_map (fun b => let n := Z.of_N (Byte.to_N b) in [Z.shiftr n 4; Z.land n 15]) bs.

Definition digitsString (ds : list Z) : string :=
  fold_right (fun d s => String (hexDigit d) s) EmptyString ds.

Definition digitsValue (ds : list Z) (acc : Z) : Z :=
  fold_left (fun a d => a * 16 + d) ds acc.

Definition isNibble (d : Z) : Prop := 0 <= d < 16.

(** Invariant 3: every element of [proposers] is a member of [validators]. *)
Definition proposersAreValidators (valSet : weightedCouncil) : Prop :=
  forall p : Validator, p ∈ proposers valSet -> p ∈ validators valSet.

(** The candidates for the seats after the first two: every index but the
    two taken, in order. *)
Definition otherIndexes (n0 n1 limit : Z) : list Z :=
  filter (fun i => i <> n0 /\ i <> n1) (seqZ 0 limit).

Section Vocabulary.

Variable CalcProposerBlockNumber : Z -> Z.
Variable randIntn : Z -> Z -> Z -> Z.
Variable uint64Unrepresentable : float -> Z.

(** The index that [weightedRandomProposer] reads for round
    [round + nextProposerIdx]. *)
Definition pickOf (valSet : weightedCouncil) (round idx : Z) : Z :=
  wrap64 (wrap64 (blockNum valSet + wrap64 (round + idx))
          - CalcProposerBlockNumber (wrap64 (blockNum valSet + 1)))
    mod len (proposers valSet).

(** [picker.Intn(n)] returns a number in [[0, n)]. *)
Definition IntnInRange : Prop :=
  forall seed draws n, 0 < n -> 0 <= randIntn seed draws n < n.

(** [uint64(math.Round(stake * 100 / total))] *)
Definition roundedShare (stake total : float) : Z :=
  uint64OfFloat64 uint64Unrepresentable (Round (stake * 100 / total)%float).

Definition flooredWeight (stake total : float) : Z :=
  if roundedShare stake total <=? 0 then 1 else roundedShare stake total.

End Vocabulary.

Section StateVocabulary.

Context {Trie : Type}.
Variable TryGet : Trie -> Hash -> list byte * option Error.
Variable rlpSplit : list byte -> list byte * option Error.

(** What the trie holds for a key, decoded as [GetState] decodes it. *)
Definition trieValue (tr : Trie) (key : Hash) : Hash :=
  match TryGet tr key with
  | (_, Some _) => zeroHash
  | (enc, None) => if 0 <? len enc then SetBytes (fst (rlpSplit enc)) else zeroHash
  end.

End StateVocabulary.

(** ** Sample data *)

(** The hash 0x00..01. *)
Definition hashOne : Hash := repeat Byte.x00 31 ++ [Byte.x01].

Definition valA : weightedValidator := mkValidator 10 0 1000 0.
Definition valB : weightedValidator := mkValidator 20 0 1000 0.
Definition valC : weightedValidator := mkValidator 30 0 1000 0.
Definition valD : weightedValidator := mkValidator 40 0 1000 0.

Definition noUint64 (_ : float) : Z := 0.

(** Modelled from the spec: [params.CalcProposerBlockNumber], the largest
    multiple of the proposer update interval (here 3600) not exceeding
    [n - 1]. *)
Definition sampleCalcProposerBlockNumber (n : Z) : Z := (n - 1) / 3600 * 3600.

Definition sampleIntn (seed draws n : Z) : Z := (seed + draws) mod n.
Definition noStakingInfo (_ : Z) : option StakingInfo := None.
Definition samplePow (x _ : float) : float := x.
Definition sampleGini (_ : list float) : float := 0%float.

Definition councilAB : weightedCouncil :=
  mkCouncil 2 [Some valA; Some valB] (Some valA) [Some valA; Some valB] 0 None 0.

(** Four validators, three seats; the proposers are the validators. *)
Definition councilABCD : weightedCouncil :=
  mkCouncil 3 [Some valA; Some valB; Some valC; Some valD] (Some valA)
            [Some valA; Some valB; Some valC; Some valD] 0 None 0.

(** A council of A alone, with two seats. *)
Definition councilA : weightedCouncil :=
  mkCouncil 2 [Some valA] (Some valA) [Some valA] 0 None 0.

(** What [councilA] is after B and C were added and before the next
    [Refresh]: three validators, and a proposer sequence that only holds A. *)
Definition councilOnlyA : weightedCouncil :=
  mkCouncil 2 [Some valA; Some valB; Some valC] (Some valA) [Some valA] 0 None 0.

(** An account is empty when its nonce and balance are 0 and it has no code. *)
Definition sampleEmpty (a : Account) : bool :=
  (nonce a =? 0) && (balance a =? 0) && negb (bool_decide (is_Some (program a))).

Definition richAccount : Account := mkAccount 7 1 None.
Definition blankAccount : Account := mkAccount 0 0 None.

Definition richObject : stateObject unit := newObject 5 richAccount.
Definition blankObject : stateObject unit := newObject 5 blankAccount.

Definition emptyJournal : journal := mkJournal [] ∅.

Definition keyOne : Hash := replicate 31 Byte.x00 ++ [Byte.x01].
Definition valueTwo : Hash := replicate 31 Byte.x00 ++ [Byte.x02].

(** An object that has read slot [keyOne] and written nothing. *)
Definition readOnlyObject : stateObject unit :=
  withCachedStorage richObject (<[keyOne := valueTwo]> ∅).

(** A trie that holds the byte [0x2a] for every key. *)
Definition sampleTryGet (_ : unit) (_ : Hash) : list byte * option Error :=
  ([Byte.x2a], None).
Definition sampleOpen (_ : Hash) : unit * option Error := (tt, None).
Definition sampleSplit (enc : list byte) : list byte * option Error := (enc, None).


(** [councilABCD] with one seat. *)
Definition councilOneSeat : weightedCouncil := SetSubGroupSize councilABCD 1.

(** A storage trie as the map of its content; it never fails. *)
Definition mapTrie : Type := gmap Hash (list byte).
Definition mapTryGet (tr : mapTrie) (k : Hash) : list byte * option Error :=
  (default [] (tr !! k), None).
Definition mapTryUpdate (tr : mapTrie) (k : Hash) (v : list byte) : mapTrie * option Error :=
  (<[k := v]> tr, None).
Definition mapTryDelete (tr : mapTrie) (k : Hash) : mapTrie * option Error :=
  (delete k tr, None).
Definition mapOpen (_ : Hash) : mapTrie * option Error := (∅, None).
Definition mapCopy (tr : mapTrie) : mapTrie := tr.
Definition mapCommit (_ : mapTrie) : Hash * option Error := (zeroHash, None).

(** An encoding with a one-byte header, and its decoding. *)
Definition headerEncode (b : list byte) : list byte := Byte.x80 :: b.
Definition headerSplit (enc : list byte) : list byte * option Error := (tail enc, None).

(** An object with one dirty slot, and an object that has met a database
    error. *)
Definition dirtyObject : stateObject mapTrie :=
  withDirtyStorage (newObject 5 richAccount) {[keyOne := valueTwo]}.
Definition failedObject : stateObject mapTrie :=
  withDbErr (newObject 5 richAccount) (Some "disk"%string).

Definition noCode (_ : Hash) : option (list byte) * option Error := (None, None).

(** A program account without code, and its object. *)
Definition contractAccount : Account := mkAccount 0 1 (Some (mkProgramAccount [] zeroHash)).
Definition contractObject : stateObject unit := newObject 6 contractAccount.

(** ** Vocabulary of the further properties *)

(** The validator that [AddValidator] creates. *)
Definition defaultValidator (a : Address) : weightedValidator := mkValidator a 0 1000 0.

(** The order of the validator list. *)
Definition byAddress (x y : weightedValidator) : Prop := address x <= address y.

Definition sumZ (l : list Z) : Z := foldr Z.add 0 l.

(** The validators made of four aligned slices. *)
Definition validatorsOf (addrs rewards : list Address) (votingPowers weights : list Z)
  : list weightedValidator :=
  zip_with (fun '(a, r) '(vp, w) => mkValidator a r vp w)
           (zip addrs rewards) (zip votingPowers weights).

(** The index of the proposer sequence that [weightedRandomProposer] reads
    for a round. *)
Definition pickAt (CalcProposerBlockNumber : Z -> Z) (valSet : weightedCouncil) (round : Z)
  : Z :=
  wrap64 (wrap64 (blockNum valSet + round)
          - CalcProposerBlockNumber (wrap64 (blockNum valSet + 1)))
    mod len (proposers valSet).

(** The index of the validator list that [chooseProposerByRoundRobin]
    reads. *)
Definition roundRobinPick (ws : list weightedValidator) (lastProposer : Address) (round : Z)
  : Z :=
  (if lastProposer =? 0 then round
   else wrap64 (match list_find (fun w => address w = lastProposer) ws with
                | Some (i, _) => Z.of_nat i
                | None => 0
                end + round)) mod len ws.

(** The proposer candidates of [refreshProposers]: every validator as many
    times as its weight says, or every validator once when that leaves
    none. *)
Definition weightedCandidates (ws : list weightedValidator) : list weightedValidator :=
  match flat_map (fun w => replicate (Z.to_nat (weight w)) w) ws with
  | [] => ws
  | cands => cands
  end.

(** The same candidates as indexes into the validator list, counted from
    [idx]. *)
Fixpoint candidateIndexes (ws : list weightedValidator) (idx : Z) : list Z :=
  match ws with
  | [] => []
  | w :: rest => replicate (Z.to_nat (weight w)) idx ++ candidateIndexes rest (idx + 1)
  end.


(** What one dirty entry does to the content of the storage trie when it is
    flushed: the zero value removes the slot, any other value is stored
    without its leading zero bytes, encoded. *)
Definition flushed (rlpEncode : list byte -> list byte) (m : gmap Hash (list byte))
    (kv : Hash * Hash) : gmap Hash (list byte) :=
  if bool_decide (kv.2 = zeroHash) then delete kv.1 m
  else <[kv.1 := rlpEncode (TrimLeftZeros kv.2)]> m.

(* ===================================================================== *)
(** * Part II: properties *)
(* ===================================================================== *)

(** ** Slices *)

Lemma index_of_nat {A} (s : list A) (n : nat) (x : A) :
  s !! n = Some x -> index s (Z.of_nat n) = Returns x.
Proof.
  intros H. unfold index.
  replace (Z.of_nat n <? 0) with false by (symmetry; apply Z.ltb_ge; lia).
  rewrite Nat2Z.id, H. reflexivity.
Qed.

Lemma assign_of_nat {A} (s : list A) (n : nat) (x : A) :
  (n < length s)%nat -> assign s (Z.of_nat n) x = Returns (<[n := x]> s).
Proof.
  intros H. unfold assign.
  replace (Z.of_nat n <? 0) with false by (symmetry; apply Z.ltb_ge; lia).
  replace (Z.of_nat (length s) <=? Z.of_nat n) with false by (symmetry; apply Z.leb_gt; lia).
  rewrite Nat2Z.id. reflexivity.
Qed.

Lemma drop_cons_inv {A} (s : list A) (i : nat) (x : A) (rest : list A) :
  drop i s = x :: rest -> drop (S i) s = rest.
Proof.
  revert s; induction i as [|i IH]; intros [|y s] H; cbn in *; try discriminate.
  - injection H as _ <-. apply drop_0.
  - apply IH, H.
Qed.

Lemma len_fmap {A B} (f : A -> B) (s : list A) : len (f <$> s) = len s.
Proof. unfold len. now rewrite length_fmap. Qed.

Lemma make_nonneg {A} (zero : A) (n : Z) :
  0 <= n -> make zero n = Returns (replicate (Z.to_nat n) zero).
Proof.
  intros Hn. unfold make. now replace (n <? 0) with false by (symmetry; apply Z.ltb_ge; lia).
Qed.

Lemma index_Returns {A} (s : list A) (i : Z) (x : A) :
  index s i = Returns x -> 0 <= i /\ s !! Z.to_nat i = Some x.
Proof.
  unfold index. destruct (Z.ltb_spec i 0); [discriminate|].
  destruct (s !! Z.to_nat i); [|discriminate]. intros [= ->]. auto.
Qed.

Lemma assign_Returns {A} (s s' : list A) (i : Z) (x : A) :
  assign s i x = Returns s' ->
  0 <= i < len s /\ s' = <[Z.to_nat i := x]> s.
Proof.
  unfold assign, len. destruct (Z.ltb_spec i 0); [discriminate|].
  destruct (Z.leb_spec (Z.of_nat (length s)) i); [discriminate|].
  cbn [orb]. intros [= <-]. split; [lia|reflexivity].
Qed.

Lemma assign_app_head {A} (done tl : list A) (x y : A) :
  assign (done ++ x :: tl) (len done) y = Returns (done ++ y :: tl).
Proof.
  unfold len. rewrite assign_of_nat by (rewrite length_app; cbn; lia).
  f_equal. replace (length done) with (length done + 0)%nat at 1 by lia.
  now rewrite insert_app_r.
Qed.

(** Exchanging two elements permutes the slice. *)
Lemma swap_Permutation {A} (xs : list A) (i j : Z) :
  0 <= i < len xs -> 0 <= j < len xs ->
  exists xs', swap xs i j = Returns xs' /\ xs' ≡ₚ xs.
Proof.
  unfold len. intros Hi Hj.
  destruct (lookup_lt_is_Some_2 xs (Z.to_nat i) ltac:(lia)) as [xi Hxi].
  destruct (lookup_lt_is_Some_2 xs (Z.to_nat j) ltac:(lia)) as [xj Hxj].
  exists (<[Z.to_nat j := xi]> (<[Z.to_nat i := xj]> xs)). split.
  - unfold swap.
    rewrite <- (Z2Nat.id j) at 1 by lia. rewrite (index_of_nat _ _ _ Hxj).
    cbn [mbind result_bind].
    rewrite <- (Z2Nat.id i) at 1 by lia. rewrite (index_of_nat _ _ _ Hxi).
    cbn [mbind result_bind].
    rewrite <- (Z2Nat.id i) at 1 by lia. rewrite assign_of_nat by lia.
    cbn [mbind result_bind].
    rewrite <- (Z2Nat.id j) at 1 by lia. rewrite assign_of_nat by (rewrite length_insert; lia).
    reflexivity.
  - apply Permutation_inj. split; [now rewrite !length_insert|].
    set (m := Z.to_nat i) in *. set (n := Z.to_nat j) in *.
    exists (fun k => if decide (k = n) then m else if decide (k = m) then n else k).
    split.
    + intros k1 k2. repeat case_decide; congruence.
    + intros k. destruct (decide (k = n)) as [->|Hkn].
      * rewrite list_lookup_insert_eq by (rewrite length_insert; lia). now rewrite Hxi.
      * rewrite list_lookup_insert_ne by congruence.
        destruct (decide (k = m)) as [->|Hkm].
        -- rewrite list_lookup_insert_eq by lia. now rewrite Hxj.
        -- now rewrite list_lookup_insert_ne by congruence.
Qed.

(** ** Loops *)

(** What holds before a loop and is kept by every iteration that returns,
    holds when the loop returns. *)
Lemma forLoop_invariant {St : Type} (P : Z -> St -> Prop) (body : Z -> St -> result St) :
  forall (count : nat) (i : Z) (s s' : St),
    P i s ->
    (forall j t t', i <= j < i + Z.of_nat count -> P j t -> body j t = Returns t' -> P (j + 1) t') ->
    forLoop count i body s = Returns s' ->
    P (i + Z.of_nat count) s'.
Proof.
  induction count as [|count IH]; intros i s s' Hs Hstep Hrun.
  - cbn in Hrun. injection Hrun as <-. now rewrite Z.add_0_r.
  - cbn [forLoop] in Hrun.
    destruct (body i s) as [t| |] eqn:Hb; try discriminate. cbn in Hrun.
    replace (i + Z.of_nat (S count)) with (i + 1 + Z.of_nat count) by lia.
    apply (IH (i + 1) t s'); [| |exact Hrun].
    + apply (Hstep i s t); [lia|assumption..].
    + intros j u u' Hj. apply Hstep. lia.
Qed.

(** A loop whose every iteration returns and keeps [P], returns and keeps [P]. *)
Lemma forLoop_total {St : Type} (P : Z -> St -> Prop) (body : Z -> St -> result St) :
  forall (count : nat) (i : Z) (s : St),
    P i s ->
    (forall j t, i <= j < i + Z.of_nat count -> P j t ->
                 exists t', body j t = Returns t' /\ P (j + 1) t') ->
    exists s', forLoop count i body s = Returns s' /\ P (i + Z.of_nat count) s'.
Proof.
  induction count as [|count IH]; intros i s Hs Hstep.
  - exists s. rewrite Z.add_0_r. auto.
  - destruct (Hstep i s ltac:(lia) Hs) as (t & Hb & Ht).
    destruct (IH (i + 1) t Ht) as (s' & Hrun & Hs').
    { intros j u Hj. apply Hstep. lia. }
    exists s'. cbn [forLoop]. rewrite Hb. cbn.
    replace (i + Z.of_nat (S count)) with (i + 1 + Z.of_nat count) by lia. auto.
Qed.

(** ** The shuffle seed *)

Lemma byte_range b : 0 <= Z.of_N (Byte.to_N b) < 256.
Proof.
  pose proof (Byte.to_N_bounded b) as Hb. lia.
Qed.

Lemma nibbles_are_nibbles bs : Forall isNibble (nibbles bs).
Proof.
  induction bs as [|b bs IH]; simpl; [constructor|].
  pose proof (byte_range b) as Hb.
  repeat constructor; try assumption.
  - apply Z.shiftr_nonneg; lia.
  - rewrite Z.shiftr_div_pow2 by lia. apply Z.div_lt_upper_bound; lia.
  - apply Z.land_nonneg; lia.
  - change 15 with (Z.ones 4). rewrite Z.land_ones by lia.
    apply Z.mod_pos_bound; lia.
Qed.

Lemma length_nibbles bs : length (nibbles bs) = (2 * length bs)%nat.
Proof. induction bs; simpl; lia. Qed.

Lemma hexEncode_digits bs : hexEncode bs = digitsString (nibbles bs).
Proof. induction bs as [|b bs IH]; simpl; [reflexivity|]. now rewrite IH. Qed.

Lemma length_digitsString ds : String.length (digitsString ds) = length ds.
Proof. induction ds; simpl; congruence. Qed.

Lemma sliceTo_digits n ds : sliceTo n (digitsString ds) = digitsString (take n ds).
Proof.
  revert ds; induction n as [|n IH]; intros [|d ds]; simpl; try reflexivity.
  now rewrite IH.
Qed.

Lemma digitVal_hexDigit d : isNibble d -> digitVal (hexDigit d) = Some d.
Proof.
  intros [H0 H16].
  assert (Hc : d = 0 \/ d = 1 \/ d = 2 \/ d = 3 \/ d = 4 \/ d = 5 \/ d = 6 \/ d = 7 \/
               d = 8 \/ d = 9 \/ d = 10 \/ d = 11 \/ d = 12 \/ d = 13 \/ d = 14 \/ d = 15)
    by lia.
  repeat (destruct Hc as [->|Hc]; [reflexivity|]). now subst.
Qed.

Lemma hexDigit_not_sign d :
  Ascii.eqb (hexDigit d) "+" = false /\ Ascii.eqb (hexDigit d) "-" = false.
Proof.
  unfold hexDigit.
  repeat (match goal with |- context [match ?x with _ => _ end] => destruct x end;
          try (split; reflexivity)).
Qed.

Lemma digitsValue_mono ds : forall acc, 0 <= acc -> Forall isNibble ds -> acc <= digitsValue ds acc.
Proof.
  induction ds as [|d ds IH]; intros acc Hacc Hds; [unfold digitsValue; simpl; lia|].
  inversion Hds as [|? ? [Hd0 Hd16] Hds']; subst.
  specialize (IH (acc * 16 + d) ltac:(lia) Hds').
  unfold digitsValue in *. cbn [fold_left]. lia.
Qed.

Lemma digitsValue_acc ds : forall acc,
  digitsValue ds acc = acc * 16 ^ Z.of_nat (length ds) + digitsValue ds 0.
Proof.
  induction ds as [|d ds IH]; intros acc.
  - simpl. lia.
  - cbn [digitsValue fold_left length]. fold (digitsValue ds (acc * 16 + d)).
    fold (digitsValue ds (0 * 16 + d)).
    rewrite (IH (acc * 16 + d)), (IH (0 * 16 + d)).
    rewrite Nat2Z.inj_succ, Z.pow_succ_r by lia. lia.
Qed.

Lemma digitsValue_bound ds :
  Forall isNibble ds -> 0 <= digitsValue ds 0 < 16 ^ Z.of_nat (length ds).
Proof.
  induction ds as [|d ds IH] using rev_ind; intros Hds.
  - simpl. lia.
  - apply Forall_app in Hds as [Hds Hd]. inversion Hd as [|? ? [Hd0 Hd16] _]; subst.
    specialize (IH Hds). unfold digitsValue in *. rewrite fold_left_app. simpl.
    rewrite length_app. simpl length.
    replace (Z.of_nat (length ds + 1)) with (Z.succ (Z.of_nat (length ds))) by lia.
    rewrite Z.pow_succ_r by lia. lia.
Qed.

Lemma digitsValue_app l1 l2 acc :
  digitsValue (l1 ++ l2) acc = digitsValue l2 (digitsValue l1 acc).
Proof. unfold digitsValue. apply fold_left_app. Qed.

(** The digit loop reads a digit string back, as long as the value fits. *)
Lemma parseDigits_digits ds : forall acc,
  0 <= acc -> Forall isNibble ds -> digitsValue ds acc < 2 ^ 64 ->
  parseDigits 16 64 (digitsString ds) acc = inl (digitsValue ds acc).
Proof.
  induction ds as [|d ds IH]; intros acc Hacc Hds Hfit; [reflexivity|].
  inversion Hds as [|? ? Hd Hds']; subst.
  cbn [digitsString fold_right parseDigits].
  rewrite (digitVal_hexDigit d Hd).
  destruct Hd as [Hd0 Hd16].
  replace (16 <=? d) with false by (symmetry; apply Z.leb_gt; lia).
  assert (Hstep : acc * 16 + d <= digitsValue ds (acc * 16 + d))
    by (apply digitsValue_mono; [lia | assumption]).
  cbn [digitsValue fold_left] in Hfit. fold (digitsValue ds (acc * 16 + d)) in Hfit.
  replace (2 ^ 64 <=? acc * 16 + d) with false by (symmetry; apply Z.leb_gt; lia).
  fold (digitsString ds). rewrite IH by (assumption || lia). reflexivity.
Qed.

Lemma ParseInt_digits ds :
  ds <> [] -> Forall isNibble ds -> digitsValue ds 0 < 2 ^ 63 ->
  ParseInt (digitsString ds) 16 64 = inl (digitsValue ds 0).
Proof.
  intros Hne Hds Hfit. destruct ds as [|d ds]; [congruence|].
  unfold ParseInt. cbn [digitsString fold_right].
  destruct (hexDigit_not_sign d) as [-> ->].
  unfold ParseUint.
  change (String (hexDigit d) (fold_right (fun d s => String (hexDigit d) s) EmptyString ds))
    with (digitsString (d :: ds)).
  change (match digitsString (d :: ds) with
          | EmptyString => inr ErrSyntax
          | String _ _ => parseDigits 16 64 (digitsString (d :: ds)) 0
          end) with (parseDigits 16 64 (digitsString (d :: ds)) 0).
  rewrite parseDigits_digits by (assumption || lia).
  cbn [negb andb].
  replace (2 ^ (64 - 1) <=? digitsValue (d :: ds) 0) with false
    by (symmetry; apply Z.leb_gt; exact Hfit).
  reflexivity.
Qed.

Lemma bigOfBytes_digits bs : forall acc,
  fold_left (fun a b => a * 256 + Z.of_N (Byte.to_N b)) bs acc = digitsValue (nibbles bs) acc.
Proof.
  induction bs as [|b bs IH]; intros acc; [reflexivity|].
  cbn [fold_left nibbles flat_map app]. rewrite IH.
  unfold digitsValue at 2. cbn [fold_left]. fold (nibbles bs).
  fold (digitsValue (nibbles bs)).
  f_equal.
  pose proof (byte_range b) as Hb. set (n := Z.of_N (Byte.to_N b)) in *.
  rewrite Z.shiftr_div_pow2 by lia. change 15 with (Z.ones 4).
  rewrite Z.land_ones by lia. change (2 ^ 4) with 16.
  pose proof (Z.div_mod n 16 ltac:(lia)). lia.
Qed.

(** The hex string of a 32-byte hash has 64 digits; its first 15 are the
    digits of the 60 highest bits. *)
Lemma parseSeed_digits (h : Hash) :
  length h = HashLength ->
  parseSeed h = inl (digitsValue (take 15 (nibbles h)) 0).
Proof.
  intros Hlen. unfold parseSeed, Hex, TrimPrefix. cbn [stripPrefix Ascii.eqb Bool.eqb].
  rewrite hexEncode_digits, length_digitsString,
    length_nibbles, Hlen.
  cbn [HashLength Nat.mul Nat.add Z.of_nat Z.ltb Z.compare Pos.of_succ_nat Pos.succ
       Pos.compare Pos.compare_cont].
  rewrite sliceTo_digits.
  assert (Hn : Forall isNibble (take 15 (nibbles h)))
    by (apply Forall_take, nibbles_are_nibbles).
  assert (Hl : length (take 15 (nibbles h)) = 15%nat)
    by (rewrite length_take, length_nibbles, Hlen; reflexivity).
  apply ParseInt_digits; [|assumption|].
  - intros E. rewrite E in Hl. discriminate.
  - pose proof (digitsValue_bound _ Hn) as Hb. rewrite Hl in Hb. lia.
Qed.

Lemma bigOfBytes_high_digits (h : Hash) :
  length h = HashLength ->
  Z.shiftr (bigOfBytes h) 196 = digitsValue (take 15 (nibbles h)) 0.
Proof.
  intros Hlen. unfold bigOfBytes. rewrite bigOfBytes_digits.
  rewrite <- (take_drop 15 (nibbles h)) at 1.
  rewrite digitsValue_app, digitsValue_acc.
  assert (Hl : length (drop 15 (nibbles h)) = 49%nat)
    by (rewrite length_drop, length_nibbles, Hlen; reflexivity).
  assert (Hn : Forall isNibble (drop 15 (nibbles h)))
    by (apply Forall_drop, nibbles_are_nibbles).
  pose proof (digitsValue_bound _ Hn) as Hb. rewrite Hl in *.
  rewrite Z.shiftr_div_pow2 by lia.
  change (16 ^ Z.of_nat 49) with (2 ^ 196) in *.
  symmetry. apply Z.div_unique with (r := digitsValue (drop 15 (nibbles h)) 0);
    lia.
Qed.

(** The seed of a 32-byte hash. *)
Lemma parseSeed_of_hash (h : Hash) :
  length h = HashLength -> parseSeed h = inl (Z.shiftr (bigOfBytes h) 196).
Proof.
  intros Hlen. rewrite bigOfBytes_high_digits by assumption. now apply parseSeed_digits.
Qed.

(** C1 (amended): the seed of both shuffles is the number made of the 60
    HIGHEST bits of the hash (the first 15 hex digits of its hex string are
    its most significant ones), and it lies in [0, 2^60). *)
Theorem parseSeed_is_high_60_bits (h : Hash) :
  length h = HashLength ->
  parseSeed h = inl (Z.shiftr (bigOfBytes h) 196) /\
  0 <= Z.shiftr (bigOfBytes h) 196 < 2 ^ 60.
Proof.
  intros Hlen. rewrite bigOfBytes_high_digits by assumption. split.
  - now apply parseSeed_digits.
  - assert (Hn : Forall isNibble (take 15 (nibbles h)))
      by (apply Forall_take, nibbles_are_nibbles).
    pose proof (digitsValue_bound _ Hn) as Hb.
    rewrite length_take, length_nibbles, Hlen in Hb. exact Hb.
Qed.



Lemma parseSeed_is_high_60_bits_witness :
  length hashOne = HashLength /\
  parseSeed hashOne = inl (Z.shiftr (bigOfBytes hashOne) 196).
Proof.
  split; [reflexivity|].
  apply (parseSeed_is_high_60_bits hashOne). reflexivity.
Defined.

(** C1 as stated fails: for the hash 0x00..01 the low 60 bits are 1, the
    seed is 0. *)
Lemma parseSeed_not_low_60_bits :
  length hashOne = HashLength /\
  Z.land (bigOfBytes hashOne) (Z.ones 60) = 1 /\
  parseSeed hashOne = inl 0 /\
  parseSeed hashOne <> inl (Z.land (bigOfBytes hashOne) (Z.ones 60)).
Proof.
  repeat split; try (vm_compute; reflexivity).
  vm_compute. discriminate.
Qed.

(** ** State object *)

Lemma Storage_Copy_eq (m : Storage) : Storage_Copy m = m.
Proof.
  unfold Storage_Copy.
  apply (map_fold_weak_ind (fun (r : Storage) (m : Storage) => r = m)).
  - reflexivity.
  - intros k v m' r _ ->. reflexivity.
Qed.

Section StateObjectFacts.

Context {Trie : Type}.
Variable TryGet : Trie -> Hash -> list byte * option Error.
Variable OpenStorageTrie : Hash -> Trie * option Error.
Variable CopyTrie : Trie -> Trie.
Variable rlpSplit : list byte -> list byte * option Error.
Variable accountEmpty : Account -> bool.

(** C9 (amended): with a zero amount, [AddBalance] and [SubBalance] leave the
    object (and so its balance) as it is and append no balance change;
    [AddBalance] appends a touch entry exactly when the account is empty, and
    [SubBalance] appends nothing at all. *)
Theorem zero_amount_balance_ops (c : stateObject Trie) (j : journal) :
  AddBalance accountEmpty c j 0 =
    (c, if empty accountEmpty c then touch c j else j) /\
  (empty accountEmpty c = true ->
     entries (snd (AddBalance accountEmpty c j 0)) = entries j ++ [touchChange (so_address c)]) /\
  (empty accountEmpty c = false -> snd (AddBalance accountEmpty c j 0) = j) /\
  SubBalance c j 0 = (c, j).
Proof.
  unfold AddBalance, SubBalance. cbn [Z.eqb].
  repeat split.
  - destruct (empty accountEmpty c); reflexivity.
  - intros ->. cbn [snd]. unfold touch. destruct (so_address c =? ripemd); reflexivity.
  - intros ->. reflexivity.
Qed.


Lemma GetState_miss (s : stateObject Trie) (key : Hash) :
  cachedStorage s !! key = None ->
  fst (GetState TryGet OpenStorageTrie rlpSplit s key) =
    trieValue TryGet rlpSplit (fst (getStorageTrie OpenStorageTrie s)) key.
Proof.
  intros Hmiss. unfold GetState, trieValue. rewrite Hmiss.
  destruct (getStorageTrie OpenStorageTrie s) as [tr s']. cbn [fst].
  destruct (TryGet tr key) as [enc [e|]]; [reflexivity|].
  destruct (0 <? len enc); [|reflexivity].
  destruct (rlpSplit enc) as [content err]. reflexivity.
Qed.

(** C10: the copy has the dirty storage of the source, and its read cache is
    the dirty storage too; a slot that the source holds only in its read cache
    is not in the cache of the copy, whose [GetState] reads it from the trie. *)
Theorem deepCopy_storage (s : stateObject Trie) :
  dirtyStorage (deepCopy CopyTrie s) = dirtyStorage s /\
  cachedStorage (deepCopy CopyTrie s) = dirtyStorage s /\
  forall key value,
    cachedStorage s !! key = Some value ->
    dirtyStorage s !! key = None ->
    cachedStorage (deepCopy CopyTrie s) !! key = None /\
    fst (GetState TryGet OpenStorageTrie rlpSplit (deepCopy CopyTrie s) key) =
      trieValue TryGet rlpSplit (fst (getStorageTrie OpenStorageTrie (deepCopy CopyTrie s))) key.
Proof.
  assert (Hd : dirtyStorage (deepCopy CopyTrie s) = dirtyStorage s)
    by (unfold deepCopy; cbn [dirtyStorage]; apply Storage_Copy_eq).
  assert (Hc : cachedStorage (deepCopy CopyTrie s) = dirtyStorage s)
    by (unfold deepCopy; cbn [cachedStorage]; apply Storage_Copy_eq).
  repeat split; try assumption.
  - rewrite Hc. assumption.
  - apply GetState_miss. rewrite Hc. assumption.
Qed.

End StateObjectFacts.


(** C9 as stated fails: [SubBalance(0)] appends no touch entry, and
    [AddBalance(0)] appends none either when the account is not empty. *)
Lemma zero_amount_without_touch :
  entries (snd (SubBalance blankObject emptyJournal 0)) = [] /\
  entries (snd (SubBalance richObject emptyJournal 0)) = [] /\
  empty sampleEmpty richObject = false /\
  entries (snd (AddBalance sampleEmpty richObject emptyJournal 0)) = [] /\
  entries (snd (AddBalance sampleEmpty blankObject emptyJournal 0)) = [touchChange 5].
Proof. repeat split; reflexivity. Qed.

Lemma zero_amount_balance_ops_witness :
  empty sampleEmpty blankObject = true /\
  entries (snd (AddBalance sampleEmpty blankObject emptyJournal 0)) =
    entries emptyJournal ++ [touchChange (so_address blankObject)].
Proof.
  split; [reflexivity|].
  apply (zero_amount_balance_ops sampleEmpty blankObject emptyJournal). reflexivity.
Defined.

Lemma deepCopy_storage_witness :
  cachedStorage readOnlyObject !! keyOne = Some valueTwo /\
  dirtyStorage readOnlyObject !! keyOne = None /\
  cachedStorage (deepCopy (fun t => t) readOnlyObject) !! keyOne = None.
Proof.
  assert (H1 : cachedStorage readOnlyObject !! keyOne = Some valueTwo)
    by (apply lookup_insert_eq).
  assert (H2 : dirtyStorage readOnlyObject !! keyOne = None)
    by (apply lookup_empty).
  split; [exact H1|]. split; [exact H2|].
  exact (proj1 (proj2 (proj2 (deepCopy_storage sampleTryGet sampleOpen (fun t => t)
                                sampleSplit readOnlyObject)) keyOne valueTwo H1 H2)).
Defined.

(** ** Weighted council *)

Lemma result_bind_Returns {A B} (r : result A) (k : A -> result B) (b : B) :
  r ≫= k = Returns b -> exists a, r = Returns a /\ k a = Returns b.
Proof. destruct r as [a| |]; cbn; intros H; [eauto|discriminate..]. Qed.

(** [getByAddress] over a list without nil handles is a search for the first
    validator with the address. *)
Lemma getByAddressFrom_find (ws : list weightedValidator) (k : Z) (a : Address) :
  getByAddressFrom (Some <$> ws) k a =
    Returns (match list_find (fun w => address w = a) ws with
             | Some (i, w) => (k + Z.of_nat i, Some w)
             | None => (-1, None)
             end).
Proof.
  revert k; induction ws as [|w ws IH]; intros k; [reflexivity|].
  cbn [fmap list_fmap getByAddressFrom Address_of mbind result_bind list_find].
  destruct (Z.eqb_spec a (address w)) as [->|Hne].
  - rewrite decide_True by reflexivity. f_equal. f_equal. lia.
  - rewrite decide_False by congruence. rewrite IH.
    destruct (list_find _ ws) as [[i w']|]; cbn; [|reflexivity].
    f_equal. f_equal. lia.
Qed.

Section CouncilFacts.

Variable CalcProposerBlockNumber : Z -> Z.
Variable randIntn : Z -> Z -> Z -> Z.

(** *** CalcProposer *)

Lemma CalcProposer_setProposer (valSet : weightedCouncil) (p : Validator)
    (lastProposer : Address) (round : Z) :
  CalcProposer CalcProposerBlockNumber (setProposer valSet p) lastProposer round =
  CalcProposer CalcProposerBlockNumber valSet lastProposer round.
Proof. reflexivity. Qed.

Lemma CalcProposer_Returns (valSet valSet' : weightedCouncil) (lastProposer : Address)
    (round : Z) :
  CalcProposer CalcProposerBlockNumber valSet lastProposer round = Returns valSet' ->
  exists p, valSet' = setProposer valSet p.
Proof.
  unfold CalcProposer. intros H.
  apply result_bind_Returns in H as (p1 & _ & H).
  apply result_bind_Returns in H as (p2 & _ & H).
  unfold storeProposer in H. destruct p2; [|discriminate].
  injection H as <-. eauto.
Qed.

(** C7: a second [CalcProposer] with the same last proposer and round leaves
    [GetProposer] with what the first one left (also when the call panics). *)
Theorem CalcProposer_idempotent (valSet : weightedCouncil) (lastProposer : Address)
    (round : Z) :
  (valSet1 ← CalcProposer CalcProposerBlockNumber valSet lastProposer round;
   valSet2 ← CalcProposer CalcProposerBlockNumber valSet1 lastProposer round;
   GetProposer valSet2) =
  (valSet1 ← CalcProposer CalcProposerBlockNumber valSet lastProposer round;
   GetProposer valSet1).
Proof.
  destruct (CalcProposer CalcProposerBlockNumber valSet lastProposer round)
    as [valSet1| |] eqn:E; [|reflexivity..].
  cbn [mbind result_bind].
  destruct (CalcProposer_Returns _ _ _ _ E) as [p ->].
  rewrite CalcProposer_setProposer, E. reflexivity.
Qed.

(** *** RecoverWeightedCouncilProposer *)

Lemma Recover_loop_unknown (valSet : weightedCouncil) (ws : list weightedValidator)
    (addrs : list Address) :
  validators valSet = Some <$> ws ->
  Exists (fun a => Forall (fun w => address w <> a) ws) addrs ->
  forall acc : list Validator,
    forRange addrs (fun proposerAddr (proposers : list Validator) =>
      '(_, val) ← GetByAddress valSet proposerAddr;
      let proposers := proposers ++ [val] in
      _ ← Address_of val;
      Returns proposers) acc = Panics nilDeref.
Proof.
  intros Hvals Hex. unfold GetByAddress, getByAddress. rewrite Hvals.
  induction Hex as [a addrs Ha|a addrs _ IH]; intros acc.
  - cbn [forRange]. rewrite getByAddressFrom_find.
    rewrite (proj2 (list_find_None _ ws)) by exact Ha. reflexivity.
  - cbn [forRange]. rewrite getByAddressFrom_find.
    destruct (list_find _ ws) as [[i w]|]; [|reflexivity].
    cbn [mbind result_bind Address_of]. apply IH.
Qed.

(** An address that no validator has makes the recovery panic: the nil handle
    is appended, and then dereferenced for the trace log. *)
Lemma Recover_unknown_panics (valSet : weightedCouncil) (ws : list weightedValidator)
    (addrs : list Address) :
  validators valSet = Some <$> ws ->
  Exists (fun a => Forall (fun w => address w <> a) ws) addrs ->
  RecoverWeightedCouncilProposer valSet addrs = Panics nilDeref.
Proof.
  intros Hvals Hex. unfold RecoverWeightedCouncilProposer.
  rewrite (Recover_loop_unknown valSet ws addrs Hvals Hex). reflexivity.
Qed.

(** *** The selector *)


Lemma weightedRandomProposer_pick (valSet : weightedCouncil) (ps : list weightedValidator)
    (lastProposer : Address) (round idx : Z) :
  proposers valSet = Some <$> ps -> ps <> [] ->
  exists w,
    weightedRandomProposer CalcProposerBlockNumber valSet lastProposer (wrap64 (round + idx))
      = Returns (Some w) /\
    ps !! Z.to_nat (pickOf CalcProposerBlockNumber valSet round idx) = Some w.
Proof.
  intros Hps Hne. unfold weightedRandomProposer. fold (pickOf CalcProposerBlockNumber valSet round idx).
  assert (Hn : 0 < len (proposers valSet)).
  { rewrite Hps. unfold len. rewrite length_fmap. destruct ps; [congruence|cbn; lia]. }
  replace (len (proposers valSet) =? 0) with false by (symmetry; apply Z.eqb_neq; lia).
  assert (Hr : 0 <= pickOf CalcProposerBlockNumber valSet round idx < len (proposers valSet))
    by (apply Z.mod_pos_bound; exact Hn).
  destruct (lookup_lt_is_Some_2 ps (Z.to_nat (pickOf CalcProposerBlockNumber valSet round idx))) as [w Hw].
  { rewrite Hps in Hr. unfold len in Hr. rewrite length_fmap in Hr. lia. }
  exists w. split; [|exact Hw].
  unfold index. replace (pickOf CalcProposerBlockNumber valSet round idx <? 0) with false
    by (symmetry; apply Z.ltb_ge; lia).
  rewrite Hps, list_lookup_fmap, Hw. reflexivity.
Qed.

(** The rounds [round + 1], [round + 2], ... walk through the proposers: the
    index read for [round + k] is [(base + k) mod 2^64 mod n]. *)
Lemma pickOf_base (valSet : weightedCouncil) (round k : Z) :
  pickOf CalcProposerBlockNumber valSet round k =
    ((blockNum valSet + round
      - CalcProposerBlockNumber (wrap64 (blockNum valSet + 1))) mod 2 ^ 64 + k) mod 2 ^ 64
    mod len (proposers valSet).
Proof.
  unfold pickOf, wrap64. f_equal.
  set (b := blockNum valSet). set (D := CalcProposerBlockNumber _).
  rewrite Zminus_mod_idemp_l, Zplus_mod_idemp_l.
  replace (b + (round + k) mod 2 ^ 64 - D) with ((round + k) mod 2 ^ 64 + (b - D)) by lia.
  rewrite Zplus_mod_idemp_l. f_equal. lia.
Qed.

(** Every index of the proposers is read for one of the next [2n - 1]
    rounds (the count of rounds may wrap around once on the way). *)
Lemma pickOf_covers (valSet : weightedCouncil) (round j : Z) :
  2 * len (proposers valSet) <= 2 ^ 64 ->
  0 <= j < len (proposers valSet) ->
  exists k, 1 <= k < 2 * len (proposers valSet) /\ pickOf CalcProposerBlockNumber valSet round k = j.
Proof.
  intros Hn Hj. set (n := len (proposers valSet)) in *.
  set (base := (blockNum valSet + round
                - CalcProposerBlockNumber (wrap64 (blockNum valSet + 1))) mod 2 ^ 64).
  assert (HW : 0 < 2 ^ 64) by (apply Z.pow_pos_nonneg; lia).
  assert (Hbase : 0 <= base < 2 ^ 64) by (apply Z.mod_pos_bound; exact HW).
  destruct (Z_lt_le_dec (base + n) (2 ^ 64)) as [Hfit|Hwrap].
  - pose proof (Z.mod_pos_bound (j - base - 1) n ltac:(lia)) as Hr.
    exists ((j - base - 1) mod n + 1). split; [lia|].
    rewrite pickOf_base. fold base. fold n.
    rewrite (Z.mod_small (base + _) (2 ^ 64)) by lia.
    replace (base + ((j - base - 1) mod n + 1)) with ((j - base - 1) mod n + (base + 1)) by lia.
    rewrite Zplus_mod_idemp_l.
    replace (j - base - 1 + (base + 1)) with j by lia.
    apply Z.mod_small. lia.
  - exists (2 ^ 64 - base + j). split; [lia|].
    rewrite pickOf_base. fold base. fold n.
    replace (base + (2 ^ 64 - base + j)) with (j + 1 * 2 ^ 64) by lia.
    rewrite Z_mod_plus_full, (Z.mod_small j (2 ^ 64)) by lia.
    apply Z.mod_small. lia.
Qed.

(** As soon as some coming round reads a proposer with another address than
    slot 0, the loop returns with that proposer in slot 1. *)
Lemma nextProposerLoop_finds (valSet : weightedCouncil) (ps : list weightedValidator)
    (a : Address) (round : Z) (w0 : weightedValidator) (rest : list Validator) :
  proposers valSet = Some <$> ps -> ps <> [] ->
  forall (fuel : nat) (idx : Z),
    0 <= idx -> idx + Z.of_nat fuel <= 2 ^ 64 ->
    (exists k w, idx <= k < idx + Z.of_nat fuel /\
                 ps !! Z.to_nat (pickOf CalcProposerBlockNumber valSet round k) = Some w /\
                 address w <> address w0) ->
    exists w1,
      nextProposerLoop CalcProposerBlockNumber fuel valSet a round
                       (Some w0 :: None :: rest) idx
        = Returns (Some w0 :: Some w1 :: rest) /\
      w1 ∈ ps /\ address w1 <> address w0.
Proof.
  intros Hps Hne. induction fuel as [|fuel IH]; intros idx Hidx Hfuel (k & w & Hk & Hw & Hdiff);
    [lia|].
  cbn [nextProposerLoop].
  change (index (Some w0 :: None :: rest) 1) with (Returns (@None weightedValidator)).
  cbn [mbind result_bind].
  destruct (weightedRandomProposer_pick valSet ps a round idx Hps Hne) as (w' & -> & Hw').
  change (index (Some w0 :: None :: rest) 0) with (Returns (Some w0)).
  cbn [mbind result_bind Address_of].
  destruct (Z.eqb_spec (address w0) (address w')) as [Heq|Hneq]; cbn [negb].
  - assert (Hk' : idx + 1 <= k).
    { destruct (Z.eq_dec k idx) as [->|]; [|lia]. rewrite Hw' in Hw. congruence. }
    unfold wrap64 at 1. rewrite Z.mod_small by lia.
    apply IH; [lia|lia|]. exists k, w. repeat split; (lia || assumption).
  - exists w'. split; [|split].
    + change 1 with (Z.of_nat 1). rewrite assign_of_nat by (cbn; lia). reflexivity.
    + eapply list_elem_of_lookup_2, Hw'.
    + congruence.
Qed.

(** When every proposer has the address of slot 0, the loop that looks for
    slot 1 uses up any fuel. *)
Lemma nextProposerLoop_stuck (valSet : weightedCouncil) (ps : list weightedValidator)
    (a : Address) (round : Z) (w0 : weightedValidator) (rest : list Validator) :
  proposers valSet = Some <$> ps -> ps <> [] ->
  Forall (fun p => address p = address w0) ps ->
  forall (fuel : nat) (idx : Z),
    nextProposerLoop CalcProposerBlockNumber fuel valSet a round
                     (Some w0 :: None :: rest) idx = OutOfFuel.
Proof.
  intros Hps Hne Hall. induction fuel as [|fuel IH]; intros idx; [reflexivity|].
  cbn [nextProposerLoop]. change (index (Some w0 :: None :: rest) 1) with (Returns (@None weightedValidator)).
  cbn [mbind result_bind].
  destruct (weightedRandomProposer_pick valSet ps a round idx Hps Hne) as (w & -> & Hw).
  change (index (Some w0 :: None :: rest) 0) with (Returns (Some w0)).
  cbn [mbind result_bind Address_of].
  rewrite Forall_lookup in Hall. rewrite (Hall _ _ Hw), Z.eqb_refl. cbn [negb].
  apply IH.
Qed.

(** With more validators than committee seats and at least two seats,
    [SubListWithProposer] never returns when every proposer has the address
    of the given proposer. *)
Lemma SubListWithProposer_stuck (valSet : weightedCouncil) (ws ps : list weightedValidator)
    (prevHash : Hash) (a : Address) (round : Z) :
  validators valSet = Some <$> ws ->
  proposers valSet = Some <$> ps -> ps <> [] ->
  Forall (fun p => address p = a) ps ->
  a ∈ (address <$> ws) ->
  length prevHash = HashLength ->
  2 <= subSize valSet < len ws ->
  forall fuel : nat,
    SubListWithProposer CalcProposerBlockNumber randIntn fuel valSet prevHash a round
      = OutOfFuel.
Proof.
  intros Hws Hps Hne Hall Ha Hlen Hsize fuel. unfold SubListWithProposer.
  rewrite Hws. unfold len in *. rewrite length_fmap.
  replace (Z.of_nat (length ws) <=? subSize valSet) with false
    by (symmetry; apply Z.leb_gt; lia).
  rewrite (parseSeed_of_hash prevHash Hlen).
  unfold make. replace (subSize valSet <? 0) with false by (symmetry; apply Z.ltb_ge; lia).
  cbn [mbind result_bind]. unfold getByAddress. rewrite Hws, getByAddressFrom_find.
  destruct (list_find (fun w => address w = a) ws) as [[n0 w0]|] eqn:Hfind.
  2:{ apply list_find_None in Hfind. apply list_elem_of_fmap in Ha as (w & -> & Hw).
      rewrite Forall_forall in Hfind. now destruct (Hfind w Hw). }
  apply list_find_Some in Hfind as (_ & Hw0 & _).
  cbn [mbind result_bind].
  destruct (Z.to_nat (subSize valSet)) as [|[|k]] eqn:Hk; [lia|lia|].
  cbn [replicate]. change (assign (None :: None :: replicate k None) 0 (Some w0))
    with (Returns (Some w0 :: None :: replicate k (@None weightedValidator))).
  cbn [mbind result_bind].
  replace (subSize valSet =? 1) with false by (symmetry; apply Z.eqb_neq; lia).
  rewrite (nextProposerLoop_stuck valSet ps a round w0 _ Hps Hne); [reflexivity|].
  rewrite Hw0. exact Hall.
Qed.

(** *** The shuffle and the committee *)


Lemma shuffle_Permutation (seed limit : Z) (xs : list Z) :
  IntnInRange randIntn -> limit = len xs ->
  exists xs', shuffle randIntn seed limit xs = Returns xs' /\ xs' ≡ₚ xs.
Proof.
  intros Hrand ->. unfold shuffle.
  destruct (forLoop_total (fun (_ : Z) (t : list Z) => t ≡ₚ xs)
              (fun i xs0 => randIndex ← Intn randIntn seed i (len xs); swap xs0 i randIndex)
              (Z.to_nat (len xs)) 0 xs (reflexivity _)) as (xs' & Hrun & Hperm).
  - intros j t Hj Ht. unfold Intn.
    assert (Hlen : len t = len xs) by (unfold len; now rewrite Ht).
    unfold len in Hj.
    replace (len xs <=? 0) with false by (symmetry; apply Z.leb_gt; unfold len; lia).
    cbn [mbind result_bind].
    pose proof (Hrand seed j (len xs) ltac:(unfold len; lia)) as Hr.
    destruct (swap_Permutation t j (randIntn seed j (len xs))) as (t' & Hswap & Ht');
      [unfold len in *; lia|lia|].
    exists t'. split; [exact Hswap|]. now rewrite Ht'.
  - eauto.
Qed.


Lemma fill_indexs_loop (n0 n1 : Z) :
  forall (count : nat) (i : Z) (done : list Z) (room : nat),
    (length (filter (fun i => i <> n0 /\ i <> n1) (seqZ i (Z.of_nat count))) <= room)%nat ->
    exists extra,
      forLoop count i (fun i '(indexs, idx) =>
        if negb (i =? n0) && negb (i =? n1) then
          indexs ← assign indexs idx i;
          Returns (indexs, idx + 1)
        else Returns (indexs, idx)) (done ++ replicate room 0, len done)
      = Returns (done ++ filter (fun i => i <> n0 /\ i <> n1) (seqZ i (Z.of_nat count))
                      ++ replicate (room - length (filter (fun i => i <> n0 /\ i <> n1)
                                                          (seqZ i (Z.of_nat count)))) 0,
                 extra).
Proof.
  induction count as [|count IH]; intros i done room Hroom.
  - cbn. rewrite Nat.sub_0_r. eauto.
  - rewrite seqZ_cons in * by lia.
    replace (Z.pred (Z.of_nat (S count))) with (Z.of_nat count) in * by lia.
    change (Z.succ i) with (i + 1) in *.
    cbn [forLoop].
    destruct (Z.eqb_spec i n0) as [E0|E0]; [|destruct (Z.eqb_spec i n1) as [E1|E1]];
      cbn [negb andb].
    + rewrite filter_cons_False in * by tauto. cbn [mbind result_bind].
      apply (IH (i + 1) done room Hroom).
    + rewrite filter_cons_False in * by tauto. cbn [mbind result_bind].
      apply (IH (i + 1) done room Hroom).
    + rewrite filter_cons_True in * by tauto. cbn [length] in Hroom.
      destruct room as [|room]; [lia|]. cbn [replicate].
      rewrite assign_app_head. cbn [mbind result_bind].
      replace (len done + 1) with (len (done ++ [i]))
        by (unfold len; rewrite length_app; cbn; lia).
      replace (done ++ i :: replicate room 0) with ((done ++ [i]) ++ replicate room 0)
        by (now rewrite <- app_assoc).
      destruct (IH (i + 1) (done ++ [i]) room ltac:(lia)) as (extra & ->).
      exists extra. rewrite <- app_assoc. reflexivity.
Qed.

Lemma length_otherIndexes (n0 n1 limit : Z) :
  0 <= n0 < limit -> 0 <= n1 < limit -> n0 <> n1 ->
  length (otherIndexes n0 n1 limit) = Z.to_nat (limit - 2).
Proof.
  intros H0 H1 Hne. unfold otherIndexes.
  pose proof (filter_app_complement (fun i => i <> n0 /\ i <> n1) (seqZ 0 limit)) as Hsplit.
  apply Permutation_length in Hsplit. rewrite length_app, length_seqZ in Hsplit.
  assert (Htwo : filter (fun i => ~ (i <> n0 /\ i <> n1)) (seqZ 0 limit) ≡ₚ [n0; n1]).
  { apply NoDup_Permutation.
    - apply NoDup_filter, NoDup_seqZ.
    - repeat constructor; [|apply not_elem_of_nil].
      intros Hin. apply list_elem_of_singleton in Hin. congruence.
    - intros x. rewrite list_elem_of_filter, elem_of_seqZ.
      rewrite elem_of_cons, list_elem_of_singleton. split.
      + intros [Hx _]. destruct (decide (x = n0)); [auto|].
        destruct (decide (x = n1)); [auto|]. tauto.
      + intros [->| ->]; (split; [tauto|lia]). }
  apply Permutation_length in Htwo. cbn [length] in Htwo. lia.
Qed.

(** The loop that fills the seats from 2 on. *)
Lemma committee_loop (ws : list weightedValidator) (indexs : list Z)
    (w0 w1 : weightedValidator) (m : nat) :
  (m <= length indexs)%nat -> Z.of_nat m + 2 < 2 ^ 64 ->
  (forall ix, ix ∈ indexs -> 0 <= ix < len ws) ->
  exists picked : list weightedValidator,
    forLoop m 0 (fun i committee =>
      ix ← index indexs i;
      v ← index (Some <$> ws) ix;
      assign committee (wrap64 (i + 2)) v) (Some w0 :: Some w1 :: replicate m None)
    = Returns (Some w0 :: Some w1 :: (Some <$> picked)) /\
    length picked = m /\
    forall (i : nat) w, picked !! i = Some w ->
      exists ix, indexs !! i = Some ix /\ ws !! Z.to_nat ix = Some w.
Proof.
  intros Hm Hbound Hvalid.
  set (P := fun (j : Z) (t : list Validator) =>
    exists picked : list weightedValidator,
      len picked = j /\
      t = Some w0 :: Some w1 :: (Some <$> picked) ++ replicate (m - length picked) None /\
      forall (i : nat) w, picked !! i = Some w ->
        exists ix, indexs !! i = Some ix /\ ws !! Z.to_nat ix = Some w).
  destruct (forLoop_total P
              (fun i committee =>
                 ix ← index indexs i;
                 v ← index (Some <$> ws) ix;
                 assign committee (wrap64 (i + 2)) v)
              m 0 (Some w0 :: Some w1 :: replicate m None)) as (t & Hrun & picked & Hlen & -> & Hpicked).
  - exists []. cbn. rewrite Nat.sub_0_r. repeat split. intros i w Hi. discriminate.
  - intros j t Hj (picked & Hlen & -> & Hpicked). unfold len in Hlen.
    destruct (lookup_lt_is_Some_2 indexs (length picked) ltac:(lia)) as [ix Hix].
    assert (Hixr : 0 <= ix < len ws) by (apply Hvalid; eapply list_elem_of_lookup_2, Hix).
    destruct (lookup_lt_is_Some_2 ws (Z.to_nat ix) ltac:(unfold len in Hixr; lia)) as [w Hw].
    exists (Some w0 :: Some w1 :: (Some <$> (picked ++ [w]))
              ++ replicate (m - length (picked ++ [w])) None).
    split.
    + rewrite <- Hlen, (index_of_nat _ _ _ Hix). cbn [mbind result_bind].
      rewrite <- (Z2Nat.id ix) at 1 by lia.
      rewrite (index_of_nat (Some <$> ws) _ (Some w)) by (now rewrite list_lookup_fmap, Hw).
      cbn [mbind result_bind].
      unfold wrap64. rewrite Z.mod_small by lia.
      replace (m - length picked)%nat with (S (m - length (picked ++ [w])))
        by (rewrite length_app; cbn; lia).
      cbn [replicate].
      change (Some w0 :: Some w1 :: (Some <$> picked) ++ None :: ?tl)
        with ((Some w0 :: Some w1 :: (Some <$> picked)) ++ None :: tl).
      replace (Z.of_nat (length picked) + 2)
        with (len (Some w0 :: Some w1 :: (Some <$> picked)))
        by (unfold len; cbn [length]; rewrite length_fmap; lia).
      rewrite assign_app_head. rewrite fmap_app. cbn [fmap list_fmap].
      rewrite <- !app_assoc. reflexivity.
    + exists (picked ++ [w]). split; [|split; [reflexivity|]].
      * unfold len. rewrite length_app. cbn. lia.
      * intros i w' Hi. destruct (decide (i < length picked)%nat) as [Hlt|Hge].
        -- rewrite lookup_app_l in Hi by assumption. now apply Hpicked.
        -- rewrite lookup_app_r in Hi by lia.
           destruct (i - length picked)%nat as [|] eqn:Hd; [|discriminate].
           injection Hi as <-. exists ix. replace i with (length picked) by lia. auto.
  - exists picked. unfold len in Hlen.
    replace (m - length picked)%nat with 0%nat in Hrun by lia.
    cbn [replicate] in Hrun. rewrite app_nil_r in Hrun.
    repeat split; [exact Hrun|lia|exact Hpicked].
Qed.

(** *** SubListWithProposer *)

Lemma find_by_address (ws : list weightedValidator) (a : Address) :
  a ∈ (address <$> ws) ->
  exists (n : nat) w,
    list_find (fun w => address w = a) ws = Some (n, w) /\
    ws !! n = Some w /\ address w = a.
Proof.
  intros Ha. destruct (list_find (fun w => address w = a) ws) as [[n w]|] eqn:Hfind.
  - apply list_find_Some in Hfind as (Hn & Hw & _). eauto.
  - apply list_find_None in Hfind. apply list_elem_of_fmap in Ha as (w & -> & Hw).
    rewrite Forall_forall in Hfind. now destruct (Hfind w Hw).
Qed.

Lemma address_determines_index (ws : list weightedValidator) (i j : nat)
    (v w : weightedValidator) :
  NoDup (address <$> ws) ->
  ws !! i = Some v -> ws !! j = Some w -> address v = address w -> i = j.
Proof.
  intros Hnd Hv Hw Heq.
  apply (NoDup_lookup (address <$> ws) i j (address v) Hnd).
  - now rewrite list_lookup_fmap, Hv.
  - now rewrite list_lookup_fmap, Hw, Heq.
Qed.

(** C2 (amended). Take a council without nil handles whose validators have
    pairwise distinct addresses and whose proposers are all validators, a
    32-byte hash and the address [a] of a validator.
    - With at least as many seats as validators, the call returns the
      validator list as it is.
    - With [1 <= subSize < size], and for [subSize >= 2] some proposer with
      another address than [a], the call returns (given enough fuel)
      [subSize] validators with pairwise distinct addresses; the first is
      the validator with address [a], the second a proposer with another
      address. *)
Theorem SubListWithProposer_committee (valSet : weightedCouncil)
    (ws ps : list weightedValidator) (prevHash : Hash) (a : Address) (round : Z) :
  IntnInRange randIntn ->
  validators valSet = Some <$> ws ->
  NoDup (address <$> ws) ->
  proposers valSet = Some <$> ps ->
  proposersAreValidators valSet ->
  2 * len ps <= 2 ^ 64 -> len ws < 2 ^ 63 ->
  a ∈ (address <$> ws) ->
  length prevHash = HashLength ->
  (len ws <= subSize valSet ->
   forall fuel,
     SubListWithProposer CalcProposerBlockNumber randIntn fuel valSet prevHash a round
       = Returns (validators valSet)) /\
  (1 <= subSize valSet < len ws ->
   (2 <= subSize valSet -> exists p, p ∈ ps /\ address p <> a) ->
   exists (fuel : nat) (committee : list weightedValidator),
     SubListWithProposer CalcProposerBlockNumber randIntn fuel valSet prevHash a round
       = Returns (Some <$> committee) /\
     len committee = subSize valSet /\
     NoDup (address <$> committee) /\
     (forall w, w ∈ committee -> w ∈ ws) /\
     (exists w0, committee !! 0%nat = Some w0 /\ address w0 = a) /\
     (2 <= subSize valSet ->
      exists w1, committee !! 1%nat = Some w1 /\ address w1 <> a /\ w1 ∈ ps)).
Proof.
  intros Hrand Hws Hnodup Hps Hinv Hpslen Hwslen Ha Hlen.
  assert (H63 : 2 ^ 63 < 2 ^ 64) by (apply Z.pow_lt_mono_r; lia).
  split.
  { intros Hsize fuel. unfold SubListWithProposer. rewrite Hws at 1.
    unfold len in *. rewrite length_fmap.
    now replace (Z.of_nat (length ws) <=? subSize valSet) with true
      by (symmetry; apply Z.leb_le; lia). }
  intros Hsize Hdistinct.
  destruct (find_by_address ws a Ha) as (n0 & w0 & Hfind0 & Hn0 & Hw0).
  destruct (Z.eq_dec (subSize valSet) 1) as [E1|E1].
  { exists 0%nat, [w0]. split; [|repeat split].
    - unfold SubListWithProposer, getByAddress. rewrite Hws, len_fmap.
      replace (len ws <=? subSize valSet) with false by (symmetry; apply Z.leb_gt; lia).
      rewrite (parseSeed_of_hash prevHash Hlen), E1.
      cbn [make Z.ltb Z.compare Z.to_nat Pos.to_nat Pos.iter_op Nat.add replicate
           mbind result_bind].
      rewrite getByAddressFrom_find, Hfind0. reflexivity.
    - rewrite E1. reflexivity.
    - cbn. repeat constructor. apply not_elem_of_nil.
    - intros w Hw. apply list_elem_of_singleton in Hw as ->.
      eapply list_elem_of_lookup_2, Hn0.
    - exists w0. auto.
    - lia. }
  assert (Hsize2 : 2 <= subSize valSet) by lia.
  destruct (Hdistinct Hsize2) as (p & Hp & Hpa).
  apply list_elem_of_lookup in Hp as [j Hj].
  assert (Hpne : ps <> []) by (intros ->; discriminate).
  destruct (pickOf_covers valSet round (Z.of_nat j)) as (k & Hk & Hpick).
  { now rewrite Hps, len_fmap. }
  { rewrite Hps, len_fmap. apply lookup_lt_Some in Hj. unfold len. lia. }
  rewrite Hps, len_fmap in Hk.
  destruct (nextProposerLoop_finds valSet ps a round w0
              (replicate (Z.to_nat (subSize valSet) - 2) None) Hps Hpne
              (Z.to_nat (2 * len ps - 1)) 1 ltac:(lia) ltac:(lia))
    as (w1 & Hloop & Hw1ps & Hw1a).
  { exists k, p. rewrite Hpick, Nat2Z.id. repeat split; [lia|lia|exact Hj|congruence]. }
  rewrite Hw0 in Hw1a.
  assert (Hw1ws : w1 ∈ ws).
  { assert (Hin : Some w1 ∈ validators valSet)
      by (apply Hinv; rewrite Hps; now apply list_elem_of_fmap_2).
    rewrite Hws in Hin. apply list_elem_of_fmap in Hin as (w & [= ->] & Hw). exact Hw. }
  destruct (find_by_address ws (address w1)) as (n1 & w1' & Hfind1 & Hn1 & Hw1').
  { now apply list_elem_of_fmap_2. }
  assert (Hn01 : n0 <> n1) by (intros ->; congruence).
  assert (Hother : length (otherIndexes (Z.of_nat n0) (Z.of_nat n1) (len ws))
                   = Z.to_nat (len ws - 2)).
  { apply lookup_lt_Some in Hn0, Hn1. apply length_otherIndexes; unfold len; lia. }
  destruct (shuffle_Permutation (Z.shiftr (bigOfBytes prevHash) 196) (len ws - 2)
              (otherIndexes (Z.of_nat n0) (Z.of_nat n1) (len ws)) Hrand)
    as (indexs & Hshuffle & Hperm).
  { unfold len at 2. rewrite Hother. unfold len in *. lia. }
  destruct (committee_loop ws indexs w0 w1 (Z.to_nat (subSize valSet) - 2))
    as (picked & Hcommittee & Hpickedlen & Hpicked).
  { rewrite Hperm, Hother. unfold len in *. lia. }
  { unfold len in *. lia. }
  { intros ix. rewrite Hperm. unfold otherIndexes.
    rewrite list_elem_of_filter, elem_of_seqZ. lia. }
  assert (Hix : forall ix, ix ∈ indexs ->
                  0 <= ix < len ws /\ ix <> Z.of_nat n0 /\ ix <> Z.of_nat n1).
  { intros ix. rewrite Hperm. unfold otherIndexes.
    rewrite list_elem_of_filter, elem_of_seqZ. lia. }
  assert (HndIdx : NoDup indexs).
  { rewrite Hperm. apply NoDup_filter, NoDup_seqZ. }
  assert (Hpicked' : forall w, w ∈ picked ->
            exists ix, ix ∈ indexs /\ ws !! Z.to_nat ix = Some w).
  { intros w Hw. apply list_elem_of_lookup in Hw as [i Hi].
    destruct (Hpicked i w Hi) as (ix & Hix1 & Hix2).
    exists ix. split; [eapply list_elem_of_lookup_2, Hix1|exact Hix2]. }
  exists (Z.to_nat (2 * len ps - 1)), (w0 :: w1 :: picked).
  split; [|repeat split].
  - unfold SubListWithProposer, getByAddress. rewrite Hws, !len_fmap.
    replace (len ws <=? subSize valSet) with false by (symmetry; apply Z.leb_gt; lia).
    rewrite (parseSeed_of_hash prevHash Hlen).
    rewrite !make_nonneg by lia.
    cbn [mbind result_bind]. rewrite getByAddressFrom_find, Hfind0.
    cbn [mbind result_bind].
    replace (Z.to_nat (subSize valSet)) with (S (S (Z.to_nat (subSize valSet) - 2))) at 1
      by lia.
    cbn [replicate].
    change (assign (None :: None :: ?tl) 0 (Some w0)) with (Returns (Some w0 :: None :: tl)).
    cbn [mbind result_bind].
    replace (subSize valSet =? 1) with false by (symmetry; apply Z.eqb_neq; lia).
    unfold Validator in *. rewrite Hloop. cbn [mbind result_bind].
    change (index (Some w0 :: Some w1 :: ?tl) 0) with (Returns (Some w0)).
    cbn [mbind result_bind Address_of]. rewrite Hw0.
    rewrite getByAddressFrom_find, Hfind0. cbn [mbind result_bind].
    change (index (Some w0 :: Some w1 :: ?tl) 1) with (Returns (Some w1)).
    cbn [mbind result_bind Address_of].
    rewrite getByAddressFrom_find, Hfind1. cbn [mbind result_bind].
    rewrite !Z.add_0_l.
    destruct (fill_indexs_loop (Z.of_nat n0) (Z.of_nat n1) (Z.to_nat (len ws)) 0 []
                (Z.to_nat (len ws - 2))) as (extra & Hfill).
    { rewrite Z2Nat.id by (unfold len; lia).
      fold (otherIndexes (Z.of_nat n0) (Z.of_nat n1) (len ws)). lia. }
    rewrite Z2Nat.id in Hfill by (unfold len; lia).
    fold (otherIndexes (Z.of_nat n0) (Z.of_nat n1) (len ws)) in Hfill.
    rewrite Hother, Nat.sub_diag in Hfill.
    cbn [replicate app] in Hfill. rewrite app_nil_r in Hfill.
    change (len (@nil Z)) with 0 in Hfill.
    rewrite Hfill. cbn [mbind result_bind].
    rewrite Hshuffle. cbn [mbind result_bind].
    replace (Z.to_nat (wrap64 (subSize valSet - 2))) with (Z.to_nat (subSize valSet) - 2)%nat
      by (unfold wrap64; rewrite Z.mod_small; lia).
    exact Hcommittee.
  - unfold len. cbn [length]. rewrite Hpickedlen. lia.
  - cbn [fmap list_fmap]. apply NoDup_cons. split.
    { intros Hin. apply elem_of_cons in Hin as [Heq|Hin]; [congruence|].
      apply list_elem_of_fmap in Hin as (w & Heq & Hw).
      destruct (Hpicked' w Hw) as (ix & Hin & Hlook).
      pose proof (address_determines_index ws _ _ _ _ Hnodup Hn0 Hlook Heq).
      destruct (Hix ix Hin). lia. }
    apply NoDup_cons. split.
    { intros Hin. apply list_elem_of_fmap in Hin as (w & Heq & Hw).
      destruct (Hpicked' w Hw) as (ix & Hin & Hlook).
      pose proof (address_determines_index ws _ _ _ _ Hnodup Hn1 Hlook ltac:(congruence)).
      destruct (Hix ix Hin). lia. }
    apply NoDup_alt. intros i1 i2 x H1 H2.
    rewrite list_lookup_fmap in H1, H2.
    destruct (picked !! i1) as [u1|] eqn:Hu1; [|discriminate].
    destruct (picked !! i2) as [u2|] eqn:Hu2; [|discriminate].
    injection H1 as H1. injection H2 as H2.
    destruct (Hpicked i1 u1 Hu1) as (ix1 & Hi1 & Hl1).
    destruct (Hpicked i2 u2 Hu2) as (ix2 & Hi2 & Hl2).
    pose proof (address_determines_index ws _ _ _ _ Hnodup Hl1 Hl2 ltac:(congruence)) as Heq.
    destruct (Hix ix1 (list_elem_of_lookup_2 _ _ _ Hi1)) as [? _].
    destruct (Hix ix2 (list_elem_of_lookup_2 _ _ _ Hi2)) as [? _].
    assert (ix1 = ix2) as -> by lia.
    exact (NoDup_lookup indexs i1 i2 ix2 HndIdx Hi1 Hi2).
  - intros w Hw. apply elem_of_cons in Hw as [->|Hw];
      [eapply list_elem_of_lookup_2, Hn0|].
    apply elem_of_cons in Hw as [->|Hw]; [exact Hw1ws|].
    destruct (Hpicked' w Hw) as (ix & _ & Hlook).
    eapply list_elem_of_lookup_2, Hlook.
  - exists w0. auto.
  - intros _. exists w1. auto.
Qed.

End CouncilFacts.

Section RefreshFacts.

Variable randIntn : Z -> Z -> Z -> Z.
Variable GetStakingInfo : Z -> option StakingInfo.
Variable Pow : float -> float -> float.
Variable CalcGiniCoefficient : list float -> float.
Variable uint64Unrepresentable : float -> Z.

(** *** Refresh *)

(** C6: when [Refresh] reaches the staking-info lookup (the proposers are not
    yet those of [blockNum], and there is a validator) and finds none for
    [blockNum + 1], it returns the skip-refresh error, and the proposers and
    their block number are the ones from before. *)
Theorem Refresh_without_staking_info (valSet : weightedCouncil) (hash : Hash) (blockNum : Z) :
  length hash = HashLength ->
  proposersBlockNum valSet <> blockNum ->
  validators valSet <> [] ->
  GetStakingInfo (wrap64 (blockNum + 1)) = None ->
  exists valSet',
    Refresh randIntn GetStakingInfo Pow CalcGiniCoefficient uint64Unrepresentable
            valSet hash blockNum = Returns (valSet', Some errSkipRefresh) /\
    proposers valSet' = proposers valSet /\
    proposersBlockNum valSet' = proposersBlockNum valSet /\
    validators valSet' = validators valSet.
Proof.
  intros Hlen Hnum Hvals Hnone.
  exists (setStakingInfo valSet None). unfold Refresh.
  rewrite (proj2 (Z.eqb_neq _ _) Hnum).
  replace (len (validators valSet) =? 0) with false.
  2:{ symmetry. apply Z.eqb_neq. unfold len. destruct (validators valSet); [congruence|].
      cbn [length]. lia. }
  rewrite (parseSeed_of_hash hash Hlen), Hnone.
  repeat split.
Qed.

(** Without staking info no path of [Refresh] touches the proposers. *)
Lemma Refresh_keeps_proposers_without_staking_info (valSet : weightedCouncil) (hash : Hash)
    (blockNum : Z) :
  GetStakingInfo (wrap64 (blockNum + 1)) = None ->
  exists valSet' err,
    Refresh randIntn GetStakingInfo Pow CalcGiniCoefficient uint64Unrepresentable
            valSet hash blockNum = Returns (valSet', err) /\
    proposers valSet' = proposers valSet /\
    proposersBlockNum valSet' = proposersBlockNum valSet.
Proof.
  intros Hnone. unfold Refresh.
  destruct (proposersBlockNum valSet =? blockNum); [eauto|].
  destruct (len (validators valSet) =? 0); [eauto|].
  destruct (parseSeed hash); [|eauto].
  rewrite Hnone. eauto.
Qed.

(** *** What the mutators keep *)

Lemma AddValidator_keeps_membership (valSet valSet' : weightedCouncil) (a : Address)
    (added : bool) :
  proposersAreValidators valSet ->
  AddValidator valSet a = Returns (valSet', added) ->
  proposersAreValidators valSet'.
Proof.
  intros Hinv Hadd. unfold AddValidator in Hadd.
  apply result_bind_Returns in Hadd as (present & _ & Hadd).
  destruct present; injection Hadd as <- <-; [exact Hinv|].
  intros p Hp. cbn [validators proposers setValidators] in *.
  unfold sortValidators. rewrite merge_sort_Permutation.
  apply elem_of_app. left. now apply Hinv.
Qed.

Lemma removeValidatorFromProposers_loop (a : Address) (ps : list Validator) :
  forall acc out : list Validator,
    forRange ps (fun v newProposers =>
      x ← Address_of v;
      if negb (x =? a) then Returns (newProposers ++ [v]) else Returns newProposers) acc
      = Returns out ->
    forall p, p ∈ out -> p ∈ acc \/ (p ∈ ps /\ exists w, p = Some w /\ address w <> a).
Proof.
  induction ps as [|v ps IH]; intros acc out Hrun p Hp.
  - cbn in Hrun. injection Hrun as <-. auto.
  - cbn [forRange] in Hrun. destruct v as [w|]; [|discriminate].
    cbn [Address_of mbind result_bind] in Hrun.
    destruct (Z.eqb_spec (address w) a) as [Heq|Hne]; cbn [negb] in Hrun.
    + destruct (IH _ _ Hrun p Hp) as [Hacc|(Hin & Hw)]; [auto|].
      right. split; [now apply elem_of_cons; right|assumption].
    + destruct (IH _ _ Hrun p Hp) as [Hacc|(Hin & Hw)].
      * apply elem_of_app in Hacc as [Hacc|Hlast]; [auto|].
        apply list_elem_of_singleton in Hlast as ->.
        right. split; [apply elem_of_cons; auto|eauto].
      * right. split; [now apply elem_of_cons; right|assumption].
Qed.

Lemma removeValidatorLoop_keeps_membership (valSet valSet' : weightedCouncil) (a : Address)
    (removed : bool) :
  proposersAreValidators valSet ->
  forall (rest : list Validator) (i : nat),
    drop i (validators valSet) = rest ->
    removeValidatorLoop valSet rest i a = Returns (valSet', removed) ->
    proposersAreValidators valSet'.
Proof.
  intros Hinv rest. induction rest as [|v rest IH]; intros i Hdrop Hrun.
  - cbn in Hrun. injection Hrun as <- <-. exact Hinv.
  - cbn [removeValidatorLoop] in Hrun. destruct v as [w|]; [|discriminate].
    cbn [Address_of mbind result_bind] in Hrun.
    destruct (Z.eqb_spec (address w) a) as [Heq|Hne].
    + apply result_bind_Returns in Hrun as (vs1 & Hrem & Hret).
      injection Hret as <- <-.
      unfold removeValidatorFromProposers in Hrem.
      apply result_bind_Returns in Hrem as (newProposers & Hloop & Hret).
      injection Hret as <-.
      intros p Hp. cbn [validators proposers setValidators setProposers] in *.
      destruct (removeValidatorFromProposers_loop a _ _ _ Hloop p Hp)
        as [Hnil|(Hin & w' & -> & Hw')]; [now apply elem_of_nil in Hnil|].
      apply Hinv in Hin.
      rewrite <- (take_drop i (validators valSet)), Hdrop in Hin.
      apply elem_of_app in Hin as [Hin|Hin]; apply elem_of_app; [auto|].
      apply elem_of_cons in Hin as [Hin|Hin]; [congruence|].
      right. rewrite (drop_cons_inv _ _ _ _ Hdrop). exact Hin.
    + apply (IH (S i)); [|exact Hrun]. exact (drop_cons_inv _ _ _ _ Hdrop).
Qed.

Lemma RemoveValidator_keeps_membership (valSet valSet' : weightedCouncil) (a : Address)
    (removed : bool) :
  proposersAreValidators valSet ->
  RemoveValidator valSet a = Returns (valSet', removed) ->
  proposersAreValidators valSet'.
Proof.
  intros Hinv Hrun.
  exact (removeValidatorLoop_keeps_membership valSet valSet' a removed Hinv _ 0%nat eq_refl Hrun).
Qed.

(** The proposers that [refreshProposers] stores are all read from
    [validators]. *)
Lemma refreshProposers_membership (valSet valSet' : weightedCouncil) (seed blockNum : Z) :
  refreshProposers randIntn valSet seed blockNum = Returns valSet' ->
  proposersAreValidators valSet'.
Proof.
  unfold refreshProposers. intros Hrun.
  apply result_bind_Returns in Hrun as ([cands ?] & _ & Hrun).
  set (cands' := if len cands =? 0 then _ else cands) in Hrun.
  apply result_bind_Returns in Hrun as (ps0 & Hmake & Hrun).
  apply result_bind_Returns in Hrun as (shuffled & _ & Hrun).
  apply result_bind_Returns in Hrun as (ps & Hloop & Hret).
  injection Hret as <-.
  unfold make in Hmake. destruct (len cands' <? 0); [discriminate|].
  injection Hmake as <-.
  intros p Hp. cbn [validators proposers setProposers setProposersBlockNum] in *.
  set (P := fun (j : Z) (qs : list Validator) =>
              length qs = Z.to_nat (len cands') /\
              forall n q, qs !! n = Some q -> (Z.of_nat n < j) -> q ∈ validators valSet).
  assert (HP : P (0 + Z.of_nat (Z.to_nat (len cands'))) ps).
  { assert (HP0 : P 0 (replicate (Z.to_nat (len cands')) None))
      by (split; [apply length_replicate|intros; lia]).
    apply (forLoop_invariant P _ _ _ _ _ HP0) in Hloop; [exact Hloop|].
    intros j t t' Hj [Hlen Hpre] Hbody.
    apply result_bind_Returns in Hbody as (ix & _ & Hbody).
    apply result_bind_Returns in Hbody as (v & Hv & Hbody).
    apply assign_Returns in Hbody as (Hrange & ->).
    apply index_Returns in Hv as (_ & Hv).
    split; [now rewrite length_insert|].
    intros n q Hq Hn.
    destruct (decide (n = Z.to_nat j)) as [->|Hnj].
    - rewrite list_lookup_insert_eq in Hq by (unfold len in Hrange; lia).
      injection Hq as <-. eapply list_elem_of_lookup_2, Hv.
    - rewrite list_lookup_insert_ne in Hq by congruence.
      apply (Hpre n q Hq). lia. }
  destruct HP as [Hlen Hall].
  apply list_elem_of_lookup in Hp as [n Hn].
  apply (Hall n p Hn). apply lookup_lt_Some in Hn. unfold len in *. lia.
Qed.

Lemma Refresh_keeps_membership (valSet valSet' : weightedCouncil) (hash : Hash)
    (blockNum : Z) (err : option RefreshError) :
  proposersAreValidators valSet ->
  Refresh randIntn GetStakingInfo Pow CalcGiniCoefficient uint64Unrepresentable
          valSet hash blockNum = Returns (valSet', err) ->
  proposersAreValidators valSet'.
Proof.
  intros Hinv. unfold Refresh.
  destruct (proposersBlockNum valSet =? blockNum); [intros [= <- <-]; exact Hinv|].
  destruct (len (validators valSet) =? 0); [intros [= <- <-]; exact Hinv|].
  destruct (parseSeed hash) as [seed|e]; [|intros [= <- <-]; exact Hinv].
  destruct (GetStakingInfo (wrap64 (blockNum + 1))) as [si|];
    [|intros [= <- <-]; exact Hinv].
  intros Hrun.
  apply result_bind_Returns in Hrun as ([wvs amounts] & _ & Hrun).
  apply result_bind_Returns in Hrun as ([[total si'] amounts'] & _ & Hrun).
  apply result_bind_Returns in Hrun as (wvs' & _ & Hrun).
  apply result_bind_Returns in Hrun as (vs1 & Hrefresh & Hret).
  injection Hret as <- <-.
  exact (refreshProposers_membership _ _ _ _ Hrefresh).
Qed.

(** Without nil handles, [AddValidator] and [RemoveValidator] return. *)
Lemma AddValidator_returns (valSet : weightedCouncil) (ws : list weightedValidator)
    (a : Address) :
  validators valSet = Some <$> ws ->
  exists valSet' added, AddValidator valSet a = Returns (valSet', added).
Proof.
  intros Hws. unfold AddValidator. rewrite Hws.
  assert (Hhas : exists b, hasAddress (Some <$> ws) a = Returns b).
  { clear Hws. induction ws as [|w ws IH]; [cbn; eauto|].
    cbn [fmap list_fmap hasAddress Address_of mbind result_bind].
    destruct (address w =? a); [eauto|exact IH]. }
  destruct Hhas as [b ->]. cbn [mbind result_bind]. destruct b; eauto.
Qed.

Lemma RemoveValidator_returns (valSet : weightedCouncil) (ws ps : list weightedValidator)
    (a : Address) :
  validators valSet = Some <$> ws ->
  proposers valSet = Some <$> ps ->
  exists valSet' removed, RemoveValidator valSet a = Returns (valSet', removed).
Proof.
  intros Hws Hps. unfold RemoveValidator.
  assert (Hfilter : forall (vs : weightedCouncil) acc,
            proposers vs = Some <$> ps ->
            exists out,
              forRange (proposers vs) (fun v newProposers =>
                x ← Address_of v;
                if negb (x =? a) then Returns (newProposers ++ [v]) else Returns newProposers)
                acc = Returns out).
  { intros vs acc ->. clear Hps. revert acc.
    induction ps as [|p ps IH]; intros acc; [cbn; eauto|].
    cbn [fmap list_fmap forRange Address_of mbind result_bind].
    destruct (negb (address p =? a)); apply IH. }
  assert (Hloop : forall rest i,
            exists valSet' removed,
              removeValidatorLoop valSet (Some <$> rest) i a = Returns (valSet', removed)).
  { induction rest as [|w rest IH]; intros i; [cbn; eauto|].
    cbn [fmap list_fmap removeValidatorLoop Address_of mbind result_bind].
    destruct (address w =? a); [|apply IH].
    unfold removeValidatorFromProposers.
    destruct (Hfilter (setValidators valSet
                         (take i (validators valSet) ++ drop (S i) (validators valSet)))
                      [] Hps) as [out ->].
    cbn [mbind result_bind]. eauto. }
  rewrite Hws. apply Hloop.
Qed.

(** C3 (amended): the membership of every proposer in [validators] is kept by
    [AddValidator], [RemoveValidator] and [Refresh] (whatever they return).
    [ReplaceValidators] is not among them: it overwrites the validators and
    leaves the proposers as they are. *)
Theorem proposers_membership_preserved (valSet : weightedCouncil) :
  proposersAreValidators valSet ->
  (forall a valSet' added,
     AddValidator valSet a = Returns (valSet', added) -> proposersAreValidators valSet') /\
  (forall a valSet' removed,
     RemoveValidator valSet a = Returns (valSet', removed) -> proposersAreValidators valSet') /\
  (forall hash blockNum valSet' err,
     Refresh randIntn GetStakingInfo Pow CalcGiniCoefficient uint64Unrepresentable
             valSet hash blockNum = Returns (valSet', err) ->
     proposersAreValidators valSet') /\
  (forall vals,
     proposers (fst (ReplaceValidators valSet vals)) = proposers valSet /\
     validators (fst (ReplaceValidators valSet vals)) = vals).
Proof.
  intros Hinv. repeat split.
  - intros a valSet' added. now apply AddValidator_keeps_membership.
  - intros a valSet' removed. now apply RemoveValidator_keeps_membership.
  - intros hash blockNum valSet' err. now apply Refresh_keeps_membership.
Qed.

End RefreshFacts.

(** ** calcWeight *)

Section WeightFacts.

Variable uint64Unrepresentable : float -> Z.


Lemma uint64OfFloat64_range (f : float) :
  0 <= uint64OfFloat64 uint64Unrepresentable f < 2 ^ 64.
Proof.
  assert (Hw : forall x, 0 <= wrap64 x < 2 ^ 64)
    by (intros x; unfold wrap64; apply Z.mod_pos_bound; lia).
  assert (H64 : 0 < 2 ^ 64) by (apply Z.pow_pos_nonneg; lia).
  unfold uint64OfFloat64. destruct (Prim2SF f) as [s|s| |s m e]; try apply Hw; [lia|].
  set (t := if 0 <=? e then _ else _).
  destruct (Z.eqb_spec t 0); [lia|].
  destruct s; [apply Hw|].
  destruct (Z.ltb_spec t (2 ^ 64)); [|apply Hw].
  split; [|assumption]. subst t. destruct (Z.leb_spec 0 e).
  - apply Z.mul_nonneg_nonneg; [lia|]. apply Z.pow_nonneg. lia.
  - apply Z.div_pos; [lia|]. apply Z.pow_pos_nonneg; lia.
Qed.

(** A zero stake has a zero share of every positive total. *)
Lemma roundedShare_zero_stake (total : float) :
  PrimFloat.ltb 0 total = true -> roundedShare uint64Unrepresentable 0 total = 0.
Proof.
  intros Hpos. unfold roundedShare.
  change (0 * 100)%float with 0%float.
  assert (Hz : Prim2SF (0 / total) = S754_zero false).
  { rewrite FloatAxioms.div_spec. rewrite FloatAxioms.ltb_spec in Hpos.
    change (Prim2SF 0) with (S754_zero false) in *.
    destruct (Prim2SF total) as [s|s| |s m e]; try discriminate.
    - destruct s; [discriminate|reflexivity].
    - destruct s; [discriminate|reflexivity]. }
  unfold Round. rewrite Hz. unfold uint64OfFloat64. rewrite Hz. reflexivity.
Qed.


Lemma calcWeight_loop (total : float) (amounts : list float) (vals : list weightedValidator) :
  forall (n : nat) (out : list weightedValidator),
    (n + length vals <= length amounts)%nat ->
    forRange vals (fun weightedVal '(i, out) =>
      amount ← index amounts i;
      let w := uint64OfFloat64 uint64Unrepresentable (Round (amount * 100 / total)%float) in
      let w := if w <=? 0 then 1 else w in
      Returns (i + 1, out ++ [StoreWeight weightedVal w])) (Z.of_nat n, out) =
    Returns (Z.of_nat (n + length vals),
             out ++ zip_with (fun v a => StoreWeight v (flooredWeight uint64Unrepresentable a total))
                             vals (drop n amounts)).
Proof.
  induction vals as [|v vals IH]; intros n out Hlen.
  - cbn [forRange length zip_with]. rewrite Nat.add_0_r, app_nil_r. reflexivity.
  - cbn [forRange length] in *.
    destruct (lookup_lt_is_Some_2 amounts n ltac:(lia)) as [a Ha].
    rewrite (index_of_nat amounts n a Ha).
    cbn [mbind result_bind].
    replace (Z.of_nat n + 1) with (Z.of_nat (S n)) by lia.
    rewrite IH by lia.
    rewrite (drop_S amounts a n Ha). cbn [zip_with].
    rewrite <- app_assoc. cbn [app]. do 3 f_equal. lia.
Qed.

(** C4 (amended): with a positive total, every validator's weight is
    [round(stake * 100 / total)], except that a rounded weight of 0 is
    replaced by 1; this floor also applies to a validator with zero stake,
    whose weight is 1 (not 0). *)
Theorem calcWeight_weights (vals : list weightedValidator) (amounts : list float)
    (total : float) :
  PrimFloat.ltb 0 total = true ->
  (length vals <= length amounts)%nat ->
  exists out,
    calcWeight uint64Unrepresentable vals amounts total = Returns out /\
    length out = length vals /\
    forall (i : nat) v a,
      vals !! i = Some v -> amounts !! i = Some a ->
      exists v',
        out !! i = Some v' /\ address v' = address v /\
        (roundedShare uint64Unrepresentable a total <> 0 -> weight v' = roundedShare uint64Unrepresentable a total) /\
        (roundedShare uint64Unrepresentable a total = 0 -> weight v' = 1) /\
        (a = 0%float -> weight v' = 1).
Proof.
  intros Hpos Hlen.
  exists (zip_with (fun v a => StoreWeight v (flooredWeight uint64Unrepresentable a total)) vals amounts).
  split; [|split].
  - unfold calcWeight. rewrite Hpos.
    pose proof (calcWeight_loop total amounts vals 0 [] Hlen) as Hloop.
    change (Z.of_nat 0) with 0 in Hloop. cbv zeta in Hloop. rewrite Hloop. reflexivity.
  - rewrite length_zip_with. lia.
  - intros i v a Hv Ha. exists (StoreWeight v (flooredWeight uint64Unrepresentable a total)).
    split; [|split; [reflexivity|]].
    + rewrite lookup_zip_with, Hv. cbn. rewrite Ha. reflexivity.
    + cbn [weight StoreWeight]. unfold flooredWeight.
      pose proof (uint64OfFloat64_range (Round (a * 100 / total)%float)) as Hr.
      fold (roundedShare uint64Unrepresentable a total) in Hr.
      repeat split.
      * intros Hnz. destruct (Z.leb_spec (roundedShare uint64Unrepresentable a total) 0); [lia|reflexivity].
      * intros ->. reflexivity.
      * intros ->. rewrite roundedShare_zero_stake by assumption. reflexivity.
Qed.

End WeightFacts.


(** C4 as stated fails: of two validators with stakes 0 and 100, the one with
    zero stake gets weight 1, not 0. *)
Lemma calcWeight_zero_stake_gets_one :
  PrimFloat.ltb 0 100 = true /\
  calcWeight noUint64 [valA; valB] [0%float; 100%float] 100%float =
    Returns [StoreWeight valA 1; StoreWeight valB 100] /\
  (forall out v, calcWeight noUint64 [valA; valB] [0%float; 100%float] 100%float = Returns out ->
                 out !! 0%nat = Some v -> weight v <> 0).
Proof.
  split; [reflexivity|]. split; [vm_compute; reflexivity|].
  intros out v. replace (calcWeight noUint64 [valA; valB] [0%float; 100%float] 100%float)
    with (Returns [StoreWeight valA 1; StoreWeight valB 100]) by (vm_compute; reflexivity).
  intros [= <-] [= <-]. discriminate.
Qed.

Lemma calcWeight_weights_witness :
  PrimFloat.ltb 0 100 = true /\
  (length [valA; valB] <= length [0%float; 100%float])%nat /\
  exists out,
    calcWeight noUint64 [valA; valB] [0%float; 100%float] 100%float = Returns out /\
    length out = 2%nat.
Proof.
  split; [reflexivity|]. split; [cbn; lia|].
  destruct (calcWeight_weights noUint64 [valA; valB] [0%float; 100%float] 100%float
              eq_refl ltac:(cbn; lia)) as (out & Hout & Hlen & _).
  exists out. split; assumption.
Defined.

(** ** Sample councils *)


Lemma councilAB_membership : proposersAreValidators councilAB.
Proof. intros p Hp. exact Hp. Qed.

(** C3 as stated fails: [ReplaceValidators] leaves proposers behind that are
    no longer validators. *)
Lemma ReplaceValidators_breaks_membership :
  proposersAreValidators councilAB /\
  ~ proposersAreValidators (fst (ReplaceValidators councilAB [Some valC])).
Proof.
  split; [exact councilAB_membership|].
  intros H. specialize (H (Some valA)). cbn in H.
  assert (Hin : Some valA ∈ [Some valC]) by (apply H; left).
  apply list_elem_of_singleton in Hin. discriminate.
Qed.

Lemma proposers_membership_preserved_witness :
  proposersAreValidators councilAB /\
  AddValidator councilAB 15 =
    Returns (setValidators councilAB [Some valA; newWeightedValidator 15 0 1000 0; Some valB],
             true) /\
  proposersAreValidators
    (setValidators councilAB [Some valA; newWeightedValidator 15 0 1000 0; Some valB]).
Proof.
  split; [exact councilAB_membership|]. split; [reflexivity|].
  exact (proj1 (proposers_membership_preserved sampleIntn noStakingInfo samplePow sampleGini
                  noUint64 councilAB councilAB_membership) 15 _ true eq_refl).
Defined.

Lemma Refresh_without_staking_info_witness :
  length hashOne = HashLength /\
  proposersBlockNum councilAB <> 7 /\
  validators councilAB <> [] /\
  noStakingInfo (wrap64 (7 + 1)) = None /\
  exists valSet',
    Refresh sampleIntn noStakingInfo samplePow sampleGini noUint64 councilAB hashOne 7
      = Returns (valSet', Some errSkipRefresh) /\
    proposers valSet' = proposers councilAB.
Proof.
  assert (H1 : length hashOne = HashLength) by reflexivity.
  assert (H2 : proposersBlockNum councilAB <> 7) by (cbn; lia).
  assert (H3 : validators councilAB <> []) by discriminate.
  assert (H4 : noStakingInfo (wrap64 (7 + 1)) = None) by reflexivity.
  repeat (split; [assumption|]).
  destruct (Refresh_without_staking_info sampleIntn noStakingInfo samplePow sampleGini
              noUint64 councilAB hashOne 7 H1 H2 H3 H4) as (valSet' & Hr & Hp & _).
  exists valSet'. split; assumption.
Defined.

(** C8, at a list with an address (30) that no validator of the council has:
    the recovery panics with a nil dereference and stores nothing. *)
Theorem Recover_panics_on_unknown_address :
  RecoverWeightedCouncilProposer councilAB [10; 30] = Panics nilDeref.
Proof.
  apply (Recover_unknown_panics councilAB [valA; valB]); [reflexivity|].
  right. left. repeat constructor; discriminate.
Qed.

Example councilOnlyA_reachable :
  ('(valSet, _) ← AddValidator councilA 20; AddValidator valSet 30)
    = Returns (councilOnlyA, true).
Proof. reflexivity. Qed.

(** C5, at a council whose proposers all have the address (10) of the given
    proposer: whatever the fuel, the call is still in its loop. *)
Theorem SubListWithProposer_never_returns :
  forall (calcProposerBlockNumber : Z -> Z) (intn : Z -> Z -> Z -> Z) (round : Z)
         (fuel : nat),
    SubListWithProposer calcProposerBlockNumber intn fuel councilOnlyA hashOne 10 round
      = OutOfFuel.
Proof.
  intros calcProposerBlockNumber intn round fuel.
  apply (SubListWithProposer_stuck calcProposerBlockNumber intn councilOnlyA
           [valA; valB; valC] [valA]); try reflexivity.
  - discriminate.
  - repeat constructor.
  - cbn. left.
  - unfold len. cbn. lia.
Qed.

(** C2 as stated fails for [subSize = size]: the validator list comes back as
    it is, and its first element is not the given proposer (address 20). *)
Lemma SubListWithProposer_full_council_ignores_proposer :
  subSize councilAB = len (validators councilAB) /\
  20 ∈ (address <$> [valA; valB]) /\
  (forall fuel,
     SubListWithProposer sampleCalcProposerBlockNumber sampleIntn fuel councilAB hashOne 20 0
       = Returns [Some valA; Some valB]) /\
  address valA <> 20.
Proof.
  split; [reflexivity|]. split; [right; left|]. split; [reflexivity|discriminate].
Qed.

Lemma sampleIntn_in_range : IntnInRange sampleIntn.
Proof. intros seed draws n Hn. unfold sampleIntn. apply Z.mod_pos_bound. exact Hn. Qed.

Lemma councilABCD_membership : proposersAreValidators councilABCD.
Proof. intros p Hp. exact Hp. Qed.

Lemma SubListWithProposer_committee_witness :
  IntnInRange sampleIntn /\
  NoDup (address <$> [valA; valB; valC; valD]) /\
  proposersAreValidators councilABCD /\
  1 <= subSize councilABCD < len [valA; valB; valC; valD] /\
  exists (fuel : nat) (committee : list weightedValidator),
    SubListWithProposer sampleCalcProposerBlockNumber sampleIntn fuel councilABCD hashOne 10 0
      = Returns (Some <$> committee) /\
    len committee = 3 /\
    NoDup (address <$> committee).
Proof.
  assert (Hnd : NoDup (address <$> [valA; valB; valC; valD])).
  { cbn.
    repeat (apply NoDup_cons_2;
            [intros H; repeat (apply elem_of_cons in H as [H|H]; [discriminate|]);
             now apply elem_of_nil in H|]).
    apply NoDup_nil_2. }
  assert (Hsize : 1 <= subSize councilABCD < len [valA; valB; valC; valD]) by (vm_compute; split; discriminate || reflexivity).
  split; [exact sampleIntn_in_range|]. split; [exact Hnd|].
  split; [exact councilABCD_membership|]. split; [exact Hsize|].
  destruct (proj2 (SubListWithProposer_committee sampleCalcProposerBlockNumber sampleIntn
              councilABCD [valA; valB; valC; valD] [valA; valB; valC; valD] hashOne 10 0
              sampleIntn_in_range eq_refl Hnd eq_refl councilABCD_membership
              ltac:(vm_compute; discriminate) ltac:(vm_compute; reflexivity)
              ltac:(left) eq_refl) Hsize)
    as (fuel & committee & Hrun & Hlen & Hnodup & _).
  { intros _. exists valB. split; [right; left|discriminate]. }
  exists fuel, committee. repeat split; assumption.
Defined.

(** Scenario 1 of the specification, with the sample random source: the
    committee of A is A, the next proposer B, and one of the other two. *)
Example SubListWithProposer_scenario_1 :
  SubListWithProposer sampleCalcProposerBlockNumber sampleIntn 7 councilABCD hashOne 10 0
    = Returns [Some valA; Some valB; Some valC].
Proof. vm_compute. reflexivity. Qed.

(* ===================================================================== *)
(** * Part III: further properties *)
(* ===================================================================== *)

(** ** Lists *)

Lemma map_is_fmap {A B} (f : A -> B) (l : list A) : map f l = f <$> l.
Proof. induction l as [|x l IH]; [reflexivity|]. cbn. now rewrite IH. Qed.

Lemma Permutation_fmap_inv {A B} (f : A -> B) (l : list B) (k : list A) :
  l ≡ₚ f <$> k -> exists k', l = f <$> k' /\ k' ≡ₚ k.
Proof.
  intros H. rewrite <- map_is_fmap in H.
  destruct (Permutation_map_inv f k H) as (k' & -> & Hk').
  exists k'. split; [apply map_is_fmap|now symmetry].
Qed.

Lemma Sorted_fmap_inv {A B} (f : A -> B) (R : relation B) (l : list A) :
  Sorted R (f <$> l) -> Sorted (fun x y => R (f x) (f y)) l.
Proof.
  induction l as [|x l IH]; intros H; [constructor|].
  cbn in H. inversion H as [|? ? Hs Hh]; subst. constructor; [auto|].
  destruct l as [|y l]; constructor. now inversion Hh.
Qed.

Lemma StronglySorted_delete {A} (R : relation A) (l : list A) (i : nat) :
  StronglySorted R l -> StronglySorted R (delete i l).
Proof.
  intros H. revert i. induction H as [|x l Hl IH Hx]; intros [|i]; cbn;
    [constructor|constructor|assumption|].
  constructor; [apply IH|now apply Forall_delete].
Qed.

Lemma filter_all {A} (P : A -> Prop) `{forall x, Decision (P x)} (l : list A) :
  Forall P l -> filter P l = l.
Proof.
  induction 1 as [|x l Hx _ IH]; [reflexivity|].
  rewrite filter_cons_True by assumption. now rewrite IH.
Qed.

Lemma same_address_same_validator (ws : list weightedValidator) (x y : weightedValidator) :
  NoDup (address <$> ws) -> x ∈ ws -> y ∈ ws -> address x = address y -> x = y.
Proof.
  intros Hnd Hx Hy Heq.
  apply list_elem_of_lookup in Hx as [i Hi]. apply list_elem_of_lookup in Hy as [j Hj].
  pose proof (address_determines_index ws i j x y Hnd Hi Hj Heq) as ->. congruence.
Qed.

#[local] Instance byAddress_transitive : Transitive byAddress.
Proof. intros x y z. unfold byAddress. lia. Qed.

#[local] Instance validatorLe_total : Total validatorLe.
Proof. intros x y. unfold validatorLe. lia. Qed.

(** ** Lookups in the council *)

Lemma find_at_index (ws : list weightedValidator) (i : nat) (w : weightedValidator) :
  NoDup (address <$> ws) -> ws !! i = Some w ->
  list_find (fun v => address v = address w) ws = Some (i, w).
Proof.
  intros Hnd Hi. apply list_find_Some. split; [exact Hi|]. split; [reflexivity|].
  intros j y Hj Hlt Heq.
  pose proof (address_determines_index ws j i y w Hnd Hj Hi Heq). lia.
Qed.

(** X1: with pairwise distinct addresses, looking a validator up by its
    address gives its index and the validator, and [GetByIndex] at that index
    gives it back; an address that no validator has gives [-1] and nil, and
    an index from the size on gives nil. *)
Theorem getByAddress_GetByIndex (valSet : weightedCouncil) (ws : list weightedValidator) :
  validators valSet = Some <$> ws ->
  NoDup (address <$> ws) ->
  (forall (i : nat) w, ws !! i = Some w ->
     getByAddress valSet (address w) = Returns (Z.of_nat i, Some w) /\
     GetByIndex valSet (Z.of_nat i) = Some w) /\
  (forall i a w, getByAddress valSet a = Returns (i, Some w) ->
     address w = a /\ GetByIndex valSet i = Some w) /\
  (forall a, a ∉ (address <$> ws) -> getByAddress valSet a = Returns (-1, None)) /\
  (forall i, len ws <= i -> GetByIndex valSet i = None).
Proof.
  intros Hws Hnd.
  assert (Hidx : forall (i : nat) w, ws !! i = Some w -> GetByIndex valSet (Z.of_nat i) = Some w).
  { intros i w Hi. unfold GetByIndex. rewrite Hws, len_fmap.
    apply lookup_lt_Some in Hi as Hlt.
    replace (Z.of_nat i <? len ws) with true by (symmetry; apply Z.ltb_lt; unfold len; lia).
    now rewrite Nat2Z.id, list_lookup_fmap, Hi. }
  repeat split.
  - unfold getByAddress. rewrite Hws, getByAddressFrom_find, (find_at_index ws i w Hnd H).
    reflexivity.
  - now apply Hidx.
  - unfold getByAddress in H. rewrite Hws, getByAddressFrom_find in H.
    destruct (list_find _ ws) as [[n v]|] eqn:Hf; [|discriminate].
    injection H as <- <-. apply list_find_Some in Hf as (_ & Ha & _). exact Ha.
  - unfold getByAddress in H. rewrite Hws, getByAddressFrom_find in H.
    destruct (list_find _ ws) as [[n v]|] eqn:Hf; [|discriminate].
    injection H as <- <-. apply list_find_Some in Hf as (Hn & _ & _).
    rewrite Z.add_0_l. now apply Hidx.
  - intros a Ha. unfold getByAddress. rewrite Hws, getByAddressFrom_find.
    rewrite (proj2 (list_find_None _ ws)); [reflexivity|].
    apply Forall_forall. intros w Hw Heq. apply Ha.
    apply list_elem_of_fmap. eauto.
  - intros i Hi. unfold GetByIndex. rewrite Hws, len_fmap.
    now replace (i <? len ws) with false by (symmetry; apply Z.ltb_ge; lia).
Qed.

(** ** AddValidator and RemoveValidator *)

Lemma hasAddress_decides (ws : list weightedValidator) (a : Address) :
  hasAddress (Some <$> ws) a = Returns (bool_decide (a ∈ (address <$> ws))).
Proof.
  induction ws as [|w ws IH]; [reflexivity|].
  cbn [fmap list_fmap hasAddress Address_of mbind result_bind].
  destruct (Z.eqb_spec (address w) a) as [Heq|Hne].
  - rewrite bool_decide_eq_true_2; [reflexivity|]. rewrite <- Heq. left.
  - change (hasAddress (list_fmap _ _ Some ws) a) with (hasAddress (Some <$> ws) a).
    rewrite IH. f_equal. apply bool_decide_ext.
    change (list_fmap _ _ address ws) with (address <$> ws).
    rewrite elem_of_cons. split; [auto|]. intros [Heq|Hin]; [congruence|exact Hin].
Qed.

Lemma AddValidator_known (valSet : weightedCouncil) (ws : list weightedValidator)
    (a : Address) :
  validators valSet = Some <$> ws -> a ∈ (address <$> ws) ->
  AddValidator valSet a = Returns (valSet, false).
Proof.
  intros Hws Ha. unfold AddValidator. rewrite Hws, hasAddress_decides.
  now rewrite bool_decide_eq_true_2.
Qed.

Lemma AddValidator_new (valSet : weightedCouncil) (ws : list weightedValidator)
    (a : Address) :
  validators valSet = Some <$> ws -> a ∉ (address <$> ws) ->
  exists ws',
    AddValidator valSet a = Returns (setValidators valSet (Some <$> ws'), true) /\
    ws' ≡ₚ defaultValidator a :: ws /\
    Sorted byAddress ws' /\
    (NoDup (address <$> ws) -> NoDup (address <$> ws')).
Proof.
  intros Hws Ha. unfold AddValidator. rewrite Hws, hasAddress_decides.
  rewrite bool_decide_eq_false_2 by assumption. cbn [mbind result_bind].
    destruct (Permutation_fmap_inv Some
                (sortValidators ((Some <$> ws) ++ [newWeightedValidator a 0 1000 0]))
                (ws ++ [defaultValidator a])) as (ws' & Hsorted & Hperm).
    { unfold sortValidators. rewrite merge_sort_Permutation, fmap_app. reflexivity. }
    exists ws'. rewrite Hsorted. split; [reflexivity|].
    assert (Hperm' : ws' ≡ₚ defaultValidator a :: ws)
      by (rewrite Hperm; symmetry; apply Permutation_cons_append).
    split; [exact Hperm'|]. split.
    + apply (Sorted_fmap_inv Some validatorLe). rewrite <- Hsorted.
      apply Sorted_merge_sort. apply _.
    + intros Hnd. rewrite Hperm'. cbn [fmap list_fmap]. apply NoDup_cons_2; assumption.
Qed.

(** X2: [AddValidator] refuses an address that a validator has, returning
    false and the council as it is; for any other address it returns true
    and a validator list that is sorted by address and holds the old
    validators and a new one with the zero reward address, voting power 1000
    and weight 0. Pairwise distinct addresses stay pairwise distinct, and the
    proposers are not touched. *)
Theorem AddValidator_spec (valSet : weightedCouncil) (ws : list weightedValidator)
    (a : Address) :
  validators valSet = Some <$> ws ->
  (a ∈ (address <$> ws) -> AddValidator valSet a = Returns (valSet, false)) /\
  (a ∉ (address <$> ws) ->
   exists ws',
     AddValidator valSet a = Returns (setValidators valSet (Some <$> ws'), true) /\
     ws' ≡ₚ defaultValidator a :: ws /\
     Sorted byAddress ws' /\
     (NoDup (address <$> ws) -> NoDup (address <$> ws'))).
Proof.
  intros Hws. split; intros Ha.
  - exact (AddValidator_known valSet ws a Hws Ha).
  - exact (AddValidator_new valSet ws a Hws Ha).
Qed.

Lemma filterProposers_loop (a : Address) (ps : list weightedValidator) :
  forall acc : list Validator,
    forRange (Some <$> ps) (fun v newProposers =>
      x ← Address_of v;
      if negb (x =? a) then Returns (newProposers ++ [v]) else Returns newProposers) acc
    = Returns (acc ++ (Some <$> filter (fun p => address p <> a) ps)).
Proof.
  induction ps as [|p ps IH]; intros acc; [cbn; now rewrite app_nil_r|].
  cbn [fmap list_fmap forRange Address_of mbind result_bind].
  change (list_fmap _ _ Some ps) with (Some <$> ps).
  destruct (Z.eqb_spec (address p) a) as [Heq|Hne]; cbn [negb].
  - rewrite filter_cons_False by tauto. apply IH.
  - rewrite filter_cons_True by assumption. etransitivity; [apply IH|].
    cbn [fmap list_fmap]. now rewrite <- app_assoc.
Qed.

Lemma removeValidatorLoop_find (valSet : weightedCouncil) (ps : list weightedValidator)
    (a : Address) :
  proposers valSet = Some <$> ps ->
  forall (rest : list weightedValidator) (i : nat),
    removeValidatorLoop valSet (Some <$> rest) i a =
    Returns (match list_find (fun w => address w = a) rest with
             | Some (j, _) =>
                 (setProposers
                    (setValidators valSet (delete (i + j)%nat (validators valSet)))
                    (Some <$> filter (fun p => address p <> a) ps), true)
             | None => (valSet, false)
             end).
Proof.
  intros Hps. induction rest as [|w rest IH]; intros i; [reflexivity|].
  cbn [fmap list_fmap removeValidatorLoop Address_of mbind result_bind list_find].
  change (list_fmap _ _ Some rest) with (Some <$> rest).
  destruct (Z.eqb_spec (address w) a) as [Heq|Hne].
  - rewrite decide_True by assumption.
    unfold removeValidatorFromProposers. cbn [proposers setValidators].
    rewrite Hps, filterProposers_loop. cbn [mbind result_bind app].
    rewrite Nat.add_0_r, delete_take_drop. reflexivity.
  - rewrite decide_False by assumption. rewrite IH.
    destruct (list_find _ rest) as [[j v]|]; cbn; [|reflexivity].
    now rewrite Nat.add_succ_r.
Qed.

Lemma RemoveValidator_run (valSet : weightedCouncil) (ws ps : list weightedValidator)
    (a : Address) :
  validators valSet = Some <$> ws ->
  proposers valSet = Some <$> ps ->
  RemoveValidator valSet a =
    Returns (match list_find (fun w => address w = a) ws with
             | Some (j, _) =>
                 (setProposers (setValidators valSet (Some <$> delete j ws))
                               (Some <$> filter (fun p => address p <> a) ps), true)
             | None => (valSet, false)
             end).
Proof.
  intros Hws Hps. unfold RemoveValidator. rewrite Hws at 1.
  rewrite (removeValidatorLoop_find valSet ps a Hps ws 0).
  destruct (list_find _ ws) as [[j v]|]; [|reflexivity].
  now rewrite Hws, <- list_fmap_delete.
Qed.

Lemma RemoveValidator_known (valSet : weightedCouncil) (ws ps : list weightedValidator)
    (a : Address) :
  validators valSet = Some <$> ws ->
  proposers valSet = Some <$> ps ->
  a ∈ (address <$> ws) ->
  exists (i : nat) w,
    ws !! i = Some w /\ address w = a /\
    RemoveValidator valSet a =
      Returns (setProposers (setValidators valSet (Some <$> delete i ws))
                            (Some <$> filter (fun p => address p <> a) ps), true).
Proof.
  intros Hws Hps Ha. rewrite (RemoveValidator_run valSet ws ps a Hws Hps).
  destruct (find_by_address ws a Ha) as (i & w & Hfind & Hi & Hw).
  exists i, w. now rewrite Hfind.
Qed.


(** X4: adding a validator with a new address and removing it again gives
    the council back, in a council whose validators are sorted by address
    with pairwise distinct addresses and none of whose proposers has the
    address. *)
Theorem AddValidator_RemoveValidator (valSet : weightedCouncil)
    (ws ps : list weightedValidator) (a : Address) :
  validators valSet = Some <$> ws ->
  proposers valSet = Some <$> ps ->
  Sorted byAddress ws ->
  NoDup (address <$> ws) ->
  a ∉ (address <$> ws) ->
  a ∉ (address <$> ps) ->
  ('(valSet1, _) ← AddValidator valSet a; RemoveValidator valSet1 a)
    = Returns (valSet, true).
Proof.
  intros Hws Hps Hsorted Hnd Ha Hpa.
  destruct (AddValidator_new valSet ws a Hws Ha) as (ws' & -> & Hperm & Hsorted' & Hnd').
  specialize (Hnd' Hnd). cbn [mbind result_bind].
  assert (Ha' : a ∈ (address <$> ws')) by (rewrite Hperm; left).
  destruct (RemoveValidator_known (setValidators valSet (Some <$> ws')) ws' ps a
              eq_refl Hps Ha') as (i & w & Hi & Hw & ->).
  assert (Hwnew : w = defaultValidator a).
  { apply (same_address_same_validator ws'); [assumption| | |assumption].
    - eapply list_elem_of_lookup_2, Hi.
    - rewrite Hperm. left. }
  subst w.
  assert (Hdel : delete i ws' ≡ₚ ws).
  { apply (Permutation_cons_inv (a := defaultValidator a)).
    rewrite <- Hperm. symmetry. now apply delete_Permutation. }
  assert (Heq : delete i ws' = ws).
  { apply (StronglySorted_unique_strong byAddress); [| | |exact Hdel].
    - intros x y Hx Hy Hxy Hyx. rewrite Hdel in Hx.
      apply (same_address_same_validator ws); [assumption..|].
      unfold byAddress in *. lia.
    - apply StronglySorted_delete, Sorted_StronglySorted; [apply _|assumption].
    - apply Sorted_StronglySorted; [apply _|assumption]. }
  rewrite Heq, filter_all.
  - destruct valSet. cbn in *. subst. reflexivity.
  - apply Forall_forall. intros p Hp Hpeq. apply Hpa. apply list_elem_of_fmap. eauto.
Qed.

(** ** The proposer of a round *)

Lemma index_in_range {A} (s : list A) (i : Z) :
  0 <= i < len s -> exists x, index s i = Returns x /\ s !! Z.to_nat i = Some x.
Proof.
  unfold len. intros Hi.
  destruct (lookup_lt_is_Some_2 s (Z.to_nat i) ltac:(lia)) as [x Hx].
  exists x. split; [|exact Hx].
  rewrite <- (Z2Nat.id i) by lia. now apply index_of_nat.
Qed.

Lemma len_pos {A} (s : list A) : s <> [] -> 0 < len s.
Proof. destruct s; [congruence|]. unfold len. cbn. lia. Qed.

Section ProposerFacts.

Variable CalcProposerBlockNumber : Z -> Z.

Lemma weightedRandomProposer_at (valSet : weightedCouncil) (ps : list weightedValidator)
    (lastProposer : Address) (round : Z) :
  proposers valSet = Some <$> ps -> ps <> [] ->
  exists w,
    weightedRandomProposer CalcProposerBlockNumber valSet lastProposer round
      = Returns (Some w) /\
    ps !! Z.to_nat (pickAt CalcProposerBlockNumber valSet round) = Some w.
Proof.
  intros Hps Hne. unfold weightedRandomProposer.
  fold (pickAt CalcProposerBlockNumber valSet round).
  assert (Hn : 0 < len (proposers valSet)) by (rewrite Hps, len_fmap; now apply len_pos).
  replace (len (proposers valSet) =? 0) with false by (symmetry; apply Z.eqb_neq; lia).
  destruct (index_in_range (proposers valSet) (pickAt CalcProposerBlockNumber valSet round))
    as (x & Hx & Hlook); [apply Z.mod_pos_bound; exact Hn|].
  rewrite Hps, list_lookup_fmap in Hlook.
  destruct (ps !! _) as [w|] eqn:Hw; [|discriminate]. injection Hlook as <-.
  exists w. split; [exact Hx|reflexivity].
Qed.

Lemma chooseProposerByRoundRobin_pick (valSet : weightedCouncil)
    (ws : list weightedValidator) (lastProposer : Address) (round : Z) :
  validators valSet = Some <$> ws -> ws <> [] ->
  exists w,
    chooseProposerByRoundRobin valSet lastProposer round = Returns (Some w) /\
    ws !! Z.to_nat (roundRobinPick ws lastProposer round) = Some w.
Proof.
  intros Hws Hne. pose proof (len_pos ws Hne) as Hn.
  assert (Hrun : forall seed,
            (if len (validators valSet) =? 0 then Panics "integer divide by zero"
             else index (validators valSet) (seed mod len (validators valSet)))
            = Returns (ws !! Z.to_nat (seed mod len ws)) /\
            is_Some (ws !! Z.to_nat (seed mod len ws))).
  { intros seed. rewrite Hws, len_fmap. unfold Validator.
    replace (len ws =? 0) with false by (symmetry; apply Z.eqb_neq; lia).
    destruct (index_in_range (Some <$> ws) (seed mod len ws)) as (x & Hx & Hlook);
      [rewrite len_fmap; apply Z.mod_pos_bound; exact Hn|].
    rewrite list_lookup_fmap in Hlook. rewrite Hx.
    destruct (ws !! _) as [w|]; [|discriminate]. injection Hlook as <-. eauto. }
  unfold chooseProposerByRoundRobin, roundRobinPick, emptyAddress, getByAddress.
  destruct (lastProposer =? 0).
  - cbn [mbind result_bind]. destruct (Hrun round) as [-> [w Hw]].
    exists w. now rewrite Hw.
  - pose proof (getByAddressFrom_find ws 0 lastProposer) as Hfind.
    rewrite <- Hws in Hfind. rewrite Hfind. clear Hfind.
    destruct (list_find _ ws) as [[i v]|]; cbn [mbind result_bind];
      match goal with |- context [wrap64 ?e] =>
        destruct (Hrun (wrap64 e)) as [-> [w Hw]] end.
    + exists w. rewrite Hw. split; [reflexivity|].
      now replace (Z.of_nat i + round) with (0 + Z.of_nat i + round) by lia.
    + exists w. now rewrite Hw.
Qed.

(** X5: on a council without nil handles [CalcProposer] always returns and
    stores a proposer: the proposer sequence at the index of the round when
    the sequence is not empty, else the validator that the round-robin index
    names, else (no validator either) a new validator with the address of the
    last proposer and no voting power. Nothing but the proposer changes. *)
Theorem CalcProposer_selects (valSet : weightedCouncil) (ws ps : list weightedValidator)
    (lastProposer : Address) (round : Z) :
  validators valSet = Some <$> ws ->
  proposers valSet = Some <$> ps ->
  exists p,
    CalcProposer CalcProposerBlockNumber valSet lastProposer round
      = Returns (setProposer valSet (Some p)) /\
    (ps <> [] -> ps !! Z.to_nat (pickAt CalcProposerBlockNumber valSet round) = Some p) /\
    (ps = [] -> ws <> [] -> ws !! Z.to_nat (roundRobinPick ws lastProposer round) = Some p) /\
    (ps = [] -> ws = [] -> p = mkValidator lastProposer 0 0 0).
Proof.
  intros Hws Hps. unfold CalcProposer.
  destruct ps as [|p0 ps].
  - unfold weightedRandomProposer. rewrite Hps. cbn [fmap list_fmap len length Z.of_nat Z.eqb].
    cbn [mbind result_bind]. destruct ws as [|w0 ws].
    + rewrite Hws. cbn. exists (mkValidator lastProposer 0 0 0).
      repeat split; congruence.
    + destruct (chooseProposerByRoundRobin_pick valSet (w0 :: ws) lastProposer round Hws
                  ltac:(discriminate)) as (w & Hrr & Hw).
      replace (len (validators valSet) =? 0) with false
        by (symmetry; apply Z.eqb_neq; rewrite Hws; unfold len; cbn; lia).
      rewrite Hrr. cbn. exists w. repeat split; congruence.
  - destruct (weightedRandomProposer_at valSet (p0 :: ps) lastProposer round Hps
                ltac:(discriminate)) as (w & -> & Hw).
    cbn. exists w. repeat split; congruence.
Qed.

(** X6: when the stored proposer is one of the validators and the validator
    addresses are pairwise distinct, [IsProposer] holds for the address of
    the proposer and for no other address. *)
Theorem IsProposer_address (valSet : weightedCouncil) (ws : list weightedValidator)
    (p : weightedValidator) (a : Address) :
  validators valSet = Some <$> ws ->
  NoDup (address <$> ws) ->
  proposer valSet = Some p ->
  p ∈ ws ->
  IsProposer valSet a = Returns (bool_decide (address p = a)).
Proof.
  intros Hws Hnd Hp Hin. unfold IsProposer, GetByAddress, getByAddress, GetProposer.
  rewrite Hws, getByAddressFrom_find, Hp.
  destruct (list_find _ ws) as [[i w]|] eqn:Hf; cbn [mbind result_bind]; f_equal.
  - apply list_find_Some in Hf as (Hi & Hw & _).
    apply bool_decide_ext. split; [intros [= ->]; exact Hw|].
    intros Hpa. f_equal. apply (same_address_same_validator ws); try assumption.
    + eapply list_elem_of_lookup_2, Hi.
    + congruence.
  - apply list_find_None in Hf. rewrite Forall_forall in Hf.
    rewrite bool_decide_eq_false_2 by discriminate. symmetry.
    apply bool_decide_eq_false_2. exact (Hf p Hin).
Qed.

Lemma rotate_Permutation {A} (n : nat) (l : list A) : rotate n l ≡ₚ l.
Proof.
  unfold rotate. rewrite Permutation_app_comm. now rewrite take_drop.
Qed.

(** X7: over as many consecutive rounds as there are proposers, the
    selector walks once through the proposer sequence, starting at the index
    of the first of these rounds: the validators selected are the sequence
    rotated, so each validator is selected as often as it occurs in the
    sequence. This holds while the running index does not wrap around
    2^64. *)
Theorem weightedRandomProposer_window (valSet : weightedCouncil)
    (ps : list weightedValidator) (lastProposer : Address) (round : Z) :
  let base := wrap64 (wrap64 (blockNum valSet + round)
                      - CalcProposerBlockNumber (wrap64 (blockNum valSet + 1))) in
  proposers valSet = Some <$> ps ->
  base + len ps <= 2 ^ 64 ->
  rotate (Z.to_nat base) ps ≡ₚ ps /\
  forall k : nat, (k < length ps)%nat ->
    weightedRandomProposer CalcProposerBlockNumber valSet lastProposer (round + Z.of_nat k)
      = Returns (rotate (Z.to_nat base) ps !! k).
Proof.
  intros base Hps Hfit. split; [apply rotate_Permutation|]. intros k Hk.
  assert (Hne : ps <> []) by (destruct ps; [cbn in Hk; lia|discriminate]).
  destruct (weightedRandomProposer_at valSet ps lastProposer (round + Z.of_nat k) Hps Hne)
    as (w & -> & Hw).
  f_equal. rewrite lookup_rotate_r by exact Hk. rewrite <- Hw. f_equal.
  assert (HW : 0 < 2 ^ 64) by (apply Z.pow_pos_nonneg; lia).
  assert (Hbase : 0 <= base < 2 ^ 64) by (apply Z.mod_pos_bound; exact HW).
  assert (Heq : wrap64 (wrap64 (blockNum valSet + (round + Z.of_nat k))
                        - CalcProposerBlockNumber (wrap64 (blockNum valSet + 1)))
                = base + Z.of_nat k).
  { subst base. unfold len in Hfit.
    set (b := blockNum valSet) in *. set (D := CalcProposerBlockNumber _) in *.
    unfold wrap64 in *. rewrite !Zminus_mod_idemp_l in *.
    replace (b + (round + Z.of_nat k) - D) with ((b + round - D) + Z.of_nat k) by lia.
    rewrite <- Zplus_mod_idemp_l. apply Z.mod_small. lia. }
  unfold rotate_nat_add, pickAt. rewrite Heq, Hps, len_fmap. unfold len.
  rewrite Z2Nat.id by lia. reflexivity.
Qed.

End ProposerFacts.

(** ** Voting power *)

Lemma sumZ_Permutation (l k : list Z) : l ≡ₚ k -> sumZ l = sumZ k.
Proof. unfold sumZ. induction 1; cbn; lia. Qed.

Lemma TotalVotingPower_loop (ws : list weightedValidator) :
  forall acc : Z,
    forRange (Some <$> ws) (fun v sum =>
      vp ← VotingPower_of v;
      Returns (wrap64 (sum + vp))) acc
    = Returns (match ws with
               | [] => acc
               | _ => wrap64 (acc + sumZ (votingPower <$> ws))
               end).
Proof.
  induction ws as [|w ws IH]; intros acc; [reflexivity|].
  cbn [fmap list_fmap forRange VotingPower_of mbind result_bind].
  change (list_fmap _ _ Some ws) with (Some <$> ws). rewrite IH.
  destruct ws as [|w' ws]; unfold sumZ; cbn [fmap list_fmap foldr].
  - f_equal. f_equal. lia.
  - f_equal. unfold wrap64. rewrite Zplus_mod_idemp_l. f_equal. lia.
Qed.

Lemma TotalVotingPower_run (valSet : weightedCouncil) (ws : list weightedValidator) :
  validators valSet = Some <$> ws ->
  TotalVotingPower valSet = Returns (wrap64 (sumZ (votingPower <$> ws))).
Proof.
  intros Hws. unfold TotalVotingPower, List. rewrite Hws, TotalVotingPower_loop.
  destruct ws; reflexivity.
Qed.

(** X8: the total voting power is the sum of the validators' voting powers,
    in 64-bit arithmetic; adding a validator with a new address raises it by
    1000. *)
Theorem TotalVotingPower_sum (valSet : weightedCouncil) (ws : list weightedValidator)
    (a : Address) :
  validators valSet = Some <$> ws ->
  TotalVotingPower valSet = Returns (wrap64 (sumZ (votingPower <$> ws))) /\
  (a ∉ (address <$> ws) ->
   ('(valSet1, _) ← AddValidator valSet a; TotalVotingPower valSet1)
     = Returns (wrap64 (sumZ (votingPower <$> ws) + 1000))).
Proof.
  intros Hws. split; [now apply TotalVotingPower_run|]. intros Ha.
  destruct (AddValidator_new valSet ws a Hws Ha) as (ws' & -> & Hperm & _).
  cbn [mbind result_bind].
  rewrite (TotalVotingPower_run (setValidators valSet (Some <$> ws')) ws' eq_refl).
  rewrite (sumZ_Permutation (votingPower <$> ws') (votingPower <$> (defaultValidator a :: ws)))
    by (now rewrite Hperm).
  unfold sumZ. cbn [fmap list_fmap foldr defaultValidator votingPower].
  f_equal. f_equal. lia.
Qed.

(** ** Construction and the snapshot data *)

Lemma initValidators_zip (addrs : list Address) :
  forall (i : nat) (rs : list Address) (vps wts : list Z),
    (i + length addrs <= length rs)%nat ->
    (i + length addrs <= length vps)%nat ->
    (i + length addrs <= length wts)%nat ->
    initValidators addrs (Z.of_nat i) rs vps wts
      = Returns (Some <$> validatorsOf addrs (drop i rs) (drop i vps) (drop i wts)).
Proof.
  induction addrs as [|a addrs IH]; intros i rs vps wts Hr Hv Hw; [reflexivity|].
  cbn [initValidators length] in *.
  destruct (lookup_lt_is_Some_2 rs i ltac:(lia)) as [r Hri].
  destruct (lookup_lt_is_Some_2 vps i ltac:(lia)) as [vp Hvi].
  destruct (lookup_lt_is_Some_2 wts i ltac:(lia)) as [w Hwi].
  rewrite (index_of_nat _ _ _ Hri), (index_of_nat _ _ _ Hvi), (index_of_nat _ _ _ Hwi).
  cbn [mbind result_bind].
  replace (Z.of_nat i + 1) with (Z.of_nat (S i)) by lia.
  rewrite IH by lia. cbn [mbind result_bind].
  rewrite (drop_S rs r i Hri), (drop_S vps vp i Hvi), (drop_S wts w i Hwi).
  reflexivity.
Qed.

Lemma sorted_by_address_unique (l k : list weightedValidator) :
  Sorted byAddress l -> Sorted byAddress k -> NoDup (address <$> k) -> l ≡ₚ k -> l = k.
Proof.
  intros Hl Hk Hnd Hperm.
  apply (StronglySorted_unique_strong byAddress); [| | |exact Hperm].
  - intros x y Hx Hy Hxy Hyx. rewrite Hperm in Hx.
    apply (same_address_same_validator k); [assumption..|].
    unfold byAddress in *. lia.
  - apply Sorted_StronglySorted; [apply _|assumption].
  - apply Sorted_StronglySorted; [apply _|assumption].
Qed.

Lemma NewWeightedCouncil_run (addrs rs : list Address) (vps wts : list Z)
    (committeeSize blockNum proposersBlockNum : Z) (chainIsNil : bool) :
  length rs = length addrs -> length vps = length addrs -> length wts = length addrs ->
  exists ws,
    NewWeightedCouncil addrs (Some rs) (Some vps) (Some wts) WeightedRandom
                       committeeSize blockNum proposersBlockNum chainIsNil
      = Returns (Some (mkCouncil committeeSize (Some <$> ws) (head ws) (Some <$> ws)
                                 proposersBlockNum None blockNum)) /\
    ws ≡ₚ validatorsOf addrs rs vps wts /\
    Sorted byAddress ws.
Proof.
  intros Hr Hv Hw. unfold NewWeightedCouncil. cbn [mbind result_bind].
  unfold len. rewrite Hr, Hv, Hw, Z.eqb_refl. cbn [negb orb].
  pose proof (initValidators_zip addrs 0 rs vps wts ltac:(cbn; lia) ltac:(cbn; lia)
                ltac:(cbn; lia)) as Hinit.
  rewrite !drop_0 in Hinit. change (Z.of_nat 0) with 0 in Hinit. rewrite Hinit.
  cbn [mbind result_bind].
  destruct (Permutation_fmap_inv Some (sortValidators (Some <$> validatorsOf addrs rs vps wts))
              (validatorsOf addrs rs vps wts)) as (ws & Hsorted & Hperm).
  { unfold sortValidators. now rewrite merge_sort_Permutation. }
  exists ws. rewrite Hsorted. split; [|split; [exact Hperm|]].
  - f_equal. f_equal. f_equal. unfold Size, GetByIndex. cbn [validators].
    destruct ws as [|w ws]; reflexivity.
  - apply (Sorted_fmap_inv Some validatorLe). rewrite <- Hsorted.
    apply Sorted_merge_sort. apply _.
Qed.

(** X9: [NewWeightedCouncil] returns the nil council for a policy other
    than weighted random and for slices whose lengths differ. Otherwise the
    council has one validator per address, with the reward address, voting
    power and weight at the same index, sorted by address; its proposers are
    its validators, its proposer is the first validator (none in an empty
    council), and it has no staking info. *)
Theorem NewWeightedCouncil_spec (addrs rs : list Address) (vps wts : list Z)
    (policy : ProposerPolicy) (committeeSize blockNum proposersBlockNum : Z)
    (chainIsNil : bool) :
  (policy <> WeightedRandom ->
   NewWeightedCouncil addrs (Some rs) (Some vps) (Some wts) policy
                      committeeSize blockNum proposersBlockNum chainIsNil = Returns None) /\
  (length rs <> length addrs \/ length vps <> length addrs \/ length wts <> length addrs ->
   NewWeightedCouncil addrs (Some rs) (Some vps) (Some wts) policy
                      committeeSize blockNum proposersBlockNum chainIsNil = Returns None) /\
  (policy = WeightedRandom ->
   length rs = length addrs -> length vps = length addrs -> length wts = length addrs ->
   exists ws,
     NewWeightedCouncil addrs (Some rs) (Some vps) (Some wts) policy
                        committeeSize blockNum proposersBlockNum chainIsNil
       = Returns (Some (mkCouncil committeeSize (Some <$> ws) (head ws) (Some <$> ws)
                                  proposersBlockNum None blockNum)) /\
     ws ≡ₚ validatorsOf addrs rs vps wts /\
     Sorted byAddress ws).
Proof.
  split; [|split].
  - intros Hp. destruct policy; [reflexivity..|congruence].
  - intros Hlen. destruct policy; try reflexivity.
    unfold NewWeightedCouncil, len. cbn [mbind result_bind].
    destruct (Z.eqb_spec (Z.of_nat (length addrs)) (Z.of_nat (length rs)));
      [|reflexivity].
    destruct (Z.eqb_spec (Z.of_nat (length addrs)) (Z.of_nat (length vps)));
      [|reflexivity].
    destruct (Z.eqb_spec (Z.of_nat (length addrs)) (Z.of_nat (length wts)));
      [|reflexivity].
    lia.
  - intros -> Hr Hv Hw. now apply NewWeightedCouncil_run.
Qed.

Lemma validatorsOf_replicate (addrs : list Address) (r vp w : Z) :
  validatorsOf addrs (replicate (length addrs) r) (replicate (length addrs) vp)
               (replicate (length addrs) w)
  = (fun a => mkValidator a r vp w) <$> addrs.
Proof.
  unfold validatorsOf. induction addrs as [|a addrs IH]; [reflexivity|].
  cbn. f_equal. exact IH.
Qed.

(** X10: without reward addresses, voting powers and weights,
    [NewWeightedCouncil] needs a chain: without one it ends the process;
    with one, every validator gets the zero reward address, voting power
    1000 and weight 0. *)
Theorem NewWeightedCouncil_defaults (addrs : list Address)
    (committeeSize blockNum proposersBlockNum : Z) :
  NewWeightedCouncil addrs None None None WeightedRandom
                     committeeSize blockNum proposersBlockNum true
    = Panics "Requires chain to initialize voting powers." /\
  exists ws,
    NewWeightedCouncil addrs None None None WeightedRandom
                       committeeSize blockNum proposersBlockNum false
      = Returns (Some (mkCouncil committeeSize (Some <$> ws) (head ws) (Some <$> ws)
                                 proposersBlockNum None blockNum)) /\
    ws ≡ₚ defaultValidator <$> addrs /\
    Sorted byAddress ws.
Proof.
  split; [reflexivity|].
  destruct (NewWeightedCouncil_run addrs (replicate (length addrs) 0)
              (replicate (length addrs) 1000) (replicate (length addrs) 0)
              committeeSize blockNum proposersBlockNum false)
    as (ws & Hrun & Hperm & Hsorted); try apply length_replicate.
  exists ws. split; [exact Hrun|]. split; [|exact Hsorted].
  now rewrite Hperm, validatorsOf_replicate.
Qed.

Lemma GetWeightedCouncilData_validators (ws : list weightedValidator) :
  forall (vals rewardAddrs : list Address) (votingPowers weights : list Z),
    forRange (Some <$> ws) (fun val '(vals, rewardAddrs, votingPowers, weights) =>
      match val with
      | None =>
          Panics "interface conversion: istanbul.Validator is nil, not *validator.weightedValidator"
      | Some weightedVal =>
          Returns (vals ++ [address weightedVal], rewardAddrs ++ [rewardAddress weightedVal],
                   votingPowers ++ [votingPower weightedVal], weights ++ [weight weightedVal])
      end) (vals, rewardAddrs, votingPowers, weights)
    = Returns (vals ++ (address <$> ws), rewardAddrs ++ (rewardAddress <$> ws),
               votingPowers ++ (votingPower <$> ws), weights ++ (weight <$> ws)).
Proof.
  induction ws as [|w ws IH]; intros vals rewardAddrs votingPowers weights.
  - cbn. now rewrite !app_nil_r.
  - cbn [fmap list_fmap forRange mbind result_bind].
    etransitivity; [apply IH|]. now rewrite <- !app_assoc.
Qed.

Lemma GetWeightedCouncilData_proposers (ps : list weightedValidator) :
  forall acc : list Address,
    forRange (Some <$> ps) (fun proposer (ps : list Address) =>
      a ← Address_of proposer;
      Returns (ps ++ [a])) acc
    = Returns (acc ++ (address <$> ps)).
Proof.
  induction ps as [|p ps IH]; intros acc.
  - cbn. now rewrite app_nil_r.
  - cbn [fmap list_fmap forRange Address_of mbind result_bind].
    etransitivity; [apply IH|]. now rewrite <- app_assoc.
Qed.

Lemma GetWeightedCouncilData_run (valSet : weightedCouncil) (ws ps : list weightedValidator) :
  validators valSet = Some <$> ws ->
  proposers valSet = Some <$> ps ->
  GetWeightedCouncilData valSet
    = Returns (address <$> ws, rewardAddress <$> ws, votingPower <$> ws, weight <$> ws,
               address <$> ps, proposersBlockNum valSet).
Proof.
  intros Hws Hps. unfold GetWeightedCouncilData, List.
  rewrite Hws, GetWeightedCouncilData_validators. cbn [mbind result_bind].
  rewrite Hps, GetWeightedCouncilData_proposers. reflexivity.
Qed.

Lemma validatorsOf_fields (ws : list weightedValidator) :
  validatorsOf (address <$> ws) (rewardAddress <$> ws) (votingPower <$> ws) (weight <$> ws)
  = ws.
Proof.
  unfold validatorsOf. induction ws as [|[a r vp w] ws IH]; [reflexivity|].
  cbn. f_equal. exact IH.
Qed.

Lemma Recover_loop_known (valSet : weightedCouncil) (ws : list weightedValidator) :
  validators valSet = Some <$> ws ->
  NoDup (address <$> ws) ->
  forall (ps : list weightedValidator) (acc : list Validator),
    Forall (fun p => p ∈ ws) ps ->
    forRange (address <$> ps) (fun proposerAddr (proposers : list Validator) =>
      '(_, val) ← GetByAddress valSet proposerAddr;
      let proposers := proposers ++ [val] in
      _ ← Address_of val;
      Returns proposers) acc = Returns (acc ++ (Some <$> ps)).
Proof.
  intros Hws Hnd. unfold GetByAddress, getByAddress. rewrite Hws.
  induction ps as [|p ps IH]; intros acc Hin.
  - cbn. now rewrite app_nil_r.
  - inversion Hin as [|? ? Hp Hrest]; subst.
    cbn [fmap list_fmap forRange]. rewrite getByAddressFrom_find.
    apply list_elem_of_lookup in Hp as [i Hi].
    rewrite (find_at_index ws i p Hnd Hi). cbn [mbind result_bind Address_of].
    etransitivity; [apply (IH _ Hrest)|]. now rewrite <- app_assoc.
Qed.

Lemma Recover_known (valSet : weightedCouncil) (ws ps : list weightedValidator) :
  validators valSet = Some <$> ws ->
  NoDup (address <$> ws) ->
  Forall (fun p => p ∈ ws) ps ->
  RecoverWeightedCouncilProposer valSet (address <$> ps)
    = Returns (setProposers valSet (Some <$> ps)).
Proof.
  intros Hws Hnd Hin. unfold RecoverWeightedCouncilProposer.
  pose proof (Recover_loop_known valSet ws Hws Hnd ps [] Hin) as Hloop.
  cbv zeta in Hloop. rewrite Hloop. reflexivity.
Qed.

(** X11: a council is restored from its snapshot data. When the validators
    are sorted by address with pairwise distinct addresses and every
    proposer is a validator, [NewWeightedCouncil] on the data of
    [GetWeightedCouncilData] followed by [RecoverWeightedCouncilProposer] on
    the proposer addresses gives a council with the same validators, the
    same proposer sequence and the same proposers' block number. *)
Theorem snapshot_round_trip (valSet : weightedCouncil) (ws ps : list weightedValidator)
    (committeeSize number : Z) (chainIsNil : bool) :
  validators valSet = Some <$> ws ->
  proposers valSet = Some <$> ps ->
  Sorted byAddress ws ->
  NoDup (address <$> ws) ->
  Forall (fun p => p ∈ ws) ps ->
  exists vals rewardAddrs votingPowers weights proposerAddrs pbn fresh restored,
    GetWeightedCouncilData valSet
      = Returns (vals, rewardAddrs, votingPowers, weights, proposerAddrs, pbn) /\
    NewWeightedCouncil vals (Some rewardAddrs) (Some votingPowers) (Some weights)
                       WeightedRandom committeeSize number pbn chainIsNil
      = Returns (Some fresh) /\
    RecoverWeightedCouncilProposer fresh proposerAddrs = Returns restored /\
    validators restored = validators valSet /\
    proposers restored = proposers valSet /\
    proposersBlockNum restored = proposersBlockNum valSet /\
    subSize restored = committeeSize /\
    blockNum restored = number.
Proof.
  intros Hws Hps Hsorted Hnd Hin.
  destruct (NewWeightedCouncil_run (address <$> ws) (rewardAddress <$> ws)
              (votingPower <$> ws) (weight <$> ws) committeeSize number
              (proposersBlockNum valSet) chainIsNil)
    as (ws0 & Hnew & Hperm & Hsorted0); try (now rewrite !length_fmap).
  rewrite validatorsOf_fields in Hperm.
  pose proof (sorted_by_address_unique ws0 ws Hsorted0 Hsorted Hnd Hperm) as ->.
  eexists _, _, _, _, _, _, _, _.
  split; [apply (GetWeightedCouncilData_run valSet ws ps Hws Hps)|].
  split; [exact Hnew|].
  split; [refine (Recover_known _ ws ps _ Hnd Hin); reflexivity|].
  cbn. rewrite Hws, Hps. auto.
Qed.

(** ** refreshProposers *)

Lemma candidates_loop (ws : list weightedValidator) :
  forall (cands : list Z) (idx : Z),
    forRange (Some <$> ws) (fun val '(cands, index) =>
      w ← Weight_of val;
      Returns (cands ++ replicate (Z.to_nat w) index, index + 1)) (cands, idx)
    = Returns (cands ++ candidateIndexes ws idx, idx + len ws).
Proof.
  induction ws as [|w ws IH]; intros cands idx.
  - cbn. rewrite app_nil_r. unfold len. cbn. f_equal. f_equal. lia.
  - cbn [fmap list_fmap forRange Weight_of mbind result_bind candidateIndexes].
    etransitivity; [apply IH|]. rewrite <- app_assoc. unfold len. cbn [length].
    f_equal. f_equal. lia.
Qed.

Lemma candidateIndexes_lookup (ws : list weightedValidator) :
  forall pre : list weightedValidator,
    (fun i => (pre ++ ws) !! Z.to_nat i) <$> candidateIndexes ws (len pre)
      = Some <$> flat_map (fun w => replicate (Z.to_nat (weight w)) w) ws /\
    Forall (fun i => 0 <= i) (candidateIndexes ws (len pre)).
Proof.
  induction ws as [|w ws IH]; intros pre; [split; [reflexivity|constructor]|].
  cbn [candidateIndexes flat_map].
  destruct (IH (pre ++ [w])) as [Heq Hpos].
  replace (len (pre ++ [w])) with (len pre + 1) in *
    by (unfold len; rewrite length_app; cbn; lia).
  rewrite <- app_assoc in Heq. cbn [app] in Heq.
  split.
  - rewrite !fmap_app, Heq, !fmap_replicate. f_equal. f_equal.
    unfold len. rewrite Nat2Z.id. apply list_lookup_middle. reflexivity.
  - apply Forall_app. split; [|exact Hpos].
    apply Forall_replicate. unfold len. lia.
Qed.

Lemma all_indexes_lookup {A} (l : list A) :
  (fun i => l !! Z.to_nat i) <$> map Z.of_nat (seq 0 (length l)) = Some <$> l /\
  Forall (fun i => 0 <= i) (map Z.of_nat (seq 0 (length l))).
Proof.
  rewrite (map_is_fmap Z.of_nat). split.
  - apply list_eq. intros i. rewrite !list_lookup_fmap.
    destruct (decide (i < length l)%nat) as [Hlt|Hge].
    + rewrite lookup_seq_lt by assumption. cbn. rewrite Nat2Z.id.
      destruct (lookup_lt_is_Some_2 l i Hlt) as [x ->]. reflexivity.
    + rewrite lookup_seq_ge by lia. rewrite (lookup_ge_None_2 l i) by lia. reflexivity.
  - apply Forall_fmap, Forall_forall. intros i _. cbn. lia.
Qed.

(** The loop that reads the validators at the shuffled indexes. *)
Lemma proposers_fill_loop (vals : list Validator) :
  forall (rest idone : list Z) (picked done : list Validator),
    (fun i => vals !! Z.to_nat i) <$> rest = Some <$> picked ->
    Forall (fun i => 0 <= i) rest ->
    length idone = length done ->
    forLoop (length rest) (len done) (fun i proposers =>
      ix ← index (idone ++ rest) i;
      v ← index vals ix;
      assign proposers i v) (done ++ replicate (length rest) None)
    = Returns (done ++ picked).
Proof.
  induction rest as [|ix rest IH]; intros idone picked done Hpick Hpos Hlen.
  - destruct picked; [|discriminate]. reflexivity.
  - destruct picked as [|v picked]; [discriminate|].
    cbn [fmap list_fmap] in Hpick. injection Hpick as Hv Hpick.
    inversion Hpos as [|? ? Hix Hpos']; subst.
    cbn [length forLoop replicate].
    assert (Hix1 : index (idone ++ ix :: rest) (len done) = Returns ix).
    { unfold len. rewrite <- Hlen. now apply index_of_nat, list_lookup_middle. }
    assert (Hix2 : index vals ix = Returns v).
    { rewrite <- (Z2Nat.id ix) by lia. now apply index_of_nat. }
    rewrite Hix1. cbn [mbind result_bind]. rewrite Hix2. cbn [mbind result_bind].
    rewrite assign_app_head. cbn [mbind result_bind].
    replace (len done + 1) with (len (done ++ [v]))
      by (unfold len; rewrite length_app; cbn; lia).
    replace (idone ++ ix :: rest) with ((idone ++ [ix]) ++ rest)
      by (now rewrite <- app_assoc).
    replace (done ++ v :: replicate (length rest) None)
      with ((done ++ [v]) ++ replicate (length rest) None)
      by (now rewrite <- app_assoc).
    rewrite (IH (idone ++ [ix]) picked (done ++ [v]) Hpick Hpos')
      by (rewrite !length_app; cbn; lia).
    now rewrite <- app_assoc.
Qed.

Lemma refreshProposers_run (randIntn : Z -> Z -> Z -> Z) (valSet : weightedCouncil)
    (ws : list weightedValidator) (seed blockNum : Z) :
  IntnInRange randIntn ->
  validators valSet = Some <$> ws ->
  exists ps,
    refreshProposers randIntn valSet seed blockNum
      = Returns (setProposersBlockNum (setProposers valSet (Some <$> ps)) blockNum) /\
    ps ≡ₚ weightedCandidates ws.
Proof.
  intros Hrand Hws. unfold refreshProposers. rewrite Hws, candidates_loop. cbn [mbind result_bind app].
  set (cidx := if len (candidateIndexes ws 0) =? 0 then _ else _).
  assert (Hcidx : (fun i => ws !! Z.to_nat i) <$> cidx = Some <$> weightedCandidates ws /\
                  Forall (fun i => 0 <= i) cidx).
  { destruct (candidateIndexes_lookup ws []) as [Heq Hpos].
    change (len []) with 0 in *. cbn [app] in Heq.
    subst cidx. unfold weightedCandidates.
    destruct (candidateIndexes ws 0) as [|i0 is'] eqn:Hc.
    - destruct (flat_map _ ws); [|discriminate].
      change (len [] =? 0) with true. cbn iota.
      rewrite length_fmap. apply all_indexes_lookup.
    - destruct (flat_map _ ws) as [|c cs]; [discriminate|].
      replace (len (i0 :: is') =? 0) with false
        by (symmetry; apply Z.eqb_neq; unfold len; cbn; lia).
      split; assumption. }
  clearbody cidx. destruct Hcidx as [Hlook Hpos].
  rewrite make_nonneg by (unfold len; lia). cbn [mbind result_bind].
  destruct (shuffle_Permutation randIntn seed (len cidx) cidx Hrand eq_refl)
    as (cidx' & -> & Hperm).
  cbn [mbind result_bind].
  destruct (Permutation_fmap_inv Some ((fun i => ws !! Z.to_nat i) <$> cidx')
              (weightedCandidates ws)) as (ps & Hps & Hpsperm).
  { rewrite Hperm, Hlook. reflexivity. }
  exists ps. split; [|exact Hpsperm].
  assert (Hlen : length cidx' = length cidx) by (now rewrite Hperm).
  unfold len. rewrite Nat2Z.id, <- Hlen.
  pose proof (proposers_fill_loop (Some <$> ws) cidx' [] (Some <$> ps) []) as Hfill.
  cbn [app] in Hfill. change (len []) with 0 in Hfill. unfold Validator in *.
  rewrite Hfill; [reflexivity| |now rewrite Hperm|reflexivity].
  transitivity (fmap (M := option) Some <$> ((fun i => ws !! Z.to_nat i) <$> cidx')).
  - rewrite <- list_fmap_compose. apply list_fmap_ext. intros i x _. cbn.
    apply list_lookup_fmap.
  - rewrite Hps, <- !list_fmap_compose. reflexivity.
Qed.

(** X12: [refreshProposers] always returns on a council without nil handles
    (given a random source that answers in range). The new proposer sequence
    is an arrangement of the weighted candidates: each validator occurs as
    many times as its weight; when every weight is 0, each validator occurs
    once. Every proposer is a validator, every validator with a positive
    weight is a proposer, and the proposers' block number is set. *)
Theorem refreshProposers_spec (randIntn : Z -> Z -> Z -> Z) (valSet : weightedCouncil)
    (ws : list weightedValidator) (seed blockNum : Z) :
  IntnInRange randIntn ->
  validators valSet = Some <$> ws ->
  exists ps,
    refreshProposers randIntn valSet seed blockNum
      = Returns (setProposersBlockNum (setProposers valSet (Some <$> ps)) blockNum) /\
    ps ≡ₚ weightedCandidates ws /\
    (forall p, p ∈ ps -> p ∈ ws) /\
    (forall w, w ∈ ws -> 0 < weight w -> w ∈ ps) /\
    (Forall (fun w => weight w <= 0) ws -> ps ≡ₚ ws).
Proof.
  intros Hrand Hws.
  destruct (refreshProposers_run randIntn valSet ws seed blockNum Hrand Hws)
    as (ps & Hrun & Hperm).
  exists ps. split; [exact Hrun|]. split; [exact Hperm|].
  unfold weightedCandidates in Hperm. repeat split.
  - intros p Hp. rewrite Hperm in Hp.
    destruct (flat_map _ ws) as [|c cs] eqn:Hc; [exact Hp|].
    rewrite <- Hc in Hp. apply list_elem_of_In, in_flat_map in Hp as (w & Hw & Hin).
    apply list_elem_of_In, elem_of_replicate in Hin as [-> _].
    now apply list_elem_of_In.
  - intros w Hw Hpos. rewrite Hperm.
    assert (Hin : w ∈ flat_map (fun w => replicate (Z.to_nat (weight w)) w) ws).
    { apply list_elem_of_In, in_flat_map. exists w. split; [now apply list_elem_of_In|].
      apply list_elem_of_In, elem_of_replicate. split; [reflexivity|lia]. }
    destruct (flat_map _ ws); [now apply not_elem_of_nil in Hin|exact Hin].
  - intros Hzero. rewrite Hperm.
    replace (flat_map (fun w => replicate (Z.to_nat (weight w)) w) ws) with (@nil weightedValidator);
      [reflexivity|].
    symmetry. clear -Hzero. induction Hzero as [|w ws Hw _ IH]; [reflexivity|].
    cbn [flat_map]. rewrite <- IH. replace (Z.to_nat (weight w)) with 0%nat by lia.
    reflexivity.
Qed.

(** ** Refresh with staking info *)















(** ** The committee at the edges *)

Section CommitteeEdges.

Variable CalcProposerBlockNumber : Z -> Z.
Variable randIntn : Z -> Z -> Z -> Z.

(** X15: the committee of a council larger than the committee size, at the
    edges. A proposer address that no validator has gives the whole
    validator list. With a proposer among the validators, the committee size
    0 makes the call panic (the proposer is written to seat 0 of an empty
    slice), and the committee size 1 gives the proposer alone. None of this
    depends on the round. *)
Theorem SubListWithProposer_edges (valSet : weightedCouncil) (ws : list weightedValidator)
    (prevHash : Hash) (a : Address) (round : Z) (fuel : nat) :
  validators valSet = Some <$> ws ->
  length prevHash = HashLength ->
  0 <= subSize valSet < len ws ->
  (a ∉ (address <$> ws) ->
   SubListWithProposer CalcProposerBlockNumber randIntn fuel valSet prevHash a round
     = Returns (validators valSet)) /\
  (a ∈ (address <$> ws) -> subSize valSet = 0 ->
   SubListWithProposer CalcProposerBlockNumber randIntn fuel valSet prevHash a round
     = Panics indexOutOfRange) /\
  (a ∈ (address <$> ws) -> subSize valSet = 1 ->
   exists w, w ∈ ws /\ address w = a /\
     SubListWithProposer CalcProposerBlockNumber randIntn fuel valSet prevHash a round
       = Returns [Some w]).
Proof.
  intros Hws Hlen Hsize. unfold SubListWithProposer.
  replace (len (validators valSet) <=? subSize valSet) with false
    by (symmetry; apply Z.leb_gt; rewrite Hws, len_fmap; lia).
  rewrite (parseSeed_of_hash prevHash Hlen).
  rewrite (make_nonneg (None : Validator) (subSize valSet)) by lia.
  cbn [mbind result_bind]. unfold getByAddress.
  pose proof (getByAddressFrom_find ws 0 a) as Hfind. rewrite <- Hws in Hfind.
  rewrite Hfind. clear Hfind. split; [|split].
  - intros Ha. rewrite (proj2 (list_find_None _ ws)); [reflexivity|].
    apply Forall_forall. intros w Hw Heq. apply Ha. apply list_elem_of_fmap.
    exists w. split; [now symmetry|exact Hw].
  - intros Ha Hzero. destruct (find_by_address ws a Ha) as (n & w & -> & _ & _).
    rewrite Hzero. reflexivity.
  - intros Ha Hone. destruct (find_by_address ws a Ha) as (n & w & -> & Hn & Hw).
    exists w. split; [eapply list_elem_of_lookup_2, Hn|]. split; [exact Hw|].
    rewrite Hone. reflexivity.
Qed.

(** The search of [CheckInSubList] through a committee without nil
    handles. *)
Lemma CheckInSubList_loop (addr : Address) (ws : list weightedValidator) :
  forall found : bool,
    forRange (Some <$> ws) (fun val found =>
      if (found : bool) then Returns true
      else a ← Address_of val; Returns (a =? addr)) found
    = Returns (found || bool_decide (addr ∈ (address <$> ws))).
Proof.
  induction ws as [|w ws IH]; intros found.
  - cbn. now rewrite orb_false_r.
  - cbn [fmap list_fmap forRange]. destruct found; cbn [mbind result_bind Address_of].
    + etransitivity; [apply IH|]. reflexivity.
    + etransitivity; [apply IH|]. f_equal.
      destruct (Z.eqb_spec (address w) addr) as [Heq|Hne]; cbn [orb].
      * symmetry. apply bool_decide_eq_true_2. rewrite <- Heq. left.
      * apply bool_decide_ext. rewrite elem_of_cons. split; [auto|].
        intros [Heq|Hin]; [congruence|exact Hin].
Qed.

(** X16: in a council that is not larger than the committee size and has a
    proposer stored, [CheckInSubList] holds exactly for the addresses of the
    validators, whatever the hash and the round; with no proposer stored it
    panics. *)
Theorem CheckInSubList_full_council (valSet : weightedCouncil) (ws : list weightedValidator)
    (prevHash : Hash) (round : Z) (addr : Address) (fuel : nat) :
  validators valSet = Some <$> ws ->
  len ws <= subSize valSet ->
  (is_Some (proposer valSet) ->
   CheckInSubList CalcProposerBlockNumber randIntn fuel valSet prevHash round addr
     = Returns (bool_decide (addr ∈ (address <$> ws)))) /\
  (proposer valSet = None ->
   CheckInSubList CalcProposerBlockNumber randIntn fuel valSet prevHash round addr
     = Panics "interface conversion: interface is nil, not istanbul.Validator").
Proof.
  intros Hws Hsize. unfold CheckInSubList, SubList, GetProposer. split.
  - intros [p Hp]. rewrite Hp. cbn [mbind result_bind Address_of].
    unfold SubListWithProposer.
    replace (len (validators valSet) <=? subSize valSet) with true
      by (symmetry; apply Z.leb_le; rewrite Hws, len_fmap; lia).
    cbn [mbind result_bind]. rewrite Hws. apply CheckInSubList_loop.
  - intros ->. reflexivity.
Qed.

End CommitteeEdges.

(** ** State object: the storage cache and the first error *)

Section StorageFacts.

Context {Trie : Type}.
Variable TryGet : Trie -> Hash -> list byte * option Error.
Variable OpenStorageTrie : Hash -> Trie * option Error.
Variable rlpSplit : list byte -> list byte * option Error.

Lemma setError_None (s : stateObject Trie) : setError s None = s.
Proof. destruct s as [? ? [e|] ? ? ? ? ? ? ?]; reflexivity. Qed.

Lemma setError_kept (s : stateObject Trie) (e : Error) (err : option Error) :
  dbErr s = Some e -> setError s err = s.
Proof. unfold setError. now intros ->. Qed.


Lemma setError_first (s : stateObject Trie) (e : Error) (err : option Error) :
  dbErr s = Some e -> dbErr (setError s err) = Some e.
Proof. intros H. now rewrite (setError_kept s e err H). Qed.

Lemma setError_fields (s : stateObject Trie) (err : option Error) :
  storageTrie (setError s err) = storageTrie s /\
  cachedStorage (setError s err) = cachedStorage s /\
  dirtyStorage (setError s err) = dirtyStorage s /\
  account (setError s err) = account s /\
  so_address (setError s err) = so_address s.
Proof. unfold setError. destruct (dbErr s); cbn; auto. Qed.

Lemma getStorageTrie_fields (s : stateObject Trie) :
  storageTrie (snd (getStorageTrie OpenStorageTrie s))
    = Some (fst (getStorageTrie OpenStorageTrie s)) /\
  cachedStorage (snd (getStorageTrie OpenStorageTrie s)) = cachedStorage s /\
  dirtyStorage (snd (getStorageTrie OpenStorageTrie s)) = dirtyStorage s /\
  account (snd (getStorageTrie OpenStorageTrie s)) = account s /\
  so_address (snd (getStorageTrie OpenStorageTrie s)) = so_address s /\
  (forall e, dbErr s = Some e -> dbErr (snd (getStorageTrie OpenStorageTrie s)) = Some e).
Proof.
  unfold getStorageTrie. destruct (storageTrie s) as [t|] eqn:Ht; [cbn; auto 10|].
  destruct (GetProgramAccount (account s)) as [acc|].
  - destruct (OpenStorageTrie (storageRoot acc)) as [t [e0|]].
    + destruct (OpenStorageTrie zeroHash) as [t0 ?]. cbn [fst snd].
      destruct (setError_fields (withStorageTrie s (Some t0))
                  (Some ("can't create storage trie: " ++ e0)%string))
        as (-> & -> & -> & -> & ->).
      repeat split. intros e He. now apply setError_first.
    + cbn. auto 10.
  - destruct (OpenStorageTrie zeroHash) as [t0 ?]. cbn. auto 10.
Qed.

Lemma getStorageTrie_open (s : stateObject Trie) (tr : Trie) :
  storageTrie s = Some tr -> getStorageTrie OpenStorageTrie s = (tr, s).
Proof. unfold getStorageTrie. now intros ->. Qed.

Lemma GetState_fields (s : stateObject Trie) (key : Hash) :
  dirtyStorage (snd (GetState TryGet OpenStorageTrie rlpSplit s key)) = dirtyStorage s /\
  account (snd (GetState TryGet OpenStorageTrie rlpSplit s key)) = account s /\
  so_address (snd (GetState TryGet OpenStorageTrie rlpSplit s key)) = so_address s /\
  (forall e, dbErr s = Some e ->
             dbErr (snd (GetState TryGet OpenStorageTrie rlpSplit s key)) = Some e).
Proof.
  unfold GetState. destruct (cachedStorage s !! key); [cbn; auto|].
  destruct (getStorageTrie_fields s) as (_ & _ & Hd & Ha & Hs & He).
  destruct (getStorageTrie OpenStorageTrie s) as [tr s0]. cbn [fst snd] in *.
  destruct (TryGet tr key) as [enc [e|]].
  - cbn [snd]. destruct (setError_fields s0 (Some e)) as (_ & _ & -> & -> & ->).
    repeat split; try assumption. intros e' H. apply setError_first. auto.
  - destruct (0 <? len enc).
    + destruct (rlpSplit enc) as [content [e|]]; cbn [snd dirtyStorage account so_address
        dbErr withCachedStorage].
      * destruct (setError_fields s0 (Some e)) as (_ & _ & -> & -> & ->).
        repeat split; try assumption. intros e' H. apply setError_first. auto.
      * auto.
    + cbn. auto.
Qed.


(** X18: a slot that was written is read back. After [SetState], [GetState]
    of the slot returns the value written without changing the object; the
    slot is dirty with that value and no other slot became dirty; the journal
    got one storage change, with the value that [GetState] returned before
    the write. *)
Theorem SetState_then_GetState (s : stateObject Trie) (j : journal) (key value : Hash) :
  let s1 := fst (SetState TryGet OpenStorageTrie rlpSplit s j key value) in
  let j1 := snd (SetState TryGet OpenStorageTrie rlpSplit s j key value) in
  GetState TryGet OpenStorageTrie rlpSplit s1 key = (value, s1) /\
  dirtyStorage s1 !! key = Some value /\
  (forall k, k <> key -> dirtyStorage s1 !! k = dirtyStorage s !! k) /\
  entries j1 = entries j ++ [storageChange (so_address s) key
                               (fst (GetState TryGet OpenStorageTrie rlpSplit s key))].
Proof.
  unfold SetState.
  destruct (GetState_fields s key) as (Hd & _ & Ha & _).
  destruct (GetState TryGet OpenStorageTrie rlpSplit s key) as [prevalue s0].
  cbn [fst snd] in *. repeat split.
  - unfold GetState, setState. cbn [cachedStorage withCachedStorage withDirtyStorage].
    now rewrite lookup_insert_eq.
  - unfold setState. cbn [dirtyStorage withDirtyStorage]. apply lookup_insert_eq.
  - intros k Hk. unfold setState. cbn [dirtyStorage withDirtyStorage withCachedStorage].
    rewrite lookup_insert_ne by congruence. now rewrite Hd.
  - cbn [entries journal_append]. now rewrite Ha.
Qed.

End StorageFacts.

(** ** State object: the flush of the dirty storage *)

Lemma SetBytes_TrimLeftZeros (v : Hash) :
  length v = HashLength -> SetBytes (TrimLeftZeros v) = v.
Proof.
  intros Hlen. unfold SetBytes.
  assert (Htrim : (length (TrimLeftZeros v) <= length v)%nat /\
                  replicate (length v - length (TrimLeftZeros v))%nat Byte.x00
                    ++ TrimLeftZeros v = v).
  { clear Hlen. induction v as [|x v [IHl IHe]]; [cbn; auto|].
    cbn [TrimLeftZeros]. case_bool_decide as Hx.
    - subst x. cbn [length]. split; [lia|].
      replace (S (length v) - length (TrimLeftZeros v))%nat
        with (S (length v - length (TrimLeftZeros v))) by lia.
      cbn [replicate app]. now rewrite IHe.
    - split; [lia|]. now rewrite Nat.sub_diag. }
  destruct Htrim as [Hle Heq]. rewrite Hlen in Hle, Heq.
  replace (length (TrimLeftZeros v) - HashLength)%nat with 0%nat by lia.
  rewrite drop_0. exact Heq.
Qed.

Lemma fold_flushed_other (rlpEncode : list byte -> list byte) (order : list (Hash * Hash))
    (k : Hash) :
  k ∉ order.*1 ->
  forall m, foldl (flushed rlpEncode) m order !! k = m !! k.
Proof.
  induction order as [|[k' v'] order IH]; intros Hk m; [reflexivity|].
  cbn [fmap list_fmap fst] in Hk. apply not_elem_of_cons in Hk as [Hne Hk].
  cbn [foldl]. rewrite (IH Hk). unfold flushed. cbn [fst snd].
  case_bool_decide; [apply lookup_delete_ne|apply lookup_insert_ne]; congruence.
Qed.

Lemma fold_flushed_entry (rlpEncode : list byte -> list byte) (order : list (Hash * Hash))
    (k v : Hash) :
  NoDup order.*1 -> (k, v) ∈ order ->
  forall m, foldl (flushed rlpEncode) m order !! k
            = if bool_decide (v = zeroHash) then None
              else Some (rlpEncode (TrimLeftZeros v)).
Proof.
  induction order as [|[k' v'] order IH]; intros Hnd Hin m.
  - now apply not_elem_of_nil in Hin.
  - cbn [fmap list_fmap fst] in Hnd. apply NoDup_cons in Hnd as [Hk' Hnd].
    cbn [foldl]. apply elem_of_cons in Hin as [[= <- <-]|Hin].
    + rewrite (fold_flushed_other rlpEncode order k Hk'). unfold flushed. cbn [fst snd].
      case_bool_decide; [apply lookup_delete_eq|apply lookup_insert_eq].
    + now apply IH.
Qed.

Lemma fold_delete_keys (order : list (Hash * Hash)) (k : Hash) :
  forall m : Storage,
    foldl (fun m kv => delete kv.1 m) m order !! k
    = if bool_decide (k ∈ order.*1) then None else m !! k.
Proof.
  induction order as [|[k' v'] order IH]; intros m; [reflexivity|].
  cbn [foldl fmap list_fmap fst]. rewrite IH.
  destruct (decide (k = k')) as [->|Hne].
  - rewrite lookup_delete_eq. rewrite (bool_decide_eq_true_2 (k' ∈ k' :: _)) by left.
    now case_bool_decide.
  - rewrite lookup_delete_ne by congruence. apply (f_equal (fun b : bool => if b then _ else _)).
    apply bool_decide_ext. rewrite elem_of_cons. tauto.
Qed.

Section FlushFacts.

Context {Trie : Type}.
Variable TryGet : Trie -> Hash -> list byte * option Error.
Variable OpenStorageTrie : Hash -> Trie * option Error.
Variable CopyTrie : Trie -> Trie.
Variable rlpSplit : list byte -> list byte * option Error.
Variable TryUpdate : Trie -> Hash -> list byte -> Trie * option Error.
Variable TryDelete : Trie -> Hash -> Trie * option Error.
Variable TrieCommit : Trie -> Hash * option Error.
Variable rlpEncode : list byte -> list byte.

(** Every step of the flush keeps an error that is already there, and the
    account. *)
Lemma flush_keeps_error (e : Error) (order : list (Hash * Hash)) :
  forall (tr : Trie) (s : stateObject Trie),
    dbErr s = Some e ->
    dbErr (snd (foldl (fun '(tr, self) '(key, value) =>
      let self := withDirtyStorage self (delete key (dirtyStorage self)) in
      if bool_decide (value = zeroHash) then
        let '(tr, err) := TryDelete tr key in
        (tr, setError (withStorageTrie self (Some tr)) err)
      else
        let v := rlpEncode (TrimLeftZeros value) in
        let '(tr, err) := TryUpdate tr key v in
        (tr, setError (withStorageTrie self (Some tr)) err)) (tr, s) order)) = Some e /\
    account (snd (foldl (fun '(tr, self) '(key, value) =>
      let self := withDirtyStorage self (delete key (dirtyStorage self)) in
      if bool_decide (value = zeroHash) then
        let '(tr, err) := TryDelete tr key in
        (tr, setError (withStorageTrie self (Some tr)) err)
      else
        let v := rlpEncode (TrimLeftZeros value) in
        let '(tr, err) := TryUpdate tr key v in
        (tr, setError (withStorageTrie self (Some tr)) err)) (tr, s) order)) = account s.
Proof.
  induction order as [|[k v] order IH]; intros tr s He; [cbn; auto|].
  cbn [foldl]. case_bool_decide.
  - destruct (TryDelete tr k) as [tr1 err].
    rewrite (setError_kept _ e err) by (cbn; exact He).
    apply (IH tr1 (withStorageTrie (withDirtyStorage s (delete k (dirtyStorage s)))
                                   (Some tr1))). exact He.
  - cbv zeta. destruct (TryUpdate tr k _) as [tr1 err].
    rewrite (setError_kept _ e err) by (cbn; exact He).
    apply (IH tr1 (withStorageTrie (withDirtyStorage s (delete k (dirtyStorage s)))
                                   (Some tr1))). exact He.
Qed.

(** X19: the first error is kept. Once the object has a database error,
    [GetState] and [SetState] leave that error in place, and
    [CommitStorageTrie] returns it, whatever the order of the flush, without
    committing the trie: the account, and so the storage root, is not
    changed. *)
Theorem first_error_is_kept (s : stateObject Trie) (e : Error) (j : journal)
    (key value : Hash) (order : list (Hash * Hash)) :
  dbErr s = Some e ->
  dbErr (snd (GetState TryGet OpenStorageTrie rlpSplit s key)) = Some e /\
  dbErr (fst (SetState TryGet OpenStorageTrie rlpSplit s j key value)) = Some e /\
  snd (CommitStorageTrie OpenStorageTrie TryUpdate TryDelete TrieCommit rlpEncode order s)
    = Some e /\
  account (fst (CommitStorageTrie OpenStorageTrie TryUpdate TryDelete TrieCommit rlpEncode
                                  order s)) = account s.
Proof.
  intros He.
  destruct (GetState_fields TryGet OpenStorageTrie rlpSplit s key) as (_ & _ & _ & Hget).
  split; [now apply Hget|]. split.
  - unfold SetState.
    destruct (GetState TryGet OpenStorageTrie rlpSplit s key) as [prevalue s0].
    cbn [fst snd] in *. unfold setState. cbn. now apply Hget.
  - unfold CommitStorageTrie, updateStorageTrie.
    destruct (getStorageTrie_fields OpenStorageTrie s) as (_ & _ & _ & Ha & _ & Herr).
    destruct (getStorageTrie OpenStorageTrie s) as [tr0 s0]. cbn [fst snd] in *.
    destruct (flush_keeps_error e order tr0 s0 (Herr e He)) as [Hkept Hacc].
    destruct (foldl _ (tr0, s0) order) as [tr1 s1]. cbn [snd] in *.
    rewrite Hkept. cbn [fst snd]. split; [reflexivity|congruence].
Qed.

(** The storage trie is a map from slots to encoded values, and neither it
    nor the encoding fails. *)
Variable content : Trie -> gmap Hash (list byte).
Hypothesis TryGet_content :
  forall tr k, TryGet tr k = (default [] (content tr !! k), None).
Hypothesis TryUpdate_content :
  forall tr k v, exists tr',
    TryUpdate tr k v = (tr', None) /\ content tr' = <[k := v]> (content tr).
Hypothesis TryDelete_content :
  forall tr k, exists tr',
    TryDelete tr k = (tr', None) /\ content tr' = delete k (content tr).
Hypothesis CopyTrie_content : forall tr, content (CopyTrie tr) = content tr.
Hypothesis rlpSplit_rlpEncode : forall b, rlpSplit (rlpEncode b) = (b, None).
Hypothesis rlpEncode_not_empty : forall b, 0 < len (rlpEncode b).

Lemma flush_loop (order : list (Hash * Hash)) :
  forall (tr : Trie) (s : stateObject Trie),
    storageTrie s = Some tr ->
    exists tr' s',
      foldl (fun '(tr, self) '(key, value) =>
        let self := withDirtyStorage self (delete key (dirtyStorage self)) in
        if bool_decide (value = zeroHash) then
          let '(tr, err) := TryDelete tr key in
          (tr, setError (withStorageTrie self (Some tr)) err)
        else
          let v := rlpEncode (TrimLeftZeros value) in
          let '(tr, err) := TryUpdate tr key v in
          (tr, setError (withStorageTrie self (Some tr)) err)) (tr, s) order = (tr', s') /\
      storageTrie s' = Some tr' /\
      dbErr s' = dbErr s /\
      cachedStorage s' = cachedStorage s /\
      account s' = account s /\
      so_address s' = so_address s /\
      dirtyStorage s' = foldl (fun m kv => delete kv.1 m) (dirtyStorage s) order /\
      content tr' = foldl (flushed rlpEncode) (content tr) order.
Proof.
  induction order as [|[k v] order IH]; intros tr s Htr.
  - exists tr, s. cbn. auto 10.
  - cbn [foldl]. unfold flushed at 2. cbn [fst snd]. case_bool_decide.
    + destruct (TryDelete_content tr k) as (tr1 & -> & Hc). rewrite setError_None.
      destruct (IH tr1 (withStorageTrie (withDirtyStorage s (delete k (dirtyStorage s)))
                                        (Some tr1)) eq_refl)
        as (tr' & s' & Hrun & ? & ? & ? & ? & ? & ? & Hc').
      exists tr', s'. split; [exact Hrun|]. rewrite <- Hc. cbn in *. auto 10.
    + cbv zeta. destruct (TryUpdate_content tr k (rlpEncode (TrimLeftZeros v)))
        as (tr1 & -> & Hc). rewrite setError_None.
      destruct (IH tr1 (withStorageTrie (withDirtyStorage s (delete k (dirtyStorage s)))
                                        (Some tr1)) eq_refl)
        as (tr' & s' & Hrun & ? & ? & ? & ? & ? & ? & Hc').
      exists tr', s'. split; [exact Hrun|]. rewrite <- Hc. cbn in *. auto 10.
Qed.

Lemma trieValue_content (tr : Trie) (k v : Hash) :
  length v = HashLength ->
  content tr !! k = (if bool_decide (v = zeroHash) then None
                     else Some (rlpEncode (TrimLeftZeros v))) ->
  trieValue TryGet rlpSplit tr k = v.
Proof.
  intros Hlen Hk. unfold trieValue. rewrite TryGet_content, Hk.
  case_bool_decide as Hz; unfold default; cbv beta iota; unfold id.
  - now subst v.
  - pose proof (rlpEncode_not_empty (TrimLeftZeros v)) as Hpos.
    replace (0 <? len (rlpEncode (TrimLeftZeros v))) with true
      by (symmetry; now apply Z.ltb_lt).
    rewrite rlpSplit_rlpEncode. cbn [fst]. now apply SetBytes_TrimLeftZeros.
Qed.

Lemma updateStorageTrie_run (s : stateObject Trie) (order : list (Hash * Hash)) :
  order ≡ₚ map_to_list (dirtyStorage s) ->
  exists tr s',
    updateStorageTrie OpenStorageTrie TryUpdate TryDelete rlpEncode order s = (tr, s') /\
    storageTrie s' = Some tr /\
    dirtyStorage s' = ∅ /\
    cachedStorage s' = cachedStorage s /\
    account s' = account s /\
    dbErr s' = dbErr (snd (getStorageTrie OpenStorageTrie s)) /\
    (forall k v, dirtyStorage s !! k = Some v ->
       content tr !! k = if bool_decide (v = zeroHash) then None
                         else Some (rlpEncode (TrimLeftZeros v))) /\
    (forall k, dirtyStorage s !! k = None ->
       content tr !! k = content (fst (getStorageTrie OpenStorageTrie s)) !! k).
Proof.
  intros Horder. unfold updateStorageTrie.
  destruct (getStorageTrie_fields OpenStorageTrie s) as (Htr & Hcs & Hds & Hacc & _).
  destruct (getStorageTrie OpenStorageTrie s) as [tr0 s0]. cbn [fst snd] in *.
  destruct (flush_loop order tr0 s0 Htr)
    as (tr & s' & Hrun & Htr' & Herr & Hcs' & Hacc' & _ & Hds' & Hcontent).
  assert (Hnd : NoDup order.*1) by (rewrite Horder; apply NoDup_fst_map_to_list).
  assert (Hin : forall k v, (k, v) ∈ order <-> dirtyStorage s !! k = Some v)
    by (intros k v; rewrite Horder; apply elem_of_map_to_list).
  exists tr, s'. split; [exact Hrun|]. repeat split; try congruence.
  - rewrite Hds', Hds. apply map_eq. intros k. rewrite fold_delete_keys, lookup_empty.
    case_bool_decide as Hk; [reflexivity|].
    destruct (dirtyStorage s !! k) as [v|] eqn:Hv; [|reflexivity].
    exfalso. apply Hk. apply list_elem_of_fmap. exists (k, v). split; [reflexivity|].
    now apply Hin.
  - intros k v Hv. rewrite Hcontent. apply fold_flushed_entry; [exact Hnd|now apply Hin].
  - intros k Hk. rewrite Hcontent. apply fold_flushed_other.
    intros Hmem. apply list_elem_of_fmap in Hmem as ([k' v] & -> & Hmem).
    apply Hin in Hmem. cbn [fst] in Hk. congruence.
Qed.

(** X20: [updateStorageTrie] writes every dirty slot to the storage trie,
    in whatever order the entries are visited. On a trie that does not fail,
    the dirty storage is empty afterwards and the read cache is as before;
    every slot that was dirty (with a value of 32 bytes) reads from the trie
    as the value it had, also the zero value, whose slot is deleted; the
    other slots of the trie are not changed. *)
Theorem updateStorageTrie_flushes (s : stateObject Trie) (order : list (Hash * Hash)) :
  order ≡ₚ map_to_list (dirtyStorage s) ->
  exists tr s',
    updateStorageTrie OpenStorageTrie TryUpdate TryDelete rlpEncode order s = (tr, s') /\
    storageTrie s' = Some tr /\
    dirtyStorage s' = ∅ /\
    cachedStorage s' = cachedStorage s /\
    (forall k v, dirtyStorage s !! k = Some v -> length v = HashLength ->
       trieValue TryGet rlpSplit tr k = v) /\
    (forall k, dirtyStorage s !! k = None ->
       content tr !! k = content (fst (getStorageTrie OpenStorageTrie s)) !! k).
Proof.
  intros Horder.
  destruct (updateStorageTrie_run s order Horder)
    as (tr & s' & Hrun & Htr & Hds & Hcs & _ & _ & Hdirty & Hother).
  exists tr, s'. repeat split; try assumption.
  intros k v Hv Hlen. apply trieValue_content; auto.
Qed.

(** X21: what was written is read after the flush by a copy of the object.
    After [SetState]s, a flush by [updateStorageTrie] and a [deepCopy], the
    copy has an empty read cache, and its [GetState] returns, for every slot
    that was dirty, the value that was written, read from the copied trie. *)
Theorem flushed_copy_reads_back (s : stateObject Trie) (order : list (Hash * Hash))
    (k v : Hash) :
  order ≡ₚ map_to_list (dirtyStorage s) ->
  dirtyStorage s !! k = Some v ->
  length v = HashLength ->
  let flushedObject :=
    snd (updateStorageTrie OpenStorageTrie TryUpdate TryDelete rlpEncode order s) in
  cachedStorage (deepCopy CopyTrie flushedObject) = ∅ /\
  fst (GetState TryGet OpenStorageTrie rlpSplit (deepCopy CopyTrie flushedObject) k) = v.
Proof.
  intros Horder Hk Hlen.
  destruct (updateStorageTrie_run s order Horder)
    as (tr & s' & -> & Htr & Hds & Hcs & _ & _ & Hdirty & _).
  cbn [snd].
  assert (Hcache : cachedStorage (deepCopy CopyTrie s') = ∅)
    by (unfold deepCopy; cbn [cachedStorage]; now rewrite Storage_Copy_eq).
  split; [exact Hcache|].
  rewrite GetState_miss by (now rewrite Hcache).
  assert (Hopen : getStorageTrie OpenStorageTrie (deepCopy CopyTrie s')
                  = (CopyTrie tr, deepCopy CopyTrie s')).
  { apply getStorageTrie_open. unfold deepCopy. rewrite Htr. reflexivity. }
  rewrite Hopen. cbn [fst]. apply trieValue_content; [exact Hlen|].
  rewrite CopyTrie_content. now apply Hdirty.
Qed.

End FlushFacts.

(** ** State object: code *)

Section CodeFacts.

Context {Trie : Type}.
Variable ContractCode : Hash -> option (list byte) * option Error.
Variable emptyCodeHash : list byte.

(** X22: [SetCode] on an account that is not a program account returns the
    not-a-program-account error and leaves the object as it is, yet the
    journal gets a code change entry. On a program account it returns no
    error, stores the code and the code hash and marks the code dirty; the
    journal entry has the code hash from before, and [Code] then returns the
    new code without reading the database. *)
Theorem SetCode_spec (s : stateObject Trie) (j : journal) (h : Hash)
    (c : option (list byte)) :
  (GetProgramAccount (account s) = None ->
   SetCode ContractCode emptyCodeHash s j h c
     = (s, journal_append j (codeChange (so_address s) emptyCodeHash (default [] (code s))),
        Some ErrNotProgramAccount)) /\
  (forall acc, GetProgramAccount (account s) = Some acc ->
   exists s1 j1 prevcode,
     SetCode ContractCode emptyCodeHash s j h c = (s1, j1, None) /\
     code s1 = c /\
     CodeHash emptyCodeHash s1 = h /\
     dirtyCode s1 = true /\
     balance (account s1) = balance (account s) /\
     nonce (account s1) = nonce (account s) /\
     entries j1 = entries j ++ [codeChange (so_address s) (codeHash acc) prevcode] /\
     (is_Some c -> Code ContractCode emptyCodeHash s1 = (c, s1))).
Proof.
  split.
  - intros Hacc. unfold SetCode, Code, CodeHash, setCode. rewrite Hacc.
    destruct (code s) as [c0|] eqn:Hc; cbn [default].
    + now rewrite Hacc.
    + rewrite bool_decide_eq_true_2 by reflexivity. now rewrite Hacc.
  - intros acc Hacc.
    assert (Hcode : forall (s0 : stateObject Trie) (prevcode : list byte),
              account s0 = account s -> so_address s0 = so_address s ->
              exists s1 j1,
                (let j := journal_append j (codeChange (so_address s0)
                                              (CodeHash emptyCodeHash s0) prevcode) in
                 let '(self, err) := setCode s0 h c in (self, j, err)) = (s1, j1, None) /\
                code s1 = c /\ CodeHash emptyCodeHash s1 = h /\ dirtyCode s1 = true /\
                balance (account s1) = balance (account s) /\
                nonce (account s1) = nonce (account s) /\
                entries j1 = entries j ++ [codeChange (so_address s) (codeHash acc) prevcode] /\
                (is_Some c -> Code ContractCode emptyCodeHash s1 = (c, s1))).
    { intros s0 prevcode Ha Hs. unfold setCode, CodeHash. rewrite Ha, Hacc, Hs.
      eexists _, _. split; [reflexivity|]. cbn. repeat split.
      intros [c0 ->]. reflexivity. }
    unfold SetCode, Code.
    destruct (code s) as [c0|] eqn:Hc.
    + destruct (Hcode s (default [] (Some c0)) eq_refl eq_refl) as (s1 & j1 & Hset).
      exists s1, j1, (default [] (Some c0)). exact Hset.
    + case_bool_decide.
      * destruct (Hcode s (default [] None) eq_refl eq_refl) as (s1 & j1 & Hset).
        exists s1, j1, (default [] None). exact Hset.
      * destruct (ContractCode _) as [c1 err].
        set (s0 := withCode _ c1).
        assert (Ha : account s0 = account s /\ so_address s0 = so_address s).
        { subst s0. destruct err as [e|]; cbn [account so_address withCode]; [|auto].
          destruct (setError_fields s (Some ("can't load code hash "
            ++ hexEncode (CodeHash emptyCodeHash s) ++ ": " ++ e)%string))
            as (_ & _ & _ & -> & ->). auto. }
        destruct Ha as [Ha Hs].
        destruct (Hcode s0 (default [] c1) Ha Hs) as (s1 & j1 & Hset).
        exists s1, j1, (default [] c1). exact Hset.
Qed.

End CodeFacts.

(** ** The further properties at sample data *)

Ltac distinct :=
  cbn;
  repeat (apply NoDup_cons_2;
          [let H := fresh in
           intros H; repeat (apply elem_of_cons in H as [H|H]; [discriminate|]);
           now apply elem_of_nil in H|]);
  apply NoDup_nil_2.

Ltac not_among :=
  cbn; let H := fresh in
  intros H; repeat (apply elem_of_cons in H as [H|H]; [discriminate|]);
  now apply elem_of_nil in H.

Ltac sorted_by_address :=
  repeat first [apply Sorted_nil | apply Sorted_cons | apply HdRel_nil | apply HdRel_cons];
  unfold byAddress; cbn; lia.

Lemma getByAddress_GetByIndex_witness :
  validators councilAB = Some <$> [valA; valB] /\
  NoDup (address <$> [valA; valB]) /\
  getByAddress councilAB 20 = Returns (1, Some valB) /\
  GetByIndex councilAB 1 = Some valB /\
  getByAddress councilAB 30 = Returns (-1, None) /\
  GetByIndex councilAB 2 = None.
Proof.
  assert (Hnd : NoDup (address <$> [valA; valB])) by distinct.
  split; [reflexivity|]. split; [exact Hnd|].
  destruct (getByAddress_GetByIndex councilAB [valA; valB] eq_refl Hnd)
    as (Hfound & _ & Hmissing & Hbeyond).
  destruct (Hfound 1%nat valB eq_refl) as [Hget Hidx].
  split; [exact Hget|]. split; [exact Hidx|].
  split; [apply Hmissing; not_among|apply Hbeyond; vm_compute; discriminate].
Defined.

Lemma AddValidator_spec_witness :
  validators councilAB = Some <$> [valA; valB] /\
  10 ∈ (address <$> [valA; valB]) /\
  (15 ∉ (address <$> [valA; valB])) /\
  AddValidator councilAB 10 = Returns (councilAB, false) /\
  exists ws',
    AddValidator councilAB 15 = Returns (setValidators councilAB (Some <$> ws'), true) /\
    ws' ≡ₚ defaultValidator 15 :: [valA; valB] /\
    Sorted byAddress ws'.
Proof.
  assert (Hin : 10 ∈ (address <$> [valA; valB])) by (cbn; left).
  assert (Hout : 15 ∉ (address <$> [valA; valB])) by not_among.
  split; [reflexivity|]. split; [exact Hin|]. split; [exact Hout|].
  destruct (AddValidator_spec councilAB [valA; valB] 15 eq_refl) as [_ Hnew].
  destruct (AddValidator_spec councilAB [valA; valB] 10 eq_refl) as [Hknown _].
  split; [exact (Hknown Hin)|].
  destruct (Hnew Hout) as (ws' & Hrun & Hperm & Hsorted & _).
  exists ws'. auto.
Defined.


Lemma AddValidator_RemoveValidator_witness :
  validators councilAB = Some <$> [valA; valB] /\
  proposers councilAB = Some <$> [valA; valB] /\
  Sorted byAddress [valA; valB] /\
  NoDup (address <$> [valA; valB]) /\
  (15 ∉ (address <$> [valA; valB])) /\
  ('(valSet1, _) ← AddValidator councilAB 15; RemoveValidator valSet1 15)
    = Returns (councilAB, true).
Proof.
  assert (Hsorted : Sorted byAddress [valA; valB]) by sorted_by_address.
  assert (Hnd : NoDup (address <$> [valA; valB])) by distinct.
  assert (Hout : 15 ∉ (address <$> [valA; valB])) by not_among.
  split; [reflexivity|]. split; [reflexivity|]. split; [exact Hsorted|].
  split; [exact Hnd|]. split; [exact Hout|].
  exact (AddValidator_RemoveValidator councilAB [valA; valB] [valA; valB] 15
           eq_refl eq_refl Hsorted Hnd Hout Hout).
Defined.

Lemma CalcProposer_selects_witness :
  validators councilAB = Some <$> [valA; valB] /\
  proposers councilAB = Some <$> [valA; valB] /\
  exists p,
    CalcProposer sampleCalcProposerBlockNumber councilAB 10 1
      = Returns (setProposer councilAB (Some p)) /\
    [valA; valB] !! Z.to_nat (pickAt sampleCalcProposerBlockNumber councilAB 1) = Some p.
Proof.
  split; [reflexivity|]. split; [reflexivity|].
  destruct (CalcProposer_selects sampleCalcProposerBlockNumber councilAB [valA; valB]
              [valA; valB] 10 1 eq_refl eq_refl) as (p & Hrun & Hpick & _).
  exists p. split; [exact Hrun|]. apply Hpick. discriminate.
Defined.

Lemma IsProposer_address_witness :
  validators councilAB = Some <$> [valA; valB] /\
  NoDup (address <$> [valA; valB]) /\
  proposer councilAB = Some valA /\
  valA ∈ [valA; valB] /\
  IsProposer councilAB 10 = Returns (bool_decide (address valA = 10)) /\
  IsProposer councilAB 20 = Returns (bool_decide (address valA = 20)).
Proof.
  assert (Hnd : NoDup (address <$> [valA; valB])) by distinct.
  assert (Hin : valA ∈ [valA; valB]) by left.
  split; [reflexivity|]. split; [exact Hnd|]. split; [reflexivity|]. split; [exact Hin|].
  split.
  - exact (IsProposer_address councilAB [valA; valB] valA 10 eq_refl Hnd eq_refl Hin).
  - exact (IsProposer_address councilAB [valA; valB] valA 20 eq_refl Hnd eq_refl Hin).
Defined.

Lemma weightedRandomProposer_window_witness :
  proposers councilABCD = Some <$> [valA; valB; valC; valD] /\
  wrap64 (wrap64 (blockNum councilABCD + 5)
          - sampleCalcProposerBlockNumber (wrap64 (blockNum councilABCD + 1)))
    + len [valA; valB; valC; valD] <= 2 ^ 64 /\
  rotate 5 [valA; valB; valC; valD] ≡ₚ [valA; valB; valC; valD] /\
  forall k : nat, (k < 4)%nat ->
    weightedRandomProposer sampleCalcProposerBlockNumber councilABCD 10 (5 + Z.of_nat k)
      = Returns (rotate 5 [valA; valB; valC; valD] !! k).
Proof.
  assert (Hfit : wrap64 (wrap64 (blockNum councilABCD + 5)
                         - sampleCalcProposerBlockNumber (wrap64 (blockNum councilABCD + 1)))
                 + len [valA; valB; valC; valD] <= 2 ^ 64) by (vm_compute; discriminate).
  split; [reflexivity|]. split; [exact Hfit|].
  exact (weightedRandomProposer_window sampleCalcProposerBlockNumber councilABCD
           [valA; valB; valC; valD] 10 5 eq_refl Hfit).
Defined.

Lemma TotalVotingPower_sum_witness :
  validators councilAB = Some <$> [valA; valB] /\
  (15 ∉ (address <$> [valA; valB])) /\
  TotalVotingPower councilAB = Returns 2000 /\
  ('(valSet1, _) ← AddValidator councilAB 15; TotalVotingPower valSet1) = Returns 3000.
Proof.
  assert (Hout : 15 ∉ (address <$> [valA; valB])) by not_among.
  split; [reflexivity|]. split; [exact Hout|].
  destruct (TotalVotingPower_sum councilAB [valA; valB] 15 eq_refl) as [Hsum Hadd].
  split; [exact Hsum|exact (Hadd Hout)].
Defined.

Lemma NewWeightedCouncil_spec_witness :
  RoundRobin <> WeightedRandom /\
  NewWeightedCouncil [20; 10] (Some [0; 0]) (Some [1000; 1000]) (Some [0; 0]) RoundRobin
                     2 0 0 false = Returns None /\
  NewWeightedCouncil [20; 10] (Some [0]) (Some [1000; 1000]) (Some [0; 0]) WeightedRandom
                     2 0 0 false = Returns None /\
  exists ws,
    NewWeightedCouncil [20; 10] (Some [0; 0]) (Some [1000; 1000]) (Some [0; 0])
                       WeightedRandom 2 0 0 false
      = Returns (Some (mkCouncil 2 (Some <$> ws) (head ws) (Some <$> ws) 0 None 0)) /\
    ws ≡ₚ validatorsOf [20; 10] [0; 0] [1000; 1000] [0; 0] /\
    Sorted byAddress ws.
Proof.
  assert (Hpolicy : RoundRobin <> WeightedRandom) by discriminate.
  split; [exact Hpolicy|]. split; [|split].
  - exact (proj1 (NewWeightedCouncil_spec [20; 10] [0; 0] [1000; 1000] [0; 0] RoundRobin
                    2 0 0 false) Hpolicy).
  - apply (proj1 (proj2 (NewWeightedCouncil_spec [20; 10] [0] [1000; 1000] [0; 0]
                           WeightedRandom 2 0 0 false))).
    left. cbn. lia.
  - exact (proj2 (proj2 (NewWeightedCouncil_spec [20; 10] [0; 0] [1000; 1000] [0; 0]
                           WeightedRandom 2 0 0 false)) eq_refl eq_refl eq_refl eq_refl).
Defined.

Lemma snapshot_round_trip_witness :
  validators councilAB = Some <$> [valA; valB] /\
  proposers councilAB = Some <$> [valA; valB] /\
  Sorted byAddress [valA; valB] /\
  NoDup (address <$> [valA; valB]) /\
  Forall (fun p => p ∈ [valA; valB]) [valA; valB] /\
  exists fresh restored,
    GetWeightedCouncilData councilAB
      = Returns ([10; 20], [0; 0], [1000; 1000], [0; 0], [10; 20], 0) /\
    NewWeightedCouncil [10; 20] (Some [0; 0]) (Some [1000; 1000]) (Some [0; 0])
                       WeightedRandom 2 0 0 false = Returns (Some fresh) /\
    RecoverWeightedCouncilProposer fresh [10; 20] = Returns restored /\
    validators restored = validators councilAB /\
    proposers restored = proposers councilAB.
Proof.
  assert (Hsorted : Sorted byAddress [valA; valB]) by sorted_by_address.
  assert (Hnd : NoDup (address <$> [valA; valB])) by distinct.
  assert (Hin : Forall (fun p => p ∈ [valA; valB]) [valA; valB])
    by (repeat constructor).
  split; [reflexivity|]. split; [reflexivity|]. split; [exact Hsorted|].
  split; [exact Hnd|]. split; [exact Hin|].
  destruct (snapshot_round_trip councilAB [valA; valB] [valA; valB] 2 0 false
              eq_refl eq_refl Hsorted Hnd Hin)
    as (vals & rewardAddrs & votingPowers & weights & proposerAddrs & pbn & fresh & restored
        & Hdata & Hnew & Hrecover & Hvals & Hprops & _).
  injection Hdata as <- <- <- <- <- <-.
  exists fresh, restored. auto.
Defined.

Lemma refreshProposers_spec_witness :
  IntnInRange sampleIntn /\
  validators councilAB = Some <$> [valA; valB] /\
  exists ps,
    refreshProposers sampleIntn councilAB 1 7
      = Returns (setProposersBlockNum (setProposers councilAB (Some <$> ps)) 7) /\
    ps ≡ₚ [valA; valB].
Proof.
  split; [exact sampleIntn_in_range|]. split; [reflexivity|].
  destruct (refreshProposers_spec sampleIntn councilAB [valA; valB] 1 7
              sampleIntn_in_range eq_refl) as (ps & Hrun & _ & _ & _ & Hzero).
  exists ps. split; [exact Hrun|]. apply Hzero. repeat constructor; cbn; lia.
Defined.



Lemma SubListWithProposer_edges_witness :
  validators councilOneSeat = Some <$> [valA; valB; valC; valD] /\
  length hashOne = HashLength /\
  0 <= subSize councilOneSeat < len [valA; valB; valC; valD] /\
  (50 ∉ (address <$> [valA; valB; valC; valD])) /\
  20 ∈ (address <$> [valA; valB; valC; valD]) /\
  SubListWithProposer sampleCalcProposerBlockNumber sampleIntn 0 councilOneSeat hashOne 50 0
    = Returns (validators councilOneSeat) /\
  exists w, w ∈ [valA; valB; valC; valD] /\ address w = 20 /\
    SubListWithProposer sampleCalcProposerBlockNumber sampleIntn 0 councilOneSeat hashOne 20 0
      = Returns [Some w].
Proof.
  assert (Hsize : 0 <= subSize councilOneSeat < len [valA; valB; valC; valD])
    by (vm_compute; split; discriminate || reflexivity).
  assert (Hout : 50 ∉ (address <$> [valA; valB; valC; valD])) by not_among.
  assert (Hin : 20 ∈ (address <$> [valA; valB; valC; valD])) by (cbn; right; left).
  split; [reflexivity|]. split; [reflexivity|]. split; [exact Hsize|].
  split; [exact Hout|]. split; [exact Hin|]. split.
  - exact (proj1 (SubListWithProposer_edges sampleCalcProposerBlockNumber sampleIntn
                    councilOneSeat [valA; valB; valC; valD] hashOne 50 0 0%nat
                    eq_refl eq_refl Hsize) Hout).
  - exact (proj2 (proj2 (SubListWithProposer_edges sampleCalcProposerBlockNumber sampleIntn
                           councilOneSeat [valA; valB; valC; valD] hashOne 20 0 0%nat
                           eq_refl eq_refl Hsize)) Hin eq_refl).
Defined.

Lemma CheckInSubList_full_council_witness :
  validators councilAB = Some <$> [valA; valB] /\
  len [valA; valB] <= subSize councilAB /\
  is_Some (proposer councilAB) /\
  CheckInSubList sampleCalcProposerBlockNumber sampleIntn 0 councilAB hashOne 0 20
    = Returns (bool_decide (20 ∈ (address <$> [valA; valB]))) /\
  CheckInSubList sampleCalcProposerBlockNumber sampleIntn 0 councilAB hashOne 0 30
    = Returns (bool_decide (30 ∈ (address <$> [valA; valB]))).
Proof.
  assert (Hsize : len [valA; valB] <= subSize councilAB) by (vm_compute; discriminate).
  assert (Hp : is_Some (proposer councilAB)) by (exists valA; reflexivity).
  split; [reflexivity|]. split; [exact Hsize|]. split; [exact Hp|]. split.
  - exact (proj1 (CheckInSubList_full_council sampleCalcProposerBlockNumber sampleIntn
                    councilAB [valA; valB] hashOne 0 20 0%nat eq_refl Hsize) Hp).
  - exact (proj1 (CheckInSubList_full_council sampleCalcProposerBlockNumber sampleIntn
                    councilAB [valA; valB] hashOne 0 30 0%nat eq_refl Hsize) Hp).
Defined.

Lemma first_error_is_kept_witness :
  dbErr failedObject = Some "disk"%string /\
  dbErr (snd (GetState mapTryGet mapOpen headerSplit failedObject keyOne))
    = Some "disk"%string /\
  snd (CommitStorageTrie mapOpen mapTryUpdate mapTryDelete mapCommit headerEncode
                         [] failedObject) = Some "disk"%string.
Proof.
  split; [reflexivity|].
  destruct (first_error_is_kept mapTryGet mapOpen headerSplit mapTryUpdate mapTryDelete
              mapCommit headerEncode failedObject "disk"%string emptyJournal keyOne valueTwo
              [] eq_refl) as (Hget & _ & Hcommit & _).
  split; [exact Hget|exact Hcommit].
Defined.

Lemma map_trie_content :
  (forall (tr : mapTrie) k, mapTryGet tr k = (default [] (id tr !! k), None)) /\
  (forall (tr : mapTrie) k v, exists tr' : mapTrie,
     mapTryUpdate tr k v = (tr', None) /\ id tr' = <[k := v]> (id tr)) /\
  (forall (tr : mapTrie) k, exists tr' : mapTrie,
     mapTryDelete tr k = (tr', None) /\ id tr' = delete k (id tr)) /\
  (forall tr : mapTrie, id (mapCopy tr) = id tr) /\
  (forall b, headerSplit (headerEncode b) = (b, None)) /\
  (forall b, 0 < len (headerEncode b)).
Proof.
  repeat split.
  - intros tr k v. now exists (<[k := v]> tr).
  - intros tr k. now exists (delete k tr).
Qed.

Lemma dirtyObject_order : [(keyOne, valueTwo)] ≡ₚ map_to_list (dirtyStorage dirtyObject).
Proof. unfold dirtyObject. cbn [dirtyStorage withDirtyStorage]. now rewrite map_to_list_singleton. Qed.

Lemma updateStorageTrie_flushes_witness :
  [(keyOne, valueTwo)] ≡ₚ map_to_list (dirtyStorage dirtyObject) /\
  exists (tr : mapTrie) s',
    updateStorageTrie mapOpen mapTryUpdate mapTryDelete headerEncode
                      [(keyOne, valueTwo)] dirtyObject = (tr, s') /\
    dirtyStorage s' = ∅ /\
    trieValue mapTryGet headerSplit tr keyOne = valueTwo.
Proof.
  split; [exact dirtyObject_order|].
  destruct map_trie_content as (Hget & Hupd & Hdel & _ & Hsplit & Hlen).
  destruct (updateStorageTrie_flushes mapTryGet mapOpen headerSplit mapTryUpdate
              mapTryDelete headerEncode id Hget Hupd Hdel Hsplit Hlen dirtyObject
              [(keyOne, valueTwo)] dirtyObject_order)
    as (tr & s' & Hrun & _ & Hempty & _ & Hread & _).
  exists tr, s'. split; [exact Hrun|]. split; [exact Hempty|].
  apply Hread; [|reflexivity].
  unfold dirtyObject. cbn [dirtyStorage withDirtyStorage]. apply lookup_singleton_eq.
Defined.

Lemma flushed_copy_reads_back_witness :
  [(keyOne, valueTwo)] ≡ₚ map_to_list (dirtyStorage dirtyObject) /\
  dirtyStorage dirtyObject !! keyOne = Some valueTwo /\
  length valueTwo = HashLength /\
  fst (GetState mapTryGet mapOpen headerSplit
         (deepCopy mapCopy
            (snd (updateStorageTrie mapOpen mapTryUpdate mapTryDelete headerEncode
                                    [(keyOne, valueTwo)] dirtyObject))) keyOne) = valueTwo.
Proof.
  assert (Hdirty : dirtyStorage dirtyObject !! keyOne = Some valueTwo)
    by (unfold dirtyObject; cbn [dirtyStorage withDirtyStorage]; apply lookup_singleton_eq).
  split; [exact dirtyObject_order|]. split; [exact Hdirty|]. split; [reflexivity|].
  destruct map_trie_content as (Hget & Hupd & Hdel & Hcopy & Hsplit & Hlen).
  exact (proj2 (flushed_copy_reads_back mapTryGet mapOpen mapCopy headerSplit mapTryUpdate
                  mapTryDelete headerEncode id Hget Hupd Hdel Hcopy Hsplit Hlen dirtyObject
                  [(keyOne, valueTwo)] keyOne valueTwo dirtyObject_order Hdirty eq_refl)).
Defined.

Lemma SetCode_spec_witness :
  GetProgramAccount (account richObject) = None /\
  GetProgramAccount (account contractObject) = Some (mkProgramAccount [] zeroHash) /\
  snd (SetCode noCode [] richObject emptyJournal keyOne (Some [Byte.x01]))
    = Some ErrNotProgramAccount /\
  exists s1 j1,
    SetCode noCode [] contractObject emptyJournal keyOne (Some [Byte.x01]) = (s1, j1, None) /\
    code s1 = Some [Byte.x01] /\
    dirtyCode s1 = true.
Proof.
  split; [reflexivity|]. split; [reflexivity|]. split.
  - rewrite (proj1 (SetCode_spec noCode [] richObject emptyJournal keyOne (Some [Byte.x01]))
               eq_refl). reflexivity.
  - destruct (proj2 (SetCode_spec noCode [] contractObject emptyJournal keyOne
                       (Some [Byte.x01])) _ eq_refl)
      as (s1 & j1 & prevcode & Hrun & Hcode & _ & Hdirty & _).
    exists s1, j1. auto.
Defined.
